(** * Ledger service ([app/main.py]): balance, hold and settlement

    A shallow embedding of the request handlers, the registry of per-uuid
    locks and the settlement loop of [app/main.py], and the properties of
    the specification that they decide.

    - Python integers are unbounded: amounts, counters and the values that
      a handler computes are [Z]. The integers that the table holds are
      the signed 64-bit integers of SQLite ([int64]), and the driver raises
      [OverflowError] when it is given an integer parameter outside this
      range.
    - The [users] table is a list of rows in storage order, since the
      source declares no schema; [SELECT ... fetchone] takes the first row
      that matches and [UPDATE] rewrites every row that matches. The rows
      hold integers in [balance], [hold] and [status].
    - A request body is given by what [json.loads] makes of it.
    - A handler is first embedded as the source writes it, as one function
      of the application state (run without interleaving); then as a task
      that the event loop resumes from [await] to [await], for the
      properties of the registry and of concurrent requests. The second
      embedding refines the first ([handler_alone]).
    - The store serves every statement of a handler that the driver
      accepts; it may fail in the settlement loop, where the claims are
      about failure.
    - Two things go beyond what the source fixes and are not followed: how
      the store compares a uuid that is not a string with the uuids of the
      table (the outcome [NonTextUuid]), and the floating-point number that
      SQLite stores when [balance-hold] leaves the 64-bit range
      ([settle_row]). *)

From Stdlib Require Import ZArith String List Lia.
From Stdlib Require Import Floats.SpecFloat.
From stdpp Require Import gmap strings list fin_maps relations.

Local Set Warnings "-register-all,-clear-no-such-hyp".
Local Open Scope string_scope.
Local Open Scope list_scope.
Local Open Scope Z_scope.

(** ** Constants (lines 6-9) *)

Definition HOLD_UPDATE_INTERVAL : Z := 600.

(** ** Exceptions *)

Inductive exn_class :=
| UserNotFound            (* class UserNotFound(Exception), line 12 *)
| OperationNotPossible    (* class OperationNotPossible(Exception), line 16 *)
| KeyError
| JSONDecodeError
| AssertionError
| TypeError
| OverflowError           (* an integer parameter does not fit in 64 bits *)
| StoreError.             (* any other error raised by the database driver *)

#[global] Instance exn_class_eq_dec : EqDecision exn_class.
Proof. solve_decision. Defined.

(** An exception object: its class and [str(err)]. *)
Record exn := Exn { exn_class_of : exn_class; exn_str : string }.

(** [except (C1, C2, ...) as e]: does the clause catch [e]? *)
Definition except_ (classes : list exn_class) (e : exn) : bool :=
  bool_decide (exn_class_of e ∈ classes).

(** ** JSON values, as [json.loads] builds them

    A [dict] keeps its keys in insertion order; [dict_get] is the lookup of
    a key. A JSON [true]/[false] becomes a Python [bool], which is a
    subclass of [int]. *)

Inductive json :=
| JNull
| JBool (b : bool)
| JInt (z : Z)
| JFloat (f : spec_float)
| JStr (s : string)
| JList (l : list json)
| JDict (d : list (string * json)).

Fixpoint dict_get (d : list (string * json)) (k : string) : option json :=
  match d with
  | [] => None
  | (k', v) :: d' => if String.eqb k' k then Some v else dict_get d' k
  end.

(** The request body, given by what [json.loads] makes of the text: either
    the text is not JSON, or it denotes one value. *)
Inductive request_text :=
| NotJson
| Json (j : json).

Definition json_loads (t : request_text) : exn + json :=
  match t with
  | NotJson => inl (Exn JSONDecodeError "Expecting value")
  | Json j => inr j
  end.

(** [obj[k]] for a string [k]: only a [dict] can be subscripted by a
    string; [None], numbers and booleans are not subscriptable, lists and
    strings take integer indices only. *)
Definition getitem (obj : json) (k : string) : exn + json :=
  match obj with
  | JDict d =>
      match dict_get d k with
      | Some v => inr v
      | None => inl (Exn KeyError k)
      end
  | _ => inl (Exn TypeError "object cannot be subscripted by str")
  end.

(** [isinstance(value, int)], with the integer that [value] then is in
    arithmetic and comparisons ([True] is 1, [False] is 0). *)
Definition as_int (value : json) : option Z :=
  match value with
  | JInt z => Some z
  | JBool b => Some (Z.b2z b)
  | _ => None
  end.

(** [assert isinstance(value, int) and value >= 0] (lines 130 and 167). *)
Definition assert_amount (value : json) : exn + Z :=
  match as_int value with
  | Some z => if 0 <=? z then inr z else inl (Exn AssertionError EmptyString)
  | None => inl (Exn AssertionError EmptyString)
  end.

(** The error monad of the parsing blocks. *)
Definition ebind {A B} (m : exn + A) (f : A -> exn + B) : exn + B :=
  match m with
  | inl e => inl e
  | inr a => f a
  end.

Notation "'let?' x := m 'in' k" := (ebind m (fun x => k))
  (at level 10, x name, m at level 100, k at level 200, only parsing).

(** Lines 104-105: the [try] block of [handle_status]. *)
Definition parse_status (t : request_text) : exn + json :=
  let? request_data := json_loads t in
  let? addition := getitem request_data "addition" in
  getitem addition "uuid".

(** Lines 127-130 and 164-167: the [try] block of [handle_add] and of
    [handle_subtract]. [request_data['addition']] is evaluated once per
    field. *)
Definition parse_amount (t : request_text) : exn + (json * Z) :=
  let? request_data := json_loads t in
  let? addition := getitem request_data "addition" in
  let? uuid := getitem addition "uuid" in
  let? addition' := getitem request_data "addition" in
  let? value := getitem addition' "value" in
  let? amount := assert_amount value in
  inr (uuid, amount).

(** ** The integers of the store

    An INTEGER cell of SQLite holds a signed 64-bit integer, and the
    driver binds a Python [int] as a parameter only when it is in this
    range. *)

Definition INT64_MIN : Z := -9223372036854775808.
Definition INT64_MAX : Z := 9223372036854775807.

Definition fits64 (z : Z) : bool := (INT64_MIN <=? z) && (z <=? INT64_MAX).

(** The exception of the driver for an integer parameter that does not
    fit. *)
Definition overflow_error : exn :=
  Exn OverflowError "Python int too large to convert to SQLite INTEGER".

Record int64 := Int64 {
  int64_val : Z;
  int64_fits : Is_true (fits64 int64_val);
}.

(** The integer of the range that is nearest to [z]: [z] itself when it
    fits. *)
Definition clamp64 (z : Z) : Z := Z.max INT64_MIN (Z.min z INT64_MAX).

Definition evidence (b : bool) : option (Is_true b) :=
  match b with
  | true => Some I
  | false => None
  end.

(** The cell that holds [z], for a [z] that fits. A value that an [UPDATE]
    writes has been accepted by the driver, so that it fits; where SQLite
    would leave the integers ([settle_row]), and on any other [z] that
    does not fit, [store] gives the cell of [clamp64 z]. *)
Definition store (z : Z) : int64 :=
  match evidence (fits64 (clamp64 z)) with
  | Some H => Int64 (clamp64 z) H
  | None => Int64 0 I
  end.

Arguments store : simpl never.

(** ** The [users] table and the connection *)

Record user_row := {
  row_uuid : string;
  row_name : string;
  balance_cell : int64;
  hold_cell : int64;
  status_cell : int64;     (* SQLite stores the flag as an integer *)
}.

(** The integers in the cells of a row. *)
Definition row_balance (r : user_row) : Z := int64_val (balance_cell r).
Definition row_hold (r : user_row) : Z := int64_val (hold_cell r).
Definition row_status (r : user_row) : Z := int64_val (status_cell r).

(** The integer columns a partial update can name. *)
Inductive column := Cbalance | Chold | Cstatus.

#[global] Instance column_eq_dec : EqDecision column.
Proof. solve_decision. Defined.

(** The statements a connection executes. *)
Inductive statement :=
| Select (uuid : string)                              (* line 25 *)
| Update (uuid : string) (params : list (column * Z)) (* lines 46-49 *)
| UpdateAll                                           (* line 204 *)
| Commit.                                             (* lines 50 and 206 *)

(** A connection: the table, and the statements executed so far, oldest
    first. *)
Record conn := {
  users : list user_row;
  journal : list statement;
}.

Definition execute (s : statement) (c : conn) (t : list user_row) : conn :=
  {| users := t; journal := journal c ++ [s] |}.

(** The dictionary built at lines 30-36. *)
Record user_data := {
  ud_uuid : string;
  ud_name : string;
  ud_balance : Z;
  ud_hold : Z;
  ud_status : bool;
}.

(** [bool(status)] on an integer. *)
Definition py_bool (z : Z) : bool := negb (z =? 0).

Definition has_uuid (u : string) (r : user_row) : bool := String.eqb (row_uuid r) u.

(** [fetchone] on [SELECT * FROM users WHERE uuid=?]. *)
Definition fetchone (t : list user_row) (u : string) : option user_row :=
  List.find (has_uuid u) t.

(** The state-and-exception monad of the code that talks to the store.
    What a statement did before an exception stays done. *)
Definition Store (A : Type) : Type := conn -> (exn + A) * conn.

Definition sret {A} (a : A) : Store A := fun c => (inr a, c).
Definition sraise {A} (e : exn) : Store A := fun c => (inl e, c).
Definition sbind {A B} (m : Store A) (f : A -> Store B) : Store B :=
  fun c => match m c with
           | (inl e, c') => (inl e, c')
           | (inr a, c') => f a c'
           end.

Notation "'let*' x := m 'in' k" := (sbind m (fun x => k))
  (at level 10, x name, m at level 100, k at level 200, only parsing).

(** Lines 24-37. *)
Definition get_user_data_by_uuid (u : string) : Store user_data :=
  fun c =>
    let c' := execute (Select u) c (users c) in
    match fetchone (users c) u with
    | None => (inl (Exn UserNotFound "uuid not found"), c')
    | Some row =>
        (inr {| ud_uuid := row_uuid row;
                ud_name := row_name row;
                ud_balance := row_balance row;
                ud_hold := row_hold row;
                ud_status := py_bool (row_status row) |}, c')
    end.

(** [k=?] on one row, with the value that the driver has bound: it has
    accepted the value ([refused] below), so that the value fits. *)
Definition set_column (r : user_row) (kv : column * Z) : user_row :=
  match fst kv with
  | Cbalance => {| row_uuid := row_uuid r; row_name := row_name r;
                   balance_cell := store (snd kv); hold_cell := hold_cell r;
                   status_cell := status_cell r |}
  | Chold => {| row_uuid := row_uuid r; row_name := row_name r;
                balance_cell := balance_cell r; hold_cell := store (snd kv);
                status_cell := status_cell r |}
  | Cstatus => {| row_uuid := row_uuid r; row_name := row_name r;
                  balance_cell := balance_cell r; hold_cell := hold_cell r;
                  status_cell := store (snd kv) |}
  end.

(** [UPDATE users SET k1=?, ... WHERE uuid=?] on one row. *)
Definition update_row (u : string) (params : list (column * Z)) (r : user_row) : user_row :=
  if has_uuid u r then fold_left set_column params r else r.

(** What [conn.execute] at line 49 raises before the statement reaches the
    table: with no key, lines 46-48 have built [UPDATE users SET WHERE
    uuid=?], which SQLite does not parse; and the driver does not bind an
    integer that is outside the 64-bit range. *)
Definition refused (params : list (column * Z)) : option exn :=
  match params with
  | [] => Some (Exn StoreError "syntax error")
  | _ :: _ =>
      if forallb (fun kv => fits64 (snd kv)) params then None
      else Some overflow_error
  end.

(** Lines 40-50: one [UPDATE], then [commit]; nothing is executed and
    nothing committed when [conn.execute] raises. *)
Definition update_user_data (u : string) (params : list (column * Z)) : Store unit :=
  fun c =>
    match refused params with
    | Some e => (inl e, c)
    | None =>
        let c1 := execute (Update u params) c (List.map (update_row u params) (users c)) in
        (inr tt, execute Commit c1 (users c1))
    end.

(** ** Responses *)

(** What the handler hands to the HTTP layer: transport status and body. *)
Record response := {
  http_status : Z;
  json_body : json;
}.

(** [web.json_response(data)]: the [status] keyword is left at its default
    of 200. *)
Definition json_response (data : json) : response :=
  {| http_status := 200; json_body := data |}.

(** Lines 53-60. *)
Definition make_response (status : Z) (result : bool) (addition description : json) : response :=
  json_response
    (JDict [("status", JInt status); ("result", JBool result);
            ("addition", addition); ("description", description)]).

(** Lines 63-70. *)
Definition make_user_not_found_response (err : exn) : response :=
  make_response 404 false (JDict [("reason", JStr (exn_str err))]) (JDict []).

(** Lines 73-80. *)
Definition make_bad_request_response (err : exn) : response :=
  make_response 400 false (JDict [("reason", JStr "bad request")]) (JDict []).

(** Lines 83-90. *)
Definition make_operation_not_possible_response (err : exn) : response :=
  make_response 403 false (JDict [("reason", JStr (exn_str err))]) (JDict []).

(** Lines 20-21. *)
Definition subtraction_is_possible (balance hold value : Z) : bool :=
  hold + value <=? balance.

(** ** The application object *)

(** An [asyncio.Lock] object is known by the order of its creation. *)
Abbreviation lock := nat.

Record App := {
  app_conn : conn;                        (* app['conn'] *)
  locked_rows : gmap string (lock * Z);   (* app['locked_rows'] *)
  locked : gset lock;                     (* the Lock objects that are locked *)
  created : lock;                         (* how many Lock objects exist *)
}.

Definition with_conn {A} (m : Store A) (app : App) : (exn + A) * App :=
  let '(res, c) := m (app_conn app) in
  (res, {| app_conn := c; locked_rows := locked_rows app;
           locked := locked app; created := created app |}).

(** Lines 134-135 and 171-172. The default [(asyncio.Lock(), 0)] is built
    before [get] is called, so a Lock object is created at every call. *)
Definition locked_rows_enter (uuid : string) (app : App) : lock * App :=
  let fresh := created app in
  let '(lock, counter) := default (fresh, 0) (locked_rows app !! uuid) in
  (lock, {| app_conn := app_conn app;
            locked_rows := <[uuid := (lock, counter + 1)]> (locked_rows app);
            locked := locked app;
            created := S fresh |}).

(** Lines 149-153 and 189-193, the [finally] block; [None] is the
    [KeyError] of [locked_rows[uuid]] on a missing key. *)
Definition locked_rows_leave (uuid : string) (app : App) : option App :=
  match locked_rows app !! uuid with
  | Some (lock, count) =>
      Some {| app_conn := app_conn app;
              locked_rows := if count =? 1 then delete uuid (locked_rows app)
                             else <[uuid := (lock, count - 1)]> (locked_rows app);
              locked := locked app;
              created := created app |}
  | None => None
  end.

(** [lock.acquire()] on a free lock and [lock.release()]. *)
Definition acquire (l : lock) (app : App) : App :=
  {| app_conn := app_conn app; locked_rows := locked_rows app;
     locked := {[l]} ∪ locked app; created := created app |}.

Definition release (l : lock) (app : App) : App :=
  {| app_conn := app_conn app; locked_rows := locked_rows app;
     locked := locked app ∖ {[l]}; created := created app |}.

(** ** The handlers, run without interleaving *)

Inductive outcome :=
| Returned (r : response)
| Uncaught (e : exn)      (* the exception leaves the handler *)
| Suspended               (* [async with lock] waits: the lock is held *)
| NonTextUuid.            (* the uuid field is not a string. The handler
                             goes on with it as a key of [locked_rows] and
                             as the parameter of its statements, but what
                             the store finds for it depends on the declared
                             type of the column, which the source does not
                             fix: the handler is followed no further than
                             the parsing, and the state given with this
                             outcome is the state at that point *)

(** Lines 144-147 and 154-158 (184-187 and 194-198): the [except] clauses
    and the final [return]. *)
Definition on_exit (res : exn + unit) : outcome :=
  match res with
  | inr _ => Returned (make_response 200 true (JDict []) (JDict []))
  | inl e =>
      if except_ [UserNotFound] e then Returned (make_user_not_found_response e)
      else if except_ [OperationNotPossible] e
           then Returned (make_operation_not_possible_response e)
           else Uncaught e
  end.

(** The [finally] block runs last; its own [KeyError] replaces the result. *)
Definition finally_leave (uuid : string) (out : outcome) (app : App) : outcome * App :=
  match locked_rows_leave uuid app with
  | Some app' => (out, app')
  | None => (Uncaught (Exn KeyError uuid), app)
  end.

(** Lines 101-121. *)
Definition handle_status (t : request_text) (app : App) : outcome * App :=
  match parse_status t with
  | inl e =>
      if except_ [KeyError; JSONDecodeError] e
      then (Returned (make_bad_request_response e), app)
      else (Uncaught e, app)
  | inr (JStr uuid) =>
      match with_conn (get_user_data_by_uuid uuid) app with
      | (inl e, app) =>
          if except_ [UserNotFound] e
          then (Returned (make_user_not_found_response e), app)
          else (Uncaught e, app)
      | (inr user_data, app) =>
          (Returned (make_response 200 true
                       (JDict [("balance", JInt (ud_balance user_data));
                               ("hold", JInt (ud_hold user_data));
                               ("status", JBool (ud_status user_data))])
                       (JDict [])), app)
      end
  | inr _ => (NonTextUuid, app)
  end.

(** Lines 138-143: the body of [async with lock] in [handle_add]. *)
Definition add_locked (uuid : string) (value : Z) : Store unit :=
  let* user_data := get_user_data_by_uuid uuid in
  if negb (ud_status user_data)
  then sraise (Exn OperationNotPossible "status is inactive")
  else
    let balance := ud_balance user_data in
    let balance := balance + value in
    update_user_data uuid [(Cbalance, balance)].

(** Lines 175-183: the body of [async with lock] in [handle_subtract]. *)
Definition subtract_locked (uuid : string) (value : Z) : Store unit :=
  let* user_data := get_user_data_by_uuid uuid in
  if negb (ud_status user_data)
  then sraise (Exn OperationNotPossible "status is inactive")
  else
    let balance := ud_balance user_data in
    let hold := ud_hold user_data in
    if negb (subtraction_is_possible balance hold value)
    then sraise (Exn OperationNotPossible "balance too low")
    else
      let hold := hold + value in
      update_user_data uuid [(Chold, hold)].

(** Lines 133-158 and 170-198, for the locked body [body]. *)
Definition run_locked (body : string -> Z -> Store unit)
    (uuid : string) (value : Z) (app : App) : outcome * App :=
  let '(lock, app) := locked_rows_enter uuid app in
  if bool_decide (lock ∈ locked app) then (Suspended, app)
  else
    let app := acquire lock app in
    let '(res, app) := with_conn (body uuid value) app in
    let app := release lock app in
    finally_leave uuid (on_exit res) app.

(** Lines 124-158. *)
Definition handle_add (t : request_text) (app : App) : outcome * App :=
  match parse_amount t with
  | inl e =>
      if except_ [KeyError; JSONDecodeError; AssertionError] e
      then (Returned (make_bad_request_response e), app)
      else (Uncaught e, app)
  | inr (JStr uuid, value) => run_locked add_locked uuid value app
  | inr _ => (NonTextUuid, app)
  end.

(** Lines 161-198. *)
Definition handle_subtract (t : request_text) (app : App) : outcome * App :=
  match parse_amount t with
  | inl e =>
      if except_ [JSONDecodeError; KeyError; AssertionError] e
      then (Returned (make_bad_request_response e), app)
      else (Uncaught e, app)
  | inr (JStr uuid, value) => run_locked subtract_locked uuid value app
  | inr _ => (NonTextUuid, app)
  end.

(** Lines 93-98. *)
Definition handle_ping (t : request_text) (app : App) : outcome * App :=
  (Returned (make_response 200 true (JDict []) (JDict [])), app).

(** ** The settlement loop *)

(** [SET balance=balance-hold, hold=0]: both right-hand sides read the row
    as it was. SQLite computes [balance-hold] on 64-bit integers. When the
    difference does not fit, SQLite computes it in floating point instead
    and the cell is no integer any more: a row of this table cannot say
    so, its balance is then the bound of the range ([store]), and the
    statements on the balance after a round are about the rows in which
    the difference fits. *)
Definition settle_row (r : user_row) : user_row :=
  {| row_uuid := row_uuid r; row_name := row_name r;
     balance_cell := store (row_balance r - row_hold r); hold_cell := store 0;
     status_cell := status_cell r |}.

(** What the store does with one round of lines 205-206. *)
Inductive store_event :=
| StoreOk
| ExecuteFails (e : exn)    (* [conn.execute] raises *)
| CommitFails (e : exn).    (* [conn.commit] raises *)

(** Lines 204-206, one round of the loop body after the sleep. *)
Definition settle (ev : store_event) : Store unit :=
  fun c =>
    match ev with
    | ExecuteFails e => (inl e, c)
    | CommitFails e => (inl e, execute UpdateAll c (List.map settle_row (users c)))
    | StoreOk =>
        let c1 := execute UpdateAll c (List.map settle_row (users c)) in
        (inr tt, execute Commit c1 (users c1))
    end.

(** Where the coroutine of lines 201-206 is after the rounds it was given:
    asleep in [asyncio.sleep], or left by an exception. *)
Inductive loop_state :=
| Sleeping (c : conn)
| Raised (e : exn) (c : conn).

(** Lines 201-206: [while True] has no [try]; the rounds are the store's
    answers to the successive iterations. *)
Fixpoint auto_update_hold (rounds : list store_event) (c : conn) : loop_state :=
  match rounds with
  | [] => Sleeping c
  | ev :: rounds' =>
      match settle ev c with
      | (inr _, c') => auto_update_hold rounds' c'
      | (inl e, c') => Raised e c'
      end
  end.

(** What lines 217-223 find before the loop is under way:
    [aiosqlite.connect], [runner.setup()] and [site.start()] each return
    or raise. *)
Inductive startup :=
| Started
| ConnectFails (e : exn)    (* line 217 *)
| SetupFails (e : exn)      (* line 221 *)
| StartFails (e : exn).     (* [site.start()] in the [gather] of line 223 *)

(** Where the coroutine [main] is: suspended in the [gather] of line 223,
    or ended by an exception, which [run_until_complete(main())] raises at
    line 228. What becomes of the interpreter then (the thread of the
    connection is never closed) is not in the source. *)
Inductive main_state :=
| Gathering (c : conn)
| Ended (e : exn).

(** Lines 209-223. [main] has no [try], and [asyncio.gather] is called
    without [return_exceptions]: the first exception of [site.start()] or
    of [auto_update_hold] is raised in [main]. *)
Definition main (s : startup) (rounds : list store_event) (c : conn) : main_state :=
  match s with
  | ConnectFails e | SetupFails e | StartFails e => Ended e
  | Started =>
      match auto_update_hold rounds c with
      | Sleeping c' => Gathering c'
      | Raised e _ => Ended e
      end
  end.

(** ** Requests and answers used in the statements *)

(** The body [{"addition": {"uuid": uuid, "value": value}}]. *)
Definition amount_request (uuid : string) (value : json) : request_text :=
  Json (JDict [("addition", JDict [("uuid", JStr uuid); ("value", value)])]).

Definition ok_response : response :=
  make_response 200 true (JDict []) (JDict []).

Definition not_found_response : response :=
  make_user_not_found_response (Exn UserNotFound "uuid not found").

Definition not_possible_response (reason : string) : response :=
  make_operation_not_possible_response (Exn OperationNotPossible reason).

(** The lock that [locked_rows.get(uuid, (asyncio.Lock(), 0))] returns. *)
Definition lock_of (uuid : string) (app : App) : lock :=
  fst (default (created app, 0) (locked_rows app !! uuid)).

(** No operation in flight holds the lock of [uuid]. *)
Definition lock_free (uuid : string) (app : App) : Prop :=
  lock_of uuid app ∉ locked app.

(** [locked_rows] after an operation on [uuid] has entered and left. *)
Definition locked_rows_after (uuid : string) (m : gmap string (lock * Z)) : gmap string (lock * Z) :=
  match m !! uuid with
  | Some (_, 0) => delete uuid m
  | _ => m
  end.

(** The table of the connection of an application. *)
Definition table (app : App) : list user_row := users (app_conn app).

(** An application with no request in flight, on the table [t]. *)
Definition idle_app (t : list user_row) : App :=
  {| app_conn := {| users := t; journal := [] |};
     locked_rows := ∅; locked := ∅; created := 0 |}.

(** The account of the scenarios: uuid [a1], active. *)
Definition account (balance hold : Z) : user_row :=
  {| row_uuid := "a1"; row_name := "Ann"; balance_cell := store balance;
     hold_cell := store hold; status_cell := store 1 |}.

(** ** The two mutating operations side by side *)

Inductive op := Add | Subtract.

Definition handler (o : op) : request_text -> App -> outcome * App :=
  match o with
  | Add => handle_add
  | Subtract => handle_subtract
  end.

Definition locked_body (o : op) : string -> Z -> Store unit :=
  match o with
  | Add => add_locked
  | Subtract => subtract_locked
  end.

(** The column that the operation passes to [update_user_data]. *)
Definition written_column (o : op) : column :=
  match o with
  | Add => Cbalance
  | Subtract => Chold
  end.

(** The value that the operation writes there, from the row that it read
    and the amount of the request (lines 142 and 182). *)
Definition written_value (o : op) (row : user_row) (value : Z) : Z :=
  match o with
  | Add => row_balance row + value
  | Subtract => row_hold row + value
  end.

Definition bad_request_response : response :=
  make_response 400 false (JDict [("reason", JStr "bad request")]) (JDict []).

(** Lines 211-216: the routes of the application (all [POST]). *)
Definition routes : list (string * (request_text -> App -> outcome * App)) :=
  [("/api/ping", handle_ping);
   ("/api/status", handle_status);
   ("/api/add", handle_add);
   ("/api/subtract", handle_subtract)].

(** The [status] field of the body of a response. *)
Definition reported_status (r : response) : option json :=
  match json_body r with
  | JDict d => dict_get d "status"
  | _ => None
  end.

(** The response is sent with transport status 200 and reports one of the
    four codes of the service in its body. *)
Definition sent_as_200 (r : response) : Prop :=
  http_status r = 200 /\
  exists code, reported_status r = Some (JInt code) /\ In code [200; 400; 403; 404].

(** The connection after [n] rounds that the store served. *)
Definition settled (n : nat) (c : conn) : conn :=
  Nat.iter n (fun c => snd (settle StoreOk c)) c.

(** ** The handlers, interleaved

    The event loop runs one coroutine at a time and switches at an [await]
    only. A task is a handler of [/api/add] or [/api/subtract] suspended at
    one of its [await]s, with the local variables it needs afterwards. *)

Inductive task :=
| Received (o : op) (t : request_text)
    (* [await request.text()], lines 125 and 162 *)
| AwaitLock (o : op) (uuid : string) (value : Z) (l : lock)
    (* [async with lock], lines 137 and 174: waiting for [l] *)
| AwaitSelect (o : op) (uuid : string) (value : Z) (l : lock)
    (* lines 138 and 175, in [get_user_data_by_uuid]; holds [l] *)
| AwaitUpdate (o : op) (uuid : string) (l : lock) (params : list (column * Z))
    (* line 49, [await conn.execute(sql, ...)]; holds [l] *)
| AwaitCommit (o : op) (uuid : string) (l : lock)
    (* line 50, [await conn.commit()]; holds [l] *)
| Done (out : outcome).

(** From the text of the request to [async with lock]: lines 126-137 and
    163-174. The two [except] clauses list the same classes. *)
Definition arrive (o : op) (t : request_text) (app : App) : task * App :=
  match parse_amount t with
  | inl e =>
      if except_ [KeyError; JSONDecodeError; AssertionError] e
      then (Done (Returned (make_bad_request_response e)), app)
      else (Done (Uncaught e), app)
  | inr (JStr uuid, value) =>
      let '(l, app) := locked_rows_enter uuid app in
      (AwaitLock o uuid value l, app)
  | inr _ => (Done NonTextUuid, app)
  end.

(** Lines 139-142 and 176-182: from the row that was read to the
    parameters of the update. *)
Definition prepare (o : op) (user_data : user_data) (value : Z) : exn + list (column * Z) :=
  if negb (ud_status user_data)
  then inl (Exn OperationNotPossible "status is inactive")
  else
    match o with
    | Add => inr [(Cbalance, ud_balance user_data + value)]
    | Subtract =>
        if negb (subtraction_is_possible (ud_balance user_data) (ud_hold user_data) value)
        then inl (Exn OperationNotPossible "balance too low")
        else inr [(Chold, ud_hold user_data + value)]
    end.

(** The end of [async with], the [except] clauses, [finally] and [return]:
    nothing is awaited in between. *)
Definition leave (uuid : string) (l : lock) (res : exn + unit) (app : App) : task * App :=
  let '(out, app) := finally_leave uuid (on_exit res) (release l app) in
  (Done out, app).

(** The row arrives: the handler either leaves or goes on to the update. *)
Definition selected (o : op) (uuid : string) (value : Z) (l : lock) (app : App) : task * App :=
  match with_conn (get_user_data_by_uuid uuid) app with
  | (inl e, app) => leave uuid l (inl e) app
  | (inr user_data, app) =>
      match prepare o user_data value with
      | inl e => leave uuid l (inl e) app
      | inr params => (AwaitUpdate o uuid l params, app)
      end
  end.

Definition on_conn (f : conn -> conn) (app : App) : App :=
  {| app_conn := f (app_conn app); locked_rows := locked_rows app;
     locked := locked app; created := created app |}.

(** One task runs from the [await] it is suspended at to its next one.
    [None]: the task cannot run (its lock is held, or it has returned). *)
Definition advance (tk : task) (app : App) : option (task * App) :=
  match tk with
  | Received o t => Some (arrive o t app)
  | AwaitLock o uuid value l =>
      if bool_decide (l ∈ locked app) then None
      else Some (AwaitSelect o uuid value l, acquire l app)
  | AwaitSelect o uuid value l => Some (selected o uuid value l app)
  | AwaitUpdate o uuid l params =>
      match refused params with
      | Some e => Some (leave uuid l (inl e) app)
      | None =>
          Some (AwaitCommit o uuid l,
                on_conn (fun c => execute (Update uuid params) c
                                    (List.map (update_row uuid params) (users c))) app)
      end
  | AwaitCommit o uuid l =>
      Some (leave uuid l (inr tt) (on_conn (fun c => execute Commit c (users c)) app))
  | Done _ => None
  end.

(** The service: the application object and the handlers in flight. *)
Definition service : Type := App * list task.

(** The event loop resumes one of the handlers. Any handler that can run
    may be the next: a lock that is free may go to any of its waiters, a
    handler that finds its lock free may be overtaken before it takes it,
    and the statements may reach the table in any order. The orders in
    which [asyncio] and the queue of the connection really resume the
    handlers are among these. *)
Inductive step : service -> service -> Prop :=
| step_task app app' before tk tk' after :
    advance tk app = Some (tk', app') ->
    step (app, before ++ tk :: after) (app', before ++ tk' :: after).

(** What else happens to the service: a request comes in, or the
    settlement loop runs one round. *)
Inductive run : service -> service -> Prop :=
| run_step s s' : step s s' -> run s s'
| run_request app ts o t : run (app, ts) (app, ts ++ [Received o t])
| run_settle app ts :
    run (app, ts) (on_conn (fun c => snd (settle StoreOk c)) app, ts).

(** The uuid a task works on and the lock it took from the registry, from
    its entry in [locked_rows] to its [finally]. *)
Definition task_key (tk : task) : option string :=
  match tk with
  | AwaitLock _ u _ _ | AwaitSelect _ u _ _ | AwaitUpdate _ u _ _ | AwaitCommit _ u _ => Some u
  | Received _ _ | Done _ => None
  end.

Definition task_lock (tk : task) : option lock :=
  match tk with
  | AwaitLock _ _ _ l | AwaitSelect _ _ _ l | AwaitUpdate _ _ l _ | AwaitCommit _ _ l => Some l
  | Received _ _ | Done _ => None
  end.

(** The lock a task holds: it is inside [async with]. *)
Definition held_lock (tk : task) : option lock :=
  match tk with
  | AwaitSelect _ _ _ l | AwaitUpdate _ _ l _ | AwaitCommit _ _ l => Some l
  | Received _ _ | AwaitLock _ _ _ _ | Done _ => None
  end.

Definition count (p : task -> bool) (ts : list task) : nat :=
  length (List.filter p ts).

(** The task is in flight on [u]. *)
Definition on_key (u : string) (tk : task) : bool :=
  bool_decide (task_key tk = Some u).

(** The task is in flight on [u] with a lock other than [l]. *)
Definition on_key_other (u : string) (l : lock) (tk : task) : bool :=
  on_key u tk && negb (bool_decide (task_lock tk = Some l)).

(** The task holds [l]. *)
Definition holding (l : lock) (tk : task) : bool :=
  bool_decide (held_lock tk = Some l).

(** The task is inside [async with] on [u]. *)
Definition in_critical (u : string) (tk : task) : bool :=
  on_key u tk && bool_decide (is_Some (held_lock tk)).

Definition in_flight (u : string) (ts : list task) : nat := count (on_key u) ts.

Definition is_done (tk : task) : bool :=
  match tk with Done _ => true | _ => false end.

(** No request is being handled. *)
Definition quiescent (s : service) : Prop :=
  locked_rows (fst s) = ∅ /\ locked (fst s) = ∅ /\
  Forall (fun tk => task_key tk = None) (snd s).

(** The registry agrees with the handlers in flight: a uuid has an entry
    exactly when a handler is in flight on it, the counter of the entry is
    the number of those handlers, and all of them took the lock of the
    entry. *)
Definition registry_ok (s : service) : Prop :=
  forall u,
    match locked_rows (fst s) !! u with
    | None => in_flight u (snd s) = 0%nat
    | Some (l, c) =>
        c = Z.of_nat (in_flight u (snd s)) /\ 0 < c /\
        count (on_key_other u l) (snd s) = 0%nat
    end.

(** A lock is locked exactly when one handler holds it, and no two do. *)
Definition locks_ok (s : service) : Prop :=
  forall l, count (holding l) (snd s) = if bool_decide (l ∈ locked (fst s)) then 1%nat else 0%nat.

(** How many [await]s a task has before it at most. *)
Definition weight (tk : task) : nat :=
  match tk with
  | Received _ _ => 5
  | AwaitLock _ _ _ _ => 4
  | AwaitSelect _ _ _ _ => 3
  | AwaitUpdate _ _ _ _ => 2
  | AwaitCommit _ _ _ => 1
  | Done _ => 0
  end.

Definition total_weight (ts : list task) : nat := list_sum (List.map weight ts).

(** A partial update keeps every column it does not name, and every row
    of another uuid. *)
Definition same_but (col : column) (u : string) (r r' : user_row) : Prop :=
  row_uuid r' = row_uuid r /\ row_name r' = row_name r /\
  row_status r' = row_status r /\
  (col <> Cbalance -> row_balance r' = row_balance r) /\
  (col <> Chold -> row_hold r' = row_hold r) /\
  (row_uuid r <> u -> r' = r).

(** ** Concurrent credits of 1 on one uuid *)

(** The body of a credit of 1 on [u]. *)
Definition credit_request (u : string) : request_text := amount_request u (JInt 1).

Definition is_add (o : op) : bool :=
  match o with Add => true | Subtract => false end.

(** The uuid and the amount that a request names, when it names them. *)
Definition names (t : request_text) : option (string * Z) :=
  match parse_amount t with
  | inr (JStr u, v) => Some (u, v)
  | _ => None
  end.

(** The task is a credit of 1 on [u] that has not executed its [UPDATE]. *)
Definition unwritten (u : string) (tk : task) : bool :=
  match tk with
  | Received o t =>
      match names t with
      | Some (u', v) => String.eqb u' u && is_add o && (v =? 1)
      | None => false
      end
  | AwaitLock o u' v _ | AwaitSelect o u' v _ => String.eqb u' u && is_add o && (v =? 1)
  | AwaitUpdate o u' _ _ => String.eqb u' u && is_add o
  | AwaitCommit _ _ _ | Done _ => false
  end.

(** The task is on [u] and is not a credit of 1 (before its [UPDATE]: it
    is not about to write [b + 1] as the balance). *)
Definition stranger (u : string) (b : Z) (tk : task) : bool :=
  match tk with
  | Received o t =>
      match names t with
      | Some (u', v) => String.eqb u' u && negb (is_add o && (v =? 1))
      | None => false
      end
  | AwaitLock o u' v _ | AwaitSelect o u' v _ =>
      String.eqb u' u && negb (is_add o && (v =? 1))
  | AwaitUpdate o u' _ params =>
      String.eqb u' u && negb (is_add o && bool_decide (params = [(Cbalance, b + 1)]))
  | AwaitCommit _ _ _ | Done _ => false
  end.

(** The request names its uuid as a string, or is turned down by the
    parsing. *)
Definition textual (t : request_text) : Prop :=
  match parse_amount t with
  | inr (JStr _, _) | inl _ => True
  | inr _ => False
  end.

(** A request that was received and does not name [u]. *)
Definition foreign (u : string) (tk : task) : Prop :=
  exists o t, tk = Received o t /\ textual t /\ forall v, names t <> Some (u, v).

(** The account of [u] is active, and its balance and the credits still to
    be written add up to [total]. *)
Definition credits_ok (u : string) (total : Z) (s : service) : Prop :=
  exists row,
    fetchone (table (fst s)) u = Some row /\
    py_bool (row_status row) = true /\
    row_balance row + Z.of_nat (count (unwritten u) (snd s)) = total /\
    count (stranger u (row_balance row)) (snd s) = 0%nat.

Definition runnable (tk : task) : bool :=
  match tk with
  | Received _ _ | AwaitSelect _ _ _ _ | AwaitUpdate _ _ _ _ | AwaitCommit _ _ _ => true
  | AwaitLock _ _ _ _ | Done _ => false
  end.

Definition waiting (tk : task) : bool :=
  match tk with AwaitLock _ _ _ _ => true | _ => false end.
(** [n] credits of 1 on [u], just received. *)
Definition credits (n : nat) (u : string) : list task :=
  repeat (Received Add (credit_request u)) n.

(** The event loop resumes the handlers at the positions [order] of the
    pool, one after the other. [None]: a handler could not run when its
    turn came. *)
Fixpoint schedule (order : list nat) (s : service) : option service :=
  match order with
  | [] => Some s
  | i :: order' =>
      match snd s !! i with
      | Some tk =>
          match advance tk (fst s) with
          | Some (tk', app') => schedule order' (app', <[i := tk']> (snd s))
          | None => None
          end
      | None => None
      end
  end.

(** Two credits of 1 on the account [a1]: just received; when both are in
    flight and the first holds the lock; when both have returned. *)
Definition two_credits : service := (idle_app [account 100 0], credits 2 "a1").

Definition two_credits_midway : service :=
  default two_credits (schedule [0; 1; 0]%nat two_credits).

Definition two_credits_done : service :=
  default two_credits (schedule [0; 1; 0; 0; 0; 0; 1; 1; 1; 1]%nat two_credits).

(** One credit of 1 on the account [a1] whose balance is the largest
    integer of the store: just received, and when it has returned. *)
Definition credit_at_bound : service :=
  (idle_app [account INT64_MAX 0], credits 1 "a1").

Definition credit_at_bound_done : service :=
  default credit_at_bound (schedule [0; 0; 0; 0]%nat credit_at_bound).

(** The body [{"addition": {"uuid": uuid}}]. *)
Definition status_request (uuid : string) : request_text :=
  Json (JDict [("addition", JDict [("uuid", JStr uuid)])]).

(** One round of settlement that the store serves, in the service. *)
Definition settle_round (s : service) : service :=
  (on_conn (fun c => snd (settle StoreOk c)) (fst s), snd s).

(** One credit of 1 on the account [a1], which has 30 on hold: the credit
    has read the row; a round of settlement has run since; the credit has
    then written and returned. *)
Definition held_credit : service := (idle_app [account 100 30], credits 1 "a1").

Definition held_credit_read : service :=
  default held_credit (schedule [0; 0; 0]%nat held_credit).

Definition held_credit_raced : service :=
  default held_credit (schedule [0; 0]%nat (settle_round held_credit_read)).

(** ** Further notions for the statements *)

(** The value of an integer column in a row. *)
Definition column_value (col : column) (r : user_row) : Z :=
  match col with
  | Cbalance => row_balance r
  | Chold => row_hold r
  | Cstatus => row_status r
  end.

(** The value that [params] gives to [col], as a dictionary does. *)
Fixpoint param_get (params : list (column * Z)) (col : column) : option Z :=
  match params with
  | [] => None
  | (k, v) :: params' => if decide (k = col) then Some v else param_get params' col
  end.

(** The body of a response is the envelope of [make_response]: the four
    keys in order, [addition] an object, [description] empty, and [result]
    true exactly for the code 200. *)
Definition envelope (r : response) : Prop :=
  exists code addition,
    json_body r =
      JDict [("status", JInt code); ("result", JBool (code =? 200));
             ("addition", JDict addition); ("description", JDict [])].

(** What the connection executed since [c], when it executed nothing more
    than one [SELECT]. *)
Definition read_at_most (c c' : conn) : Prop :=
  users c' = users c /\
  (journal c' = journal c \/ exists u, journal c' = journal c ++ [Select u]).

(** What the service is asked to do, one thing after the other: a request
    on one of the routes, or a round of settlement that the store serves. *)
Inductive call :=
| Ping (t : request_text)
| Status (t : request_text)
| Credit (t : request_text)
| Reserve (t : request_text)
| Tick.

Definition serve (c : call) (app : App) : App :=
  match c with
  | Ping t => snd (handle_ping t app)
  | Status t => snd (handle_status t app)
  | Credit t => snd (handle_add t app)
  | Reserve t => snd (handle_subtract t app)
  | Tick => on_conn (fun c => snd (settle StoreOk c)) app
  end.

(** The calls are served in order, each to its end before the next. *)
Definition session (calls : list call) (app : App) : App :=
  fold_left (fun app c => serve c app) calls app.

(** Every hold is covered: [0 <= hold <= balance] in every row. *)
Definition covered (t : list user_row) : Prop :=
  Forall (fun r => 0 <= row_hold r <= row_balance r) t.

(** No two rows have the same uuid. *)
Definition unique_uuids (t : list user_row) : Prop :=
  NoDup (List.map row_uuid t).

(** The amount that a task carries is not negative, and neither is the
    hold that it is about to write. *)
Definition nonneg_task (tk : task) : Prop :=
  match tk with
  | AwaitLock _ _ v _ | AwaitSelect _ _ v _ => 0 <= v
  | AwaitUpdate _ _ _ params => Forall (fun kv => fst kv = Chold -> 0 <= snd kv) params
  | Received _ _ | AwaitCommit _ _ _ | Done _ => True
  end.

(** The locks of the entries of the registry were created before, and two
    uuids do not share a lock. *)
Definition entries_ok (app : App) : Prop :=
  (forall u l c, locked_rows app !! u = Some (l, c) -> (l < created app)%nat) /\
  (forall u u' l c c',
     locked_rows app !! u = Some (l, c) -> locked_rows app !! u' = Some (l, c') -> u = u').

(** What the update of one column writes and raises: line 49 with a
    dictionary of one key. *)
Definition attempt (kv : column * Z) : option (column * Z) * (exn + unit) :=
  if fits64 (snd kv) then (Some kv, inr tt) else (None, inl overflow_error).

(** What a credit or a reserve of [value] on the row found writes and
    answers: lines 139-143 and 176-183 as a function of the row. *)
Definition effect (o : op) (value : Z) (found : option user_row)
  : option (column * Z) * (exn + unit) :=
  match found with
  | None => (None, inl (Exn UserNotFound "uuid not found"))
  | Some row =>
      if py_bool (row_status row)
      then match o with
           | Add => attempt (Cbalance, row_balance row + value)
           | Subtract =>
               if row_hold row + value <=? row_balance row
               then attempt (Chold, row_hold row + value)
               else (None, inl (Exn OperationNotPossible "balance too low"))
           end
      else (None, inl (Exn OperationNotPossible "status is inactive"))
  end.

Definition write (u : string) (kv : option (column * Z)) (t : list user_row)
  : list user_row :=
  match kv with
  | Some kv => List.map (update_row u [kv]) t
  | None => t
  end.

(** What identifies an account and says whether it is active. *)
Definition identity (r : user_row) : string * string * Z :=
  (row_uuid r, row_name r, row_status r).

(** The update that a task is about to execute names the balance or the
    hold only. *)
Definition writes_amounts (tk : task) : Prop :=
  match tk with
  | AwaitUpdate _ _ _ params => Forall (fun kv => fst kv <> Cstatus) params
  | _ => True
  end.

(** Two requests on different uuids, one in flight on each: the first
    holds its lock, the second waits for its own. *)
Definition two_uuids : service :=
  (idle_app [account 100 0],
   [Received Add (credit_request "a1"); Received Add (credit_request "b2")]).

Definition two_uuids_midway : service :=
  default two_uuids (schedule [0; 1; 0]%nat two_uuids).

(** * Properties of the store operations *)

Lemma fits64_spec z : fits64 z = true <-> INT64_MIN <= z <= INT64_MAX.
Proof. unfold fits64. rewrite andb_true_iff, !Z.leb_le. reflexivity. Qed.

Lemma int64_range (c : int64) : INT64_MIN <= int64_val c <= INT64_MAX.
Proof. apply fits64_spec, Is_true_eq_true, int64_fits. Qed.

Lemma int64_eq (a b : int64) : int64_val a = int64_val b -> a = b.
Proof.
  destruct a as [x Hx], b as [y Hy]. simpl. intros ->. f_equal. apply proof_irrel.
Qed.

Lemma clamp64_range z : INT64_MIN <= clamp64 z <= INT64_MAX.
Proof. unfold clamp64, INT64_MIN, INT64_MAX. lia. Qed.

Lemma clamp64_fits z : fits64 z = true -> clamp64 z = z.
Proof. rewrite fits64_spec. unfold clamp64, INT64_MIN, INT64_MAX. lia. Qed.

Lemma store_val z : int64_val (store z) = clamp64 z.
Proof.
  unfold store.
  destruct (evidence (fits64 (clamp64 z))) as [H|] eqn:E; [reflexivity|].
  exfalso. pose proof (proj2 (fits64_spec (clamp64 z)) (clamp64_range z)) as Hf.
  revert E. generalize (fits64 (clamp64 z)) Hf. intros b ->. discriminate.
Qed.

Lemma store_fits z : fits64 z = true -> int64_val (store z) = z.
Proof. intros H. rewrite store_val. apply clamp64_fits, H. Qed.

Lemma row_balance_range r : INT64_MIN <= row_balance r <= INT64_MAX.
Proof. apply int64_range. Qed.

Lemma row_hold_range r : INT64_MIN <= row_hold r <= INT64_MAX.
Proof. apply int64_range. Qed.

(** Two rows with the same uuid, name and integers are the same row. *)
Lemma user_row_eq r r' :
  row_uuid r = row_uuid r' -> row_name r = row_name r' ->
  row_balance r = row_balance r' -> row_hold r = row_hold r' ->
  row_status r = row_status r' -> r = r'.
Proof.
  destruct r, r'. unfold row_balance, row_hold, row_status. simpl.
  intros -> -> Hb Hh Hs.
  apply int64_eq in Hb, Hh, Hs. congruence.
Qed.

Lemma set_balance_cells r v :
  row_balance (set_column r (Cbalance, v)) = clamp64 v /\
  row_hold (set_column r (Cbalance, v)) = row_hold r /\
  row_status (set_column r (Cbalance, v)) = row_status r.
Proof. unfold row_balance, row_hold, row_status. simpl. rewrite store_val. auto. Qed.

Lemma set_hold_cells r v :
  row_balance (set_column r (Chold, v)) = row_balance r /\
  row_hold (set_column r (Chold, v)) = clamp64 v /\
  row_status (set_column r (Chold, v)) = row_status r.
Proof. unfold row_balance, row_hold, row_status. simpl. rewrite store_val. auto. Qed.

Lemma set_status_cells r v :
  row_balance (set_column r (Cstatus, v)) = row_balance r /\
  row_hold (set_column r (Cstatus, v)) = row_hold r /\
  row_status (set_column r (Cstatus, v)) = clamp64 v.
Proof. unfold row_balance, row_hold, row_status. simpl. rewrite store_val. auto. Qed.

Lemma settle_row_cells r :
  row_balance (settle_row r) = clamp64 (row_balance r - row_hold r) /\
  row_hold (settle_row r) = 0 /\
  row_status (settle_row r) = row_status r.
Proof.
  unfold row_balance at 1, row_hold at 2, row_status at 1. simpl.
  rewrite !store_val. repeat split.
Qed.

(** A dictionary of one key is refused exactly when its value does not
    fit. *)
Lemma refused_one col v :
  refused [(col, v)] = if fits64 v then None else Some overflow_error.
Proof. unfold refused. simpl. destruct (fits64 v); reflexivity. Qed.

Lemma update_one_eq u col v c :
  update_user_data u [(col, v)] c =
    if fits64 v
    then (inr tt,
          {| users := List.map (update_row u [(col, v)]) (users c);
             journal := journal c ++ [Update u [(col, v)]; Commit] |})
    else (inl overflow_error, c).
Proof.
  unfold update_user_data. rewrite refused_one.
  destruct (fits64 v); [|reflexivity].
  unfold execute. simpl. rewrite <- app_assoc. reflexivity.
Qed.

Lemma has_uuid_set_column u r kv : has_uuid u (set_column r kv) = has_uuid u r.
Proof. destruct kv as [[] v]; reflexivity. Qed.

Lemma has_uuid_fold_set u params r :
  has_uuid u (fold_left set_column params r) = has_uuid u r.
Proof.
  revert r; induction params as [|kv params IH]; intros r; simpl; [reflexivity|].
  rewrite IH. apply has_uuid_set_column.
Qed.

Lemma has_uuid_update_row u u' params r :
  has_uuid u' (update_row u params r) = has_uuid u' r.
Proof.
  unfold update_row. destruct (has_uuid u r); [apply has_uuid_fold_set | reflexivity].
Qed.

(** After [UPDATE ... WHERE uuid=u], [SELECT ... WHERE uuid=u] finds the
    updated image of the row it found before. *)
Lemma fetchone_update u params t :
  fetchone (List.map (update_row u params) t) u
  = fold_left set_column params <$> fetchone t u.
Proof.
  unfold fetchone. induction t as [|r t IH]; simpl; [reflexivity|].
  rewrite has_uuid_update_row. destruct (has_uuid u r) eqn:E.
  - simpl. unfold update_row. rewrite E. reflexivity.
  - exact IH.
Qed.

(** and a [SELECT] on another uuid finds what it found before. *)
Lemma fetchone_update_ne u u' params t :
  u' <> u ->
  fetchone (List.map (update_row u params) t) u' = fetchone t u'.
Proof.
  intros Hne. unfold fetchone. induction t as [|r t IH]; simpl; [reflexivity|].
  rewrite has_uuid_update_row. destruct (has_uuid u' r) eqn:E.
  - unfold update_row. destruct (has_uuid u r) eqn:E'; [|reflexivity].
    unfold has_uuid in E, E'. apply String.eqb_eq in E, E'. congruence.
  - exact IH.
Qed.

Lemma update_row_frame col v u r :
  col <> Cstatus -> same_but col u r (update_row u [(col, v)] r).
Proof.
  intros Hcol. unfold update_row, same_but, has_uuid.
  destruct (String.eqb_spec (row_uuid r) u) as [E|E].
  - destruct col; simpl; repeat split; congruence.
  - repeat split; congruence.
Qed.

Lemma update_table_frame col v u t :
  col <> Cstatus -> Forall2 (same_but col u) t (List.map (update_row u [(col, v)]) t).
Proof.
  intros Hcol. induction t as [|r t IH]; simpl; constructor; auto using update_row_frame.
Qed.

(** * Properties of the handlers run without interleaving *)

Lemma parse_amount_request uuid amount :
  0 <= amount ->
  parse_amount (amount_request uuid (JInt amount)) = inr (JStr uuid, amount).
Proof.
  intros H. unfold parse_amount, amount_request. simpl.
  unfold assert_amount. simpl. apply Z.leb_le in H. rewrite H. reflexivity.
Qed.

(** An operation that finds its lock free runs its locked body on the
    connection, answers by the [except] clauses, and leaves the registry as
    [locked_rows_after] says; the set of locked locks is as before. *)
Lemma run_locked_free body uuid value app :
  lock_free uuid app ->
  run_locked body uuid value app =
    (on_exit (fst (body uuid value (app_conn app))),
     {| app_conn := snd (body uuid value (app_conn app));
        locked_rows := locked_rows_after uuid (locked_rows app);
        locked := locked app;
        created := S (created app) |}).
Proof.
  unfold lock_free, lock_of, run_locked, locked_rows_enter, locked_rows_after.
  intros Hfree.
  destruct (locked_rows app !! uuid) as [[l c]|] eqn:E; simpl in *.
  - rewrite bool_decide_eq_false_2 by assumption.
    unfold with_conn, acquire; simpl.
    destruct (body uuid value (app_conn app)) as [res c']; simpl.
    unfold finally_leave, locked_rows_leave, release; simpl.
    rewrite lookup_insert_eq.
    f_equal. f_equal.
    + destruct (Z.eqb_spec (c + 1) 1) as [E1|E1].
      * assert (c = 0) by lia; subst c. apply delete_insert_eq.
      * rewrite insert_insert_eq. replace (c + 1 - 1) with c by lia.
        rewrite insert_id by assumption.
        destruct c; [lia | reflexivity | reflexivity].
    + set_solver.
  - rewrite bool_decide_eq_false_2 by assumption.
    unfold with_conn, acquire; simpl.
    destruct (body uuid value (app_conn app)) as [res c']; simpl.
    unfold finally_leave, locked_rows_leave, release; simpl.
    rewrite lookup_insert_eq. simpl.
    f_equal. f_equal.
    + rewrite delete_insert_eq. apply delete_id. assumption.
    + set_solver.
Qed.

Lemma handle_add_request app id amount :
  0 <= amount -> lock_free id app ->
  handle_add (amount_request id (JInt amount)) app =
    (on_exit (fst (add_locked id amount (app_conn app))),
     {| app_conn := snd (add_locked id amount (app_conn app));
        locked_rows := locked_rows_after id (locked_rows app);
        locked := locked app;
        created := S (created app) |}).
Proof.
  intros Hnn Hfree. unfold handle_add.
  rewrite parse_amount_request by assumption.
  apply run_locked_free; assumption.
Qed.

Lemma handle_subtract_request app id amount :
  0 <= amount -> lock_free id app ->
  handle_subtract (amount_request id (JInt amount)) app =
    (on_exit (fst (subtract_locked id amount (app_conn app))),
     {| app_conn := snd (subtract_locked id amount (app_conn app));
        locked_rows := locked_rows_after id (locked_rows app);
        locked := locked app;
        created := S (created app) |}).
Proof.
  intros Hnn Hfree. unfold handle_subtract.
  rewrite parse_amount_request by assumption.
  apply run_locked_free; assumption.
Qed.

(** What the locked body of [handle_add] does, by cases on the row found. *)
Lemma add_locked_cases id amount c :
  add_locked id amount c =
    match fetchone (users c) id with
    | None =>
        (inl (Exn UserNotFound "uuid not found"), execute (Select id) c (users c))
    | Some row =>
        if py_bool (row_status row)
        then update_user_data id [(Cbalance, row_balance row + amount)]
               (execute (Select id) c (users c))
        else (inl (Exn OperationNotPossible "status is inactive"),
              execute (Select id) c (users c))
    end.
Proof.
  unfold add_locked, sbind, get_user_data_by_uuid.
  destruct (fetchone (users c) id) as [row|]; [|reflexivity]. simpl.
  destruct (py_bool (row_status row)); reflexivity.
Qed.

(** What the locked body of [handle_subtract] does. *)
Lemma subtract_locked_cases id amount c :
  subtract_locked id amount c =
    match fetchone (users c) id with
    | None =>
        (inl (Exn UserNotFound "uuid not found"), execute (Select id) c (users c))
    | Some row =>
        if py_bool (row_status row)
        then if row_hold row + amount <=? row_balance row
             then update_user_data id [(Chold, row_hold row + amount)]
                    (execute (Select id) c (users c))
             else (inl (Exn OperationNotPossible "balance too low"),
                   execute (Select id) c (users c))
        else (inl (Exn OperationNotPossible "status is inactive"),
              execute (Select id) c (users c))
    end.
Proof.
  unfold subtract_locked, sbind, get_user_data_by_uuid, subtraction_is_possible.
  destruct (fetchone (users c) id) as [row|]; [|reflexivity]. simpl.
  destruct (py_bool (row_status row)); [|reflexivity]. simpl.
  destruct (row_hold row + amount <=? row_balance row); reflexivity.
Qed.

(** C1. On an account with [active = true] and for an amount [>= 0],
    [reserve] ([handle_subtract]) succeeds exactly when
    [hold + amount <= balance] held before; then the hold of the account is
    [hold + amount] and its balance is as before; otherwise the answer is
    that of [OperationNotPossible('balance too low')] and the table is
    unchanged. *)
Theorem reserve_spec app id amount row :
  0 <= amount ->
  lock_free id app ->
  fetchone (table app) id = Some row ->
  py_bool (row_status row) = true ->
  let (out, app') := handle_subtract (amount_request id (JInt amount)) app in
  (out = Returned ok_response <-> row_hold row + amount <= row_balance row) /\
  (row_hold row + amount <= row_balance row ->
     exists row', fetchone (table app') id = Some row' /\
                  row_hold row' = row_hold row + amount /\
                  row_balance row' = row_balance row) /\
  (~ row_hold row + amount <= row_balance row ->
     fst (subtract_locked id amount (app_conn app))
       = inl (Exn OperationNotPossible "balance too low") /\
     out = Returned (not_possible_response "balance too low") /\
     table app' = table app).
Proof.
  intros Hnn Hfree Hrow Hact.
  rewrite handle_subtract_request by assumption.
  rewrite subtract_locked_cases. unfold table in *. rewrite Hrow, Hact.
  destruct (Z.leb_spec (row_hold row + amount) (row_balance row)) as [Hle|Hgt].
  - assert (fits64 (row_hold row + amount) = true) as Hfits.
    { apply fits64_spec. pose proof (row_balance_range row).
      pose proof (row_hold_range row). lia. }
    rewrite update_one_eq, Hfits. simpl.
    split; [split; [intros _; exact Hle | reflexivity]|].
    split; [|intros Hn; contradiction].
    intros _. rewrite fetchone_update, Hrow. simpl.
    eexists; split; [reflexivity|].
    destruct (set_hold_cells row (row_hold row + amount)) as (Hb & Hh & _).
    rewrite Hb, Hh, clamp64_fits by exact Hfits. split; reflexivity.
  - simpl. split; [split; [discriminate | lia]|].
    split; [lia|]. intros _. repeat split; reflexivity.
Qed.

Lemma idle_lock_free u t : lock_free u (idle_app t).
Proof. unfold lock_free, lock_of; simpl. apply not_elem_of_empty. Qed.

Lemma reserve_spec_witness :
  fst (handle_subtract (amount_request "a1" (JInt 20)) (idle_app [account 100 90]))
    = Returned (not_possible_response "balance too low")
  /\ table (snd (handle_subtract (amount_request "a1" (JInt 20)) (idle_app [account 100 90])))
     = [account 100 90].
Proof.
  pose proof (reserve_spec (idle_app [account 100 90]) "a1" 20 (account 100 90)) as H.
  destruct (handle_subtract (amount_request "a1" (JInt 20)) (idle_app [account 100 90]))
    as [out app'].
  destruct H as (_ & _ & H).
  - lia.
  - apply idle_lock_free.
  - reflexivity.
  - reflexivity.
  - simpl. destruct H as (_ & H1 & H2); [|split; assumption].
    change (row_hold (account 100 90)) with 90.
    change (row_balance (account 100 90)) with 100. lia.
Defined.

(** C4 fails at this input: a credit of [2^63] on [{balance:100, hold:0}]
    passes the checks of the handler, and the driver refuses to bind the
    new balance: the handler ends with an uncaught [OverflowError] after
    its [SELECT], returns no response, and the balance is still 100. *)
Lemma credit_beyond_64_bits :
  fits64 (100 + 9223372036854775808) = false /\
  handle_add (amount_request "a1" (JInt 9223372036854775808)) (idle_app [account 100 0])
  = (Uncaught overflow_error,
     {| app_conn := {| users := [account 100 0]; journal := [Select "a1"] |};
        locked_rows := ∅; locked := ∅; created := 1 |}).
Proof.
  split; [reflexivity|].
  rewrite handle_add_request by (try apply idle_lock_free; lia).
  rewrite add_locked_cases. unfold locked_rows_after. simpl.
  rewrite lookup_empty. reflexivity.
Qed.

(** C4, amended. For an amount [>= 0], [credit] ([handle_add]) fails with
    [UserNotFound] when no row has the uuid and with
    [OperationNotPossible('status is inactive')] when the account is not
    active. Otherwise, when [balance + amount] fits in 64 bits, it writes
    [balance + amount] as the balance of the account, keeps its hold, and
    commits; when it does not fit, the handler ends with the uncaught
    [OverflowError] of the driver, and has read the row and written
    nothing. *)
Theorem credit_spec app id amount :
  0 <= amount ->
  lock_free id app ->
  let (out, app') := handle_add (amount_request id (JInt amount)) app in
  match fetchone (table app) id with
  | None =>
      fst (add_locked id amount (app_conn app))
        = inl (Exn UserNotFound "uuid not found") /\
      out = Returned not_found_response /\
      table app' = table app
  | Some row =>
      if py_bool (row_status row)
      then if fits64 (row_balance row + amount)
           then out = Returned ok_response /\
                (exists row', fetchone (table app') id = Some row' /\
                              row_balance row' = row_balance row + amount /\
                              row_hold row' = row_hold row) /\
                journal (app_conn app') =
                  (journal (app_conn app) ++
                     [Select id; Update id [(Cbalance, row_balance row + amount)];
                      Commit])%list
           else out = Uncaught overflow_error /\
                table app' = table app /\
                journal (app_conn app') = (journal (app_conn app) ++ [Select id])%list
      else fst (add_locked id amount (app_conn app))
             = inl (Exn OperationNotPossible "status is inactive") /\
           out = Returned (not_possible_response "status is inactive") /\
           table app' = table app
  end.
Proof.
  intros Hnn Hfree.
  rewrite handle_add_request by assumption.
  rewrite add_locked_cases. unfold table.
  destruct (fetchone (users (app_conn app)) id) as [row|] eqn:Hrow.
  - destruct (py_bool (row_status row)); simpl.
    + rewrite update_one_eq.
      destruct (fits64 (row_balance row + amount)) eqn:Hfits; simpl.
      * split; [reflexivity|]. split.
        -- rewrite fetchone_update, Hrow. simpl.
           eexists; split; [reflexivity|].
           destruct (set_balance_cells row (row_balance row + amount)) as (Hb & Hh & _).
           rewrite Hb, Hh, clamp64_fits by exact Hfits. split; reflexivity.
        -- rewrite <- !app_assoc. reflexivity.
      * repeat split; reflexivity.
    + repeat split; reflexivity.
  - simpl. repeat split; reflexivity.
Qed.

Lemma credit_spec_witness :
  fst (handle_add (amount_request "a1" (JInt 50)) (idle_app [account 100 0]))
    = Returned ok_response
  /\ (row_balance <$>
       fetchone (table (snd (handle_add (amount_request "a1" (JInt 50))
                               (idle_app [account 100 0])))) "a1")
     = Some 150.
Proof.
  pose proof (credit_spec (idle_app [account 100 0]) "a1" 50) as H.
  destruct (handle_add (amount_request "a1" (JInt 50)) (idle_app [account 100 0]))
    as [out app'].
  change (fetchone (table (idle_app [account 100 0])) "a1")
    with (Some (account 100 0)) in H.
  change (py_bool (row_status (account 100 0))) with true in H.
  change (fits64 (row_balance (account 100 0) + 50)) with true in H.
  cbv iota in H. destruct H as (H1 & (row' & H2 & H3 & _) & _).
  - lia.
  - apply idle_lock_free.
  - simpl. rewrite H2. simpl. split; [assumption | f_equal; exact H3].
Defined.

Lemma on_exit_ok res : on_exit res = Returned ok_response -> res = inr tt.
Proof.
  destruct res as [e|[]]; [|reflexivity]. unfold on_exit.
  destruct (except_ [UserNotFound] e); [discriminate|].
  destruct (except_ [OperationNotPossible] e); discriminate.
Qed.

Lemma run_locked_ok body uuid value app app' :
  run_locked body uuid value app = (Returned ok_response, app') ->
  fst (body uuid value (app_conn app)) = inr tt /\
  app_conn app' = snd (body uuid value (app_conn app)).
Proof.
  unfold run_locked, locked_rows_enter.
  destruct (default (created app, 0) (locked_rows app !! uuid)) as [l c]; simpl.
  destruct (bool_decide (l ∈ locked app)); [discriminate|].
  unfold with_conn, acquire; simpl.
  destruct (body uuid value (app_conn app)) as [res c']; simpl.
  unfold finally_leave, locked_rows_leave, release; simpl.
  rewrite lookup_insert_eq. intros H. injection H as Hout Happ.
  apply on_exit_ok in Hout. subst. split; reflexivity.
Qed.

(** C7. A credit or a reserve that names the uuid [id] and is answered 200
    has read the row of [id] and executed one [UPDATE] and its [commit]:
    the [UPDATE] is on [id] and names the one column of the operation
    ([balance] for credit, [hold] for reserve) with the value computed from
    that row, which the row of [id] then has in that column; in every row
    the uuid, the name, the status and the other one of balance and hold
    are as before, and a row of a uuid other than [id] is as before
    altogether. *)
Theorem successful_operation_frame o t id value app app' :
  names t = Some (id, value) ->
  handler o t app = (Returned ok_response, app') ->
  exists row row',
    fetchone (table app) id = Some row /\
    journal (app_conn app') =
      (journal (app_conn app) ++
         [Select id; Update id [(written_column o, written_value o row value)];
          Commit])%list /\
    fetchone (table app') id = Some row' /\
    column_value (written_column o) row' = written_value o row value /\
    Forall2 (same_but (written_column o) id) (table app) (table app').
Proof.
  intros Hnames H.
  assert (parse_amount t = inr (JStr id, value)) as Hparse.
  { unfold names in Hnames. destruct (parse_amount t) as [e|[[] v]]; try discriminate.
    injection Hnames as -> ->. reflexivity. }
  assert (run_locked (locked_body o) id value app = (Returned ok_response, app')) as Hrun.
  { destruct o; simpl in *; unfold handle_add, handle_subtract in H;
      rewrite Hparse in H; exact H. }
  clear H. apply run_locked_ok in Hrun as [Hres Hconn].
  unfold table. rewrite Hconn. clear Hconn.
  destruct o; simpl in *.
  - rewrite add_locked_cases in *.
    destruct (fetchone (users (app_conn app)) id) as [row|] eqn:Hrow; [|discriminate].
    destruct (py_bool (row_status row)); [|discriminate].
    rewrite update_one_eq in *.
    destruct (fits64 (row_balance row + value)) eqn:Hfits; [|discriminate].
    exists row, (set_column row (Cbalance, row_balance row + value)).
    cbn [fst snd users journal execute]. rewrite <- !app_assoc.
    split; [reflexivity|]. split; [reflexivity|].
    split; [rewrite fetchone_update, Hrow; reflexivity|].
    split; [|apply update_table_frame; discriminate].
    destruct (set_balance_cells row (row_balance row + value)) as (Hb & _).
    cbn [column_value]. rewrite Hb. apply clamp64_fits, Hfits.
  - rewrite subtract_locked_cases in *.
    destruct (fetchone (users (app_conn app)) id) as [row|] eqn:Hrow; [|discriminate].
    destruct (py_bool (row_status row)); [|discriminate].
    destruct (row_hold row + value <=? row_balance row); [|discriminate].
    rewrite update_one_eq in *.
    destruct (fits64 (row_hold row + value)) eqn:Hfits; [|discriminate].
    exists row, (set_column row (Chold, row_hold row + value)).
    cbn [fst snd users journal execute]. rewrite <- !app_assoc.
    split; [reflexivity|]. split; [reflexivity|].
    split; [rewrite fetchone_update, Hrow; reflexivity|].
    split; [|apply update_table_frame; discriminate].
    destruct (set_hold_cells row (row_hold row + value)) as (_ & Hh & _).
    cbn [column_value]. rewrite Hh. apply clamp64_fits, Hfits.
Qed.

Lemma successful_operation_frame_witness :
  exists row row',
    fetchone [account 150 0] "a1" = Some row /\
    journal (app_conn (snd (handle_subtract (amount_request "a1" (JInt 30))
                              (idle_app [account 150 0])))) =
      [Select "a1"; Update "a1" [(Chold, written_value Subtract row 30)]; Commit] /\
    fetchone (table (snd (handle_subtract (amount_request "a1" (JInt 30))
                            (idle_app [account 150 0])))) "a1" = Some row' /\
    column_value Chold row' = written_value Subtract row 30 /\
    Forall2 (same_but Chold "a1") [account 150 0]
      (table (snd (handle_subtract (amount_request "a1" (JInt 30))
                     (idle_app [account 150 0])))).
Proof.
  exact (successful_operation_frame Subtract (amount_request "a1" (JInt 30)) "a1" 30
           (idle_app [account 150 0])
           (snd (handle_subtract (amount_request "a1" (JInt 30))
                   (idle_app [account 150 0])))
           eq_refl eq_refl).
Defined.

(** ** The boundary checks *)

(** X4. When the body is an object whose [addition] is an object with a
    [uuid], and the [value] is missing, or is neither an integer nor a
    boolean, or is negative, both handlers answer 400 and leave the
    application, connection included, as it was. *)
Lemma bad_value_rejected o top addition u app :
  dict_get top "addition" = Some (JDict addition) ->
  dict_get addition "uuid" = Some u ->
  match dict_get addition "value" with
  | None => True
  | Some value =>
      match as_int value with
      | None => True
      | Some z => z < 0
      end
  end ->
  handler o (Json (JDict top)) app = (Returned bad_request_response, app).
Proof.
  intros Hadd Huuid Hvalue.
  assert (exists e, parse_amount (Json (JDict top)) = inl e /\
                    (exn_class_of e = KeyError \/ exn_class_of e = AssertionError))
    as (e & He & Hclass).
  { unfold parse_amount; simpl. rewrite Hadd; simpl. rewrite Huuid; simpl.
    destruct (dict_get addition "value") as [value|]; simpl; [|eauto].
    unfold assert_amount. destruct (as_int value) as [z|]; simpl; [|eauto].
    destruct (Z.leb_spec 0 z); [lia | eauto]. }
  destruct o; simpl; unfold handle_add, handle_subtract; rewrite He;
    unfold except_; destruct Hclass as [-> | ->]; reflexivity.
Qed.

(** C8, at the inputs where the code departs from it. A JSON [true] passes
    [isinstance(value, int)]: the request is taken as a credit of 1, the
    store is read and written, and the answer is 200. A body whose
    [addition] is [null] has no [value]: the subscript raises [TypeError],
    which the [except] clause does not list, so no 400 is returned. *)
Theorem boolean_value_accepted :
  handle_add (amount_request "a1" (JBool true)) (idle_app [account 100 0])
  = (Returned ok_response,
     {| app_conn := {| users := [account 101 0];
                       journal := [Select "a1"; Update "a1" [(Cbalance, 101)]; Commit] |};
        locked_rows := ∅; locked := ∅; created := 1 |})
  /\ fst (handle_add (Json (JDict [("addition", JNull)])) (idle_app [account 100 0]))
     = Uncaught (Exn TypeError "object cannot be subscripted by str")
  /\ fst (handle_subtract (Json (JDict [("addition", JNull)])) (idle_app [account 100 0]))
     = Uncaught (Exn TypeError "object cannot be subscripted by str").
Proof.
  split; [|split; reflexivity].
  unfold handle_add.
  change (parse_amount (amount_request "a1" (JBool true)))
    with (inr (JStr "a1", 1) : exn + json * Z).
  cbv beta iota.
  rewrite run_locked_free by apply idle_lock_free.
  rewrite add_locked_cases. unfold locked_rows_after. simpl.
  rewrite lookup_empty. reflexivity.
Qed.

(** C10. A body that is [null], and a body whose [addition] is a number,
    are valid JSON; on each, [handle_status], [handle_add] and
    [handle_subtract] end in an uncaught [TypeError], which none of their
    [except] clauses lists, and return no response. *)
Theorem non_object_body_raises app :
  let e := Exn TypeError "object cannot be subscripted by str" in
  except_ [KeyError; JSONDecodeError] e = false /\
  except_ [KeyError; JSONDecodeError; AssertionError] e = false /\
  handle_status (Json JNull) app = (Uncaught e, app) /\
  handle_add (Json JNull) app = (Uncaught e, app) /\
  handle_subtract (Json JNull) app = (Uncaught e, app) /\
  handle_status (Json (JDict [("addition", JInt 7)])) app = (Uncaught e, app) /\
  handle_add (Json (JDict [("addition", JInt 7)])) app = (Uncaught e, app) /\
  handle_subtract (Json (JDict [("addition", JInt 7)])) app = (Uncaught e, app).
Proof. repeat split; reflexivity. Qed.

(** ** Responses and the transport status *)

Lemma make_response_sent status result addition description :
  In status [200; 400; 403; 404] ->
  sent_as_200 (make_response status result addition description).
Proof. intros H. split; [reflexivity|]. exists status. split; [reflexivity | exact H]. Qed.

(** The handler returns what [make_response] made with one of the four
    codes. *)
Ltac made_by_make_response :=
  intros [= <- _] || intros [= <-];
  apply make_response_sent; simpl; tauto.

Lemma on_exit_sent res r : on_exit res = Returned r -> sent_as_200 r.
Proof.
  unfold on_exit. destruct res as [e|[]].
  - destruct (except_ [UserNotFound] e); [made_by_make_response|].
    destruct (except_ [OperationNotPossible] e); [|discriminate].
    made_by_make_response.
  - made_by_make_response.
Qed.

Lemma run_locked_sent body uuid value app r app' :
  run_locked body uuid value app = (Returned r, app') -> sent_as_200 r.
Proof.
  unfold run_locked.
  destruct (locked_rows_enter uuid app) as [l app1].
  destruct (bool_decide (l ∈ locked app1)); [discriminate|].
  destruct (with_conn (body uuid value) (acquire l app1)) as [res app2].
  unfold finally_leave.
  destruct (locked_rows_leave uuid (release l app2)); [|discriminate].
  intros [= H _]. eapply on_exit_sent; eassumption.
Qed.

(** C9. Whatever the route, the request and the state of the application,
    a response that the handler returns is sent with transport status 200,
    the failure answers included: the code 200, 400, 403 or 404 is the
    integer [status] field of the JSON body only. *)
Theorem responses_sent_with_200 path h t app r app' :
  In (path, h) routes ->
  h t app = (Returned r, app') ->
  sent_as_200 r.
Proof.
  intros Hroute.
  simpl in Hroute.
  destruct Hroute as [[= _ <-]|[[= _ <-]|[[= _ <-]|[[= _ <-]|[]]]]].
  - unfold handle_ping. made_by_make_response.
  - unfold handle_status.
    destruct (parse_status t) as [e|u].
    + destruct (except_ _ e); [|discriminate]. made_by_make_response.
    + destruct u; try discriminate.
      destruct (with_conn (get_user_data_by_uuid s) app) as [[e|ud] app1].
      * destruct (except_ _ e); [|discriminate]. made_by_make_response.
      * made_by_make_response.
  - unfold handle_add.
    destruct (parse_amount t) as [e|[u value]].
    + destruct (except_ _ e); [|discriminate]. made_by_make_response.
    + destruct u; try discriminate. apply run_locked_sent.
  - unfold handle_subtract.
    destruct (parse_amount t) as [e|[u value]].
    + destruct (except_ _ e); [|discriminate]. made_by_make_response.
    + destruct u; try discriminate. apply run_locked_sent.
Qed.

Lemma responses_sent_with_200_witness :
  sent_as_200 not_found_response /\
  reported_status not_found_response = Some (JInt 404).
Proof.
  split; [|reflexivity].
  apply (responses_sent_with_200 "/api/status" handle_status
           (amount_request "zz" (JInt 1)) (idle_app [account 100 0])
           not_found_response
           {| app_conn := {| users := [account 100 0]; journal := [Select "zz"] |};
              locked_rows := ∅; locked := ∅; created := 0 |}).
  - simpl. tauto.
  - reflexivity.
Defined.

(** * The settlement loop *)

(** C5 fails at this input: in the row [{balance:-2^63, hold:1}] the
    difference [balance - hold] is [-2^63 - 1], which no integer cell
    holds; SQLite stores a floating-point number there, so that the balance
    after the round is not the integer [balance - hold]. *)
Lemma settle_beyond_64_bits :
  row_balance (account INT64_MIN 1) - row_hold (account INT64_MIN 1)
    = -9223372036854775809 /\
  fits64 (-9223372036854775809) = false /\
  row_balance (settle_row (account INT64_MIN 1)) <> -9223372036854775809.
Proof.
  split; [reflexivity|]. split; [reflexivity|].
  pose proof (row_balance_range (settle_row (account INT64_MIN 1))) as H.
  unfold INT64_MIN in H at 1. lia.
Qed.

(** C5, amended. One round of the loop that the store serves is one
    statement on the whole table, with its commit and with no [SELECT]:
    every row gets 0 as hold and keeps uuid, name and status, and every
    row in which [balance - hold] fits in 64 bits gets it as balance, from
    the row as it was; [{balance:150, hold:30}] becomes
    [{balance:120, hold:0}]. *)
Theorem settlement_tick_spec c :
  auto_update_hold [StoreOk] c =
    Sleeping {| users := List.map settle_row (users c);
                journal := (journal c ++ [UpdateAll; Commit])%list |} /\
  Forall2 (fun r r' => (fits64 (row_balance r - row_hold r) = true ->
                        row_balance r' = row_balance r - row_hold r) /\
                       row_hold r' = 0 /\
                       row_uuid r' = row_uuid r /\ row_name r' = row_name r /\
                       row_status r' = row_status r)
          (users c) (List.map settle_row (users c)) /\
  settle_row (account 150 30) = account 120 0.
Proof.
  split; [|split].
  - simpl. unfold execute; simpl. rewrite <- app_assoc. reflexivity.
  - induction (users c) as [|r t IH]; simpl; constructor; [|exact IH].
    split; [|repeat split].
    intros Hfits. unfold row_balance at 1. simpl. apply store_fits, Hfits.
  - reflexivity.
Qed.

Lemma auto_update_hold_served n rounds c :
  auto_update_hold (repeat StoreOk n ++ rounds) c
  = auto_update_hold rounds (settled n c).
Proof.
  revert c; induction n as [|n IH]; intros c; [reflexivity|].
  change (repeat StoreOk (S n) ++ rounds)%list
    with (StoreOk :: (repeat StoreOk n ++ rounds))%list.
  cbn [auto_update_hold]. unfold settle at 1. rewrite IH.
  f_equal. unfold settled.
  change (S n) with (1 + n)%nat. rewrite Nat.add_comm, Nat.iter_add. reflexivity.
Qed.

(** C6 fails at this input: the store refuses the first round and would
    serve the next ones; the exception leaves the loop and ends [main],
    and the table is the one of the start, so the later rounds never ran. *)
Lemma failed_tick_ends_main :
  main Started [ExecuteFails (Exn StoreError "database is locked"); StoreOk; StoreOk]
       {| users := [account 150 30]; journal := [] |}
  = Ended (Exn StoreError "database is locked")
  /\ auto_update_hold
       [ExecuteFails (Exn StoreError "database is locked"); StoreOk; StoreOk]
       {| users := [account 150 30]; journal := [] |}
     = Raised (Exn StoreError "database is locked")
              {| users := [account 150 30]; journal := [] |}.
Proof. split; reflexivity. Qed.

(** C6, amended. After any number of rounds that the store served, a round
    in which [conn.execute] or [conn.commit] raises ends the loop at once:
    the exception is not caught, whatever rounds would follow are not run,
    and [main], once started, ends with that exception. *)
Theorem failed_tick_leaves_loop n e later c :
  auto_update_hold (repeat StoreOk n ++ ExecuteFails e :: later) c
    = Raised e (settled n c) /\
  main Started (repeat StoreOk n ++ ExecuteFails e :: later) c = Ended e /\
  auto_update_hold (repeat StoreOk n ++ CommitFails e :: later) c
    = Raised e (execute UpdateAll (settled n c)
                  (List.map settle_row (users (settled n c)))) /\
  main Started (repeat StoreOk n ++ CommitFails e :: later) c = Ended e.
Proof.
  unfold main. rewrite !auto_update_hold_served. repeat split; reflexivity.
Qed.

(** * The handlers, interleaved *)

Lemma count_app p a b : count p (a ++ b) = (count p a + count p b)%nat.
Proof. unfold count. rewrite List.filter_app, length_app. reflexivity. Qed.

Lemma count_cons p x l :
  count p (x :: l) = ((if p x then 1 else 0) + count p l)%nat.
Proof. unfold count. simpl. destruct (p x); reflexivity. Qed.

Lemma count_middle p a x b :
  count p (a ++ x :: b) = (count p a + (if p x then 1 else 0) + count p b)%nat.
Proof. rewrite count_app, count_cons. lia. Qed.

Lemma count_le p q l :
  (forall x, p x = true -> q x = true) -> (count p l <= count q l)%nat.
Proof.
  intros H. induction l as [|x l IH]; [reflexivity|].
  rewrite !count_cons. specialize (H x).
  destruct (p x); [rewrite H by reflexivity | destruct (q x)]; lia.
Qed.

Lemma count_zero_Forall p l :
  count p l = 0%nat <-> Forall (fun x => p x = false) l.
Proof.
  induction l as [|x l IH]; [split; [constructor | reflexivity]|].
  rewrite count_cons, Forall_cons. destruct (p x); split.
  - discriminate.
  - intros [? _]; discriminate.
  - intros H. split; [reflexivity | apply IH; lia].
  - intros [_ H]. apply IH in H. lia.
Qed.

Lemma with_conn_eq {A} (m : Store A) app :
  with_conn m app =
    (fst (m (app_conn app)), on_conn (fun _ => snd (m (app_conn app))) app).
Proof. unfold with_conn, on_conn. destruct (m (app_conn app)); reflexivity. Qed.

Lemma on_key_true u tk : task_key tk = Some u -> on_key u tk = true.
Proof. intros H. unfold on_key. apply bool_decide_eq_true_2, H. Qed.

Lemma on_key_false u tk : task_key tk <> Some u -> on_key u tk = false.
Proof. intros H. unfold on_key. apply bool_decide_eq_false_2, H. Qed.

Lemma on_key_other_false_inv u l tk :
  task_key tk = Some u -> on_key_other u l tk = false -> task_lock tk = Some l.
Proof.
  intros Hk. unfold on_key_other. rewrite (on_key_true _ _ Hk). simpl.
  intros H. apply negb_false_iff, bool_decide_eq_true_1 in H. exact H.
Qed.

Lemma on_key_other_off u l tk : task_key tk <> Some u -> on_key_other u l tk = false.
Proof. intros H. unfold on_key_other. rewrite on_key_false by exact H. reflexivity. Qed.

Lemma on_key_other_same u l tk : task_lock tk = Some l -> on_key_other u l tk = false.
Proof.
  intros H. unfold on_key_other. rewrite (bool_decide_eq_true_2 _ H).
  apply andb_false_r.
Qed.

Lemma holding_true l tk : held_lock tk = Some l -> holding l tk = true.
Proof. intros H. unfold holding. apply bool_decide_eq_true_2, H. Qed.

Lemma holding_false l tk : held_lock tk <> Some l -> holding l tk = false.
Proof. intros H. unfold holding. apply bool_decide_eq_false_2, H. Qed.

(** In a service that satisfies the two invariants, a handler that leaves
    finds its entry in [locked_rows] (the [finally] block raises no
    [KeyError]), and the invariants hold when it has left. *)
Lemma leave_preserves uuid l res app before tk after :
  task_key tk = Some uuid -> task_lock tk = Some l -> held_lock tk = Some l ->
  registry_ok (app, before ++ tk :: after) ->
  locks_ok (app, before ++ tk :: after) ->
  exists app',
    leave uuid l res app = (Done (on_exit res), app') /\
    app_conn app' = app_conn app /\
    registry_ok (app', before ++ Done (on_exit res) :: after) /\
    locks_ok (app', before ++ Done (on_exit res) :: after) /\
    exists c, locked_rows app !! uuid = Some (l, c) /\
              locked_rows app' !! uuid = if c =? 1 then None else Some (l, c - 1).
Proof.
  intros Hk Hl Hh HR HL.
  pose proof (HR uuid) as HRu. simpl in HRu. unfold in_flight in HRu.
  rewrite !count_middle, (on_key_true _ _ Hk) in HRu. cbv iota in HRu.
  destruct (locked_rows app !! uuid) as [[l' c]|] eqn:E; [|exfalso; lia].
  destruct HRu as (Hc & Hpos & Hother).
  assert (l' = l) as ->.
  { rewrite count_middle in Hother.
    destruct (on_key_other uuid l' tk) eqn:Eo; [lia|].
    apply on_key_other_false_inv in Eo; [congruence | exact Hk]. }
  rewrite count_middle, (on_key_other_same _ _ _ Hl) in Hother.
  unfold leave, finally_leave, locked_rows_leave, release; simpl. rewrite E.
  eexists. split; [reflexivity|]. split; [reflexivity|].
  split; [|split]; cycle 2.
  { exists c. split; [reflexivity|]. simpl.
    destruct (c =? 1); [apply lookup_delete_eq | apply lookup_insert_eq]. }
  - intros u. simpl. unfold in_flight. rewrite count_middle.
    change (on_key u (Done (on_exit res))) with false.
    destruct (decide (u = uuid)) as [->|Hne].
    + destruct (Z.eqb_spec c 1) as [Hc1|Hc1].
      * rewrite lookup_delete_eq. lia.
      * rewrite lookup_insert_eq. rewrite count_middle.
        change (on_key_other uuid l (Done (on_exit res))) with false.
        repeat split; lia.
    + specialize (HR u). simpl in HR. unfold in_flight in HR.
      assert ((if c =? 1 then delete uuid (locked_rows app)
               else <[uuid:=(l, c - 1)]> (locked_rows app)) !! u
              = locked_rows app !! u) as ->.
      { destruct (c =? 1); [apply lookup_delete_ne | apply lookup_insert_ne]; congruence. }
      destruct (locked_rows app !! u) as [[l0 c0]|];
        rewrite ?count_middle in *;
        rewrite ?(on_key_false u tk), ?(on_key_other_off u) in HR by congruence;
        exact HR.
  - intros l0. specialize (HL l0). simpl in *. rewrite count_middle in *.
    change (holding l0 (Done (on_exit res))) with false.
    destruct (decide (l0 = l)) as [->|Hne].
    + rewrite (holding_true _ _ Hh) in HL.
      rewrite bool_decide_eq_false_2 by set_solver.
      destruct (bool_decide (l ∈ locked app)); lia.
    + rewrite (holding_false l0 tk) in HL by congruence.
      rewrite (bool_decide_ext (l0 ∈ locked app ∖ {[l]}) (l0 ∈ locked app))
        by set_solver.
      exact HL.
Qed.

(** A handler that enters the registry keeps the invariants: it takes the
    lock of the entry when there is one, and a new lock when no handler is
    in flight on the uuid. *)
Lemma enter_preserves o uuid value app before tk after :
  task_key tk = None -> held_lock tk = None ->
  registry_ok (app, before ++ tk :: after) ->
  locks_ok (app, before ++ tk :: after) ->
  registry_ok (snd (locked_rows_enter uuid app),
               before ++ AwaitLock o uuid value (fst (locked_rows_enter uuid app)) :: after) /\
  locks_ok (snd (locked_rows_enter uuid app),
            before ++ AwaitLock o uuid value (fst (locked_rows_enter uuid app)) :: after).
Proof.
  intros Hk Hh HR HL. unfold locked_rows_enter. split.
  - intros u. specialize (HR u). simpl in *. unfold in_flight in *.
    destruct (decide (u = uuid)) as [->|Hne].
    + destruct (locked_rows app !! uuid) as [[l c]|] eqn:E; simpl;
        rewrite lookup_insert_eq; rewrite !count_middle in *;
        rewrite (on_key_true uuid (AwaitLock _ _ _ _)) by reflexivity;
        rewrite (on_key_other_same uuid _ (AwaitLock _ _ _ _)) by reflexivity;
        rewrite (on_key_false uuid tk) in HR by congruence.
      * rewrite (on_key_other_off uuid l tk) in HR by congruence.
        destruct HR as (Hc & Hpos & Hother). repeat split; lia.
      * pose proof (count_le (on_key_other uuid (created app)) (on_key uuid) before) as H1.
        pose proof (count_le (on_key_other uuid (created app)) (on_key uuid) after) as H2.
        assert (forall x, on_key_other uuid (created app) x = true -> on_key uuid x = true) as Himp.
        { intros x Hx. unfold on_key_other in Hx. apply andb_true_iff in Hx. tauto. }
        specialize (H1 Himp). specialize (H2 Himp). repeat split; lia.
    + assert (forall e, <[uuid:=e]> (locked_rows app) !! u = locked_rows app !! u) as Hlk.
      { intros e. apply lookup_insert_ne. congruence. }
      destruct (default (created app, 0) (locked_rows app !! uuid)) as [l c]; simpl.
      rewrite Hlk.
      destruct (locked_rows app !! u) as [[l0 c0]|];
        rewrite ?count_middle in *;
        rewrite ?(on_key_false u tk), ?(on_key_other_off u _ tk) in HR by congruence;
        rewrite ?(on_key_false u (AwaitLock _ _ _ _)),
                ?(on_key_other_off u _ (AwaitLock _ _ _ _)) by (simpl; congruence);
        exact HR.
  - intros l0. specialize (HL l0). simpl in *.
    destruct (default (created app, 0) (locked_rows app !! uuid)) as [l c]; simpl.
    rewrite count_middle in *.
    rewrite (holding_false l0 tk) in HL by congruence.
    rewrite (holding_false l0 (AwaitLock _ _ _ _)) by discriminate.
    exact HL.
Qed.

(** A change of state that keeps the uuid and the lock keeps the first
    invariant; one that keeps the held lock keeps the second. *)
Lemma retask_registry app app' before tk tk' after :
  task_key tk' = task_key tk -> task_lock tk' = task_lock tk ->
  locked_rows app' = locked_rows app ->
  registry_ok (app, before ++ tk :: after) ->
  registry_ok (app', before ++ tk' :: after).
Proof.
  intros Hk Hl Hrows HR.
  assert (forall u, on_key u tk' = on_key u tk) as E1.
  { intros u. unfold on_key. rewrite Hk. reflexivity. }
  assert (forall u l, on_key_other u l tk' = on_key_other u l tk) as E2.
  { intros u l. unfold on_key_other. rewrite E1, Hl. reflexivity. }
  intros u. specialize (HR u). simpl in *. unfold in_flight in *. rewrite Hrows.
  destruct (locked_rows app !! u) as [[l c]|];
    rewrite ?count_middle in *; rewrite ?E1, ?E2; exact HR.
Qed.

Lemma retask_locks app app' before tk tk' after :
  held_lock tk' = held_lock tk ->
  locked app' = locked app ->
  locks_ok (app, before ++ tk :: after) ->
  locks_ok (app', before ++ tk' :: after).
Proof.
  intros Hh Hlocked HL.
  assert (forall l, holding l tk' = holding l tk) as E3.
  { intros l. unfold holding. rewrite Hh. reflexivity. }
  intros l. specialize (HL l). simpl in *. rewrite Hlocked.
  rewrite count_middle in *. rewrite E3. exact HL.
Qed.

Lemma retask_preserves app app' before tk tk' after :
  task_key tk' = task_key tk -> task_lock tk' = task_lock tk ->
  held_lock tk' = held_lock tk ->
  locked_rows app' = locked_rows app -> locked app' = locked app ->
  registry_ok (app, before ++ tk :: after) ->
  locks_ok (app, before ++ tk :: after) ->
  registry_ok (app', before ++ tk' :: after) /\
  locks_ok (app', before ++ tk' :: after).
Proof.
  intros. split; [eapply retask_registry | eapply retask_locks]; eassumption.
Qed.

(** Taking a free lock keeps the invariants. *)
Lemma acquire_preserves o uuid value l app before after :
  l ∉ locked app ->
  registry_ok (app, before ++ AwaitLock o uuid value l :: after) ->
  locks_ok (app, before ++ AwaitLock o uuid value l :: after) ->
  registry_ok (acquire l app, before ++ AwaitSelect o uuid value l :: after) /\
  locks_ok (acquire l app, before ++ AwaitSelect o uuid value l :: after).
Proof.
  intros Hfree HR HL. split.
  - apply (retask_registry app _ before (AwaitLock o uuid value l));
      try reflexivity; assumption.
  - intros l0. specialize (HL l0). simpl in *. rewrite count_middle in *.
    rewrite (holding_false l0 (AwaitLock _ _ _ _)) in HL by discriminate.
    destruct (decide (l0 = l)) as [->|Hne].
    + rewrite (holding_true l (AwaitSelect _ _ _ _)) by reflexivity.
      rewrite bool_decide_eq_false_2 in HL by assumption.
      rewrite bool_decide_eq_true_2 by set_solver. lia.
    + rewrite (holding_false l0 (AwaitSelect _ _ _ _)) by (simpl; congruence).
      rewrite (bool_decide_ext (l0 ∈ {[l]} ∪ locked app) (l0 ∈ locked app))
        by set_solver.
      exact HL.
Qed.

(** Every step of a handler keeps the two invariants. *)
Lemma step_preserves s s' :
  registry_ok s -> locks_ok s -> step s s' -> registry_ok s' /\ locks_ok s'.
Proof.
  intros HR HL Hstep. destruct Hstep as [app app' before tk tk' after Hadv].
  destruct tk as [o t|o u v l|o u v l|o u l params|o u l|out]; simpl in Hadv.
  - injection Hadv as Harr. unfold arrive in Harr.
    destruct (parse_amount t) as [e|[uj v]].
    + destruct (except_ _ e); injection Harr as <- <-;
        apply (retask_preserves app _ _ (Received o t)); auto.
    + destruct uj;
        try (injection Harr as <- <-;
             apply (retask_preserves app _ _ (Received o t)); auto; fail).
      pose proof (enter_preserves o s v app before (Received o t) after
                    eq_refl eq_refl HR HL) as H.
      destruct (locked_rows_enter s app) as [l app1].
      injection Harr as <- <-. exact H.
  - destruct (bool_decide (l ∈ locked app)) eqn:E; [discriminate|].
    injection Hadv as <- <-. apply bool_decide_eq_false_1 in E.
    apply acquire_preserves; assumption.
  - injection Hadv as Hsel. unfold selected in Hsel. rewrite with_conn_eq in Hsel.
    simpl in Hsel.
    destruct (fst (get_user_data_by_uuid u (app_conn app))) as [e|ud].
    + edestruct (leave_preserves u l (inl e)
                   (on_conn (fun _ => snd (get_user_data_by_uuid u (app_conn app))) app)
                   before (AwaitSelect o u v l) after)
        as (app1 & Hleave & _ & HR1 & HL1 & _); try reflexivity; try assumption.
      rewrite Hleave in Hsel. injection Hsel as <- <-. split; assumption.
    + destruct (prepare o ud v) as [e|params].
      * edestruct (leave_preserves u l (inl e)
                     (on_conn (fun _ => snd (get_user_data_by_uuid u (app_conn app))) app)
                     before (AwaitSelect o u v l) after)
          as (app1 & Hleave & _ & HR1 & HL1 & _); try reflexivity; try assumption.
        rewrite Hleave in Hsel. injection Hsel as <- <-. split; assumption.
      * injection Hsel as <- <-.
        apply (retask_preserves app _ before (AwaitSelect o u v l));
          try reflexivity; assumption.
  - destruct (refused params) as [e|].
    + injection Hadv as Hleave0.
      edestruct (leave_preserves u l (inl e) app before (AwaitUpdate o u l params) after)
        as (app1 & Hleave & _ & HR1 & HL1 & _); try reflexivity; try assumption.
      rewrite Hleave in Hleave0. injection Hleave0 as <- <-. split; assumption.
    + injection Hadv as <- <-.
      apply (retask_preserves app _ before (AwaitUpdate o u l params));
        try reflexivity; assumption.
  - injection Hadv as Hleave0.
    edestruct (leave_preserves u l (inr tt)
                 (on_conn (fun c => execute Commit c (users c)) app)
                 before (AwaitCommit o u l) after)
      as (app1 & Hleave & _ & HR1 & HL1 & _); try reflexivity; try assumption.
    rewrite Hleave in Hleave0. injection Hleave0 as <- <-. split; assumption.
  - discriminate.
Qed.

Lemma idle_task_holds_nothing tk : task_key tk = None -> held_lock tk = None.
Proof. destruct tk; simpl; congruence. Qed.

Lemma quiescent_ok s : quiescent s -> registry_ok s /\ locks_ok s.
Proof.
  destruct s as [app ts]. intros (Hrows & Hlocked & Hidle). simpl in *. split.
  - intros u. simpl. rewrite Hrows, lookup_empty.
    apply count_zero_Forall. eapply Forall_impl; [exact Hidle|].
    intros tk Hk. apply on_key_false. congruence.
  - intros l. simpl. rewrite Hlocked.
    rewrite bool_decide_eq_false_2 by apply not_elem_of_empty.
    apply count_zero_Forall. eapply Forall_impl; [exact Hidle|].
    intros tk Hk. apply holding_false.
    rewrite (idle_task_holds_nothing _ Hk). discriminate.
Qed.

Lemma run_preserves s s' :
  registry_ok s -> locks_ok s -> run s s' -> registry_ok s' /\ locks_ok s'.
Proof.
  intros HR HL Hrun. destruct Hrun as [s1 s2 Hstep|app ts o t|app ts].
  - eapply step_preserves; eassumption.
  - split.
    + intros u. specialize (HR u). simpl in *. unfold in_flight in *.
      destruct (locked_rows app !! u) as [[l c]|];
        rewrite ?count_app, ?count_cons; unfold count at 2; simpl;
        rewrite ?Nat.add_0_r; exact HR.
    + intros l. specialize (HL l). simpl in *.
      rewrite count_app, count_cons. unfold count at 2; simpl.
      rewrite Nat.add_0_r. exact HL.
  - split; [exact HR | exact HL].
Qed.

Lemma reachable_ok s0 s :
  quiescent s0 -> rtc run s0 s -> registry_ok s /\ locks_ok s.
Proof.
  intros Hq Hrun. apply quiescent_ok in Hq.
  induction Hrun as [s|s1 s2 s3 Hrun _ IH]; [exact Hq|].
  apply IH. destruct Hq. eapply run_preserves; eassumption.
Qed.

Lemma count_le_or p q r l :
  (forall x, p x = true -> q x = true \/ r x = true) ->
  (count p l <= count q l + count r l)%nat.
Proof.
  intros H. induction l as [|x l IH]; [reflexivity|].
  rewrite !count_cons. specialize (H x).
  destruct (p x); [|lia].
  destruct H as [-> | ->]; [reflexivity | |]; destruct (q x), (r x); lia.
Qed.

(** Under the two invariants at most one handler is inside [async with]
    on a uuid. *)
Lemma one_in_critical s u :
  registry_ok s -> locks_ok s -> (count (in_critical u) (snd s) <= 1)%nat.
Proof.
  intros HR HL. specialize (HR u). unfold in_flight in HR.
  destruct (locked_rows (fst s) !! u) as [[l c]|].
  - destruct HR as (_ & _ & Hother). specialize (HL l).
    pose proof (count_le_or (in_critical u) (holding l) (on_key_other u l) (snd s)) as H.
    assert (count (holding l) (snd s) <= 1)%nat
      by (rewrite HL; destruct (bool_decide _); lia).
    enough (count (in_critical u) (snd s)
            <= count (holding l) (snd s) + count (on_key_other u l) (snd s))%nat by lia.
    apply H. intros tk Hc. unfold in_critical in Hc.
    apply andb_true_iff in Hc as [Hk Hh]. apply bool_decide_eq_true_1 in Hh.
    destruct Hh as [l' Hl'].
    unfold on_key_other, holding. rewrite Hk, Hl'. simpl.
    destruct (decide (l' = l)) as [->|Hne].
    + left. apply bool_decide_eq_true_2. reflexivity.
    + right. apply negb_true_iff, bool_decide_eq_false_2.
      destruct tk; simpl in *; congruence.
  - pose proof (count_le (in_critical u) (on_key u) (snd s)) as H.
    enough (count (in_critical u) (snd s) <= count (on_key u) (snd s))%nat by lia.
    apply H. intros tk Hc. unfold in_critical in Hc.
    apply andb_true_iff in Hc. tauto.
Qed.

Lemma same_lock_Forall u l ts :
  count (on_key_other u l) ts = 0%nat ->
  Forall (fun tk => task_key tk = Some u -> task_lock tk = Some l) ts.
Proof.
  intros H. apply count_zero_Forall in H. eapply Forall_impl; [exact H|].
  intros tk Hf Hk. eapply on_key_other_false_inv; eassumption.
Qed.

(** A step that ends a handler in flight is one of the exits through
    [finally]. *)
Lemma advance_done tk app out app' u :
  task_key tk = Some u ->
  advance tk app = Some (Done out, app') ->
  exists l res app1,
    held_lock tk = Some l /\ task_lock tk = Some l /\
    locked_rows app1 = locked_rows app /\ locked app1 = locked app /\
    leave u l res app1 = (Done out, app').
Proof.
  intros Hk Hadv.
  destruct tk as [o t|o u' v l|o u' v l|o u' l params|o u' l|out']; simpl in *;
    try discriminate.
  - destruct (bool_decide (l ∈ locked app)); discriminate.
  - injection Hk as ->. injection Hadv as Hsel. unfold selected in Hsel.
    rewrite with_conn_eq in Hsel. simpl in Hsel.
    destruct (fst (get_user_data_by_uuid u (app_conn app))) as [e|ud].
    + exists l, (inl e),
        (on_conn (fun _ => snd (get_user_data_by_uuid u (app_conn app))) app).
      repeat split; [..|exact Hsel]; reflexivity.
    + destruct (prepare o ud v) as [e|params]; [|discriminate].
      exists l, (inl e),
        (on_conn (fun _ => snd (get_user_data_by_uuid u (app_conn app))) app).
      repeat split; [..|exact Hsel]; reflexivity.
  - injection Hk as ->. destruct (refused params) as [e|]; [|discriminate].
    injection Hadv as Hleave. exists l, (inl e), app.
    repeat split; [..|exact Hleave]; reflexivity.
  - injection Hk as ->. injection Hadv as Hleave.
    exists l, (inr tt), (on_conn (fun c => execute Commit c (users c)) app).
    repeat split; [..|exact Hleave]; reflexivity.
Qed.

(** What entering the registry does to the entry of the uuid. *)
Lemma enter_entry uuid app :
  locked_rows (snd (locked_rows_enter uuid app)) !! uuid =
    Some (fst (locked_rows_enter uuid app),
          snd (default (created app, 0) (locked_rows app !! uuid)) + 1) /\
  fst (locked_rows_enter uuid app)
    = fst (default (created app, 0) (locked_rows app !! uuid)).
Proof.
  unfold locked_rows_enter.
  destruct (default (created app, 0) (locked_rows app !! uuid)) as [l c]. simpl.
  split; [apply lookup_insert_eq | reflexivity].
Qed.

(** C2. In every state that the service reaches from one with no request
    in flight, by steps of handlers, arrivals of requests and rounds of
    settlement, and for every uuid: [locked_rows] has an entry for the uuid
    exactly when a handler is in flight on it; the counter of the entry is
    the number of those handlers, and every one of them took the lock of
    that entry, so no second lock is in use for the uuid and at most one
    handler is inside [async with]. A handler that enters the registry
    creates the entry, with a lock made at that moment and the counter 1,
    when no handler is in flight on the uuid, and adds 1 to the counter
    otherwise. A handler that returns, whatever its outcome, takes 1 off
    the counter, and the entry is deleted exactly when the counter was 1. *)
Theorem registry_invariant s0 s u :
  quiescent s0 -> rtc run s0 s ->
  match locked_rows (fst s) !! u with
  | None => in_flight u (snd s) = 0%nat
  | Some (l, c) =>
      c = Z.of_nat (in_flight u (snd s)) /\ 0 < c /\
      Forall (fun tk => task_key tk = Some u -> task_lock tk = Some l) (snd s)
  end /\
  (count (in_critical u) (snd s) <= 1)%nat /\
  (forall o t v l app',
     advance (Received o t) (fst s) = Some (AwaitLock o u v l, app') ->
     locked_rows app' !! u = Some (l, Z.of_nat (in_flight u (snd s)) + 1) /\
     (in_flight u (snd s) = 0%nat -> l = created (fst s))) /\
  (forall before tk after out app',
     snd s = before ++ tk :: after ->
     task_key tk = Some u ->
     advance tk (fst s) = Some (Done out, app') ->
     exists l c,
       locked_rows (fst s) !! u = Some (l, c) /\
       locked_rows app' !! u = if c =? 1 then None else Some (l, c - 1)).
Proof.
  intros Hq Hrun. destruct (reachable_ok _ _ Hq Hrun) as [HR HL].
  split; [|split; [|split]].
  - specialize (HR u). destruct (locked_rows (fst s) !! u) as [[l c]|]; [|exact HR].
    destruct HR as (Hc & Hpos & Hother). repeat split; try assumption.
    apply same_lock_Forall, Hother.
  - apply one_in_critical; assumption.
  - intros o t v l app' Hadv. simpl in Hadv. injection Hadv as Harr.
    unfold arrive in Harr.
    destruct (parse_amount t) as [e|[uj v']];
      [destruct (except_ _ e); discriminate|].
    destruct uj; try discriminate.
    destruct (enter_entry s1 (fst s)) as [He Hl].
    destruct (locked_rows_enter s1 (fst s)) as [l1 app1].
    injection Harr as -> -> -> ->. simpl in He, Hl.
    specialize (HR u). rewrite He.
    destruct (locked_rows (fst s) !! u) as [[l0 c0]|]; simpl in *.
    + destruct HR as (-> & Hpos & _). split; [reflexivity | lia].
    + rewrite HR. split; [reflexivity | intros _; exact Hl].
  - intros before tk after out app' Hpool Hk Hadv.
    destruct (advance_done _ _ _ _ _ Hk Hadv)
      as (l & res & app1 & Hh & Hl & Hrows & Hlocked & Hleave).
    destruct s as [app ts]. simpl in *. subst ts.
    destruct (leave_preserves u l res app1 before tk after Hk Hl Hh)
      as (app2 & Hleave2 & _ & _ & _ & c & Hc1 & Hc2).
    + eapply (retask_registry app app1 before tk tk); auto.
    + eapply (retask_locks app app1 before tk tk); auto.
    + rewrite Hleave in Hleave2. injection Hleave2 as _ <-.
      exists l, c. rewrite <- Hrows. split; assumption.
Qed.

(** ** Concurrent credits *)

Lemma leave_is_done uuid l res app : exists out, fst (leave uuid l res app) = Done out.
Proof.
  unfold leave. destruct (finally_leave uuid (on_exit res) (release l app)).
  eexists; reflexivity.
Qed.

(** Every step takes its task nearer to its return. *)
Lemma advance_weight tk app tk' app' :
  advance tk app = Some (tk', app') -> (weight tk' < weight tk)%nat.
Proof.
  destruct tk as [o t|o u v l|o u v l|o u l params|o u l|out]; simpl; intros H.
  - injection H as H. unfold arrive in H.
    destruct (parse_amount t) as [e|[uj v]].
    + destruct (except_ _ e); injection H as <- _; simpl; lia.
    + destruct uj; try (injection H as <- _; simpl; lia).
      destruct (locked_rows_enter s app). injection H as <- _. simpl; lia.
  - destruct (bool_decide _); [discriminate|]. injection H as <- _. simpl; lia.
  - injection H as H. unfold selected in H.
    destruct (with_conn (get_user_data_by_uuid u) app) as [[e|ud] app1].
    + destruct (leave_is_done u l (inl e) app1) as [out Hout].
      rewrite H in Hout. simpl in Hout. subst. simpl; lia.
    + destruct (prepare o ud v) as [e|params].
      * destruct (leave_is_done u l (inl e) app1) as [out Hout].
        rewrite H in Hout. simpl in Hout. subst. simpl; lia.
      * injection H as <- _. simpl; lia.
  - destruct (refused params) as [e|]; [|injection H as <- _; simpl; lia].
    injection H as H. destruct (leave_is_done u l (inl e) app) as [out Hout].
    rewrite H in Hout. simpl in Hout. subst. simpl; lia.
  - injection H as H.
    destruct (leave_is_done u l (inr tt)
                (on_conn (fun c => execute Commit c (users c)) app)) as [out Hout].
    rewrite H in Hout. simpl in Hout. subst. simpl; lia.
  - discriminate.
Qed.

Lemma total_weight_middle before tk after :
  total_weight (before ++ tk :: after)
  = (total_weight before + weight tk + total_weight after)%nat.
Proof.
  unfold total_weight. rewrite List.map_app, list_sum_app. simpl. lia.
Qed.

Lemma step_weight s s' :
  step s s' -> (total_weight (snd s') < total_weight (snd s))%nat.
Proof.
  intros [app app' before tk tk' after Hadv]. simpl.
  rewrite !total_weight_middle. apply advance_weight in Hadv. lia.
Qed.

(** An execution of [n] steps has used up [n] of the weight at least. *)
Lemma nsteps_weight n s s' :
  nsteps step n s s' -> (n + total_weight (snd s') <= total_weight (snd s))%nat.
Proof.
  induction 1 as [s|n s1 s2 s3 Hstep _ IH]; [lia|].
  apply step_weight in Hstep. lia.
Qed.

Lemma nsteps_preserves n s s' :
  registry_ok s -> locks_ok s -> nsteps step n s s' -> registry_ok s' /\ locks_ok s'.
Proof.
  intros HR HL Hn. induction Hn as [s|n s1 s2 s3 Hstep _ IH]; [split; assumption|].
  destruct (step_preserves _ _ HR HL Hstep). apply IH; assumption.
Qed.

(** Under the invariants a service in which a handler has not returned
    can take a step: no handler waits for a lock that nobody holds. *)
Lemma progress s :
  locks_ok s ->
  (exists s', step s s') \/ Forall (fun tk => is_done tk = true) (snd s).
Proof.
  destruct s as [app ts]. intros HL. simpl.
  destruct (existsb runnable ts) eqn:Er.
  - left. apply existsb_exists in Er as (tk & Hin & Hrun).
    apply in_split in Hin as (before & after & ->).
    assert (exists r, advance tk app = Some r) as [[tk' app'] Hadv].
    { destruct tk; simpl in *; try discriminate; eauto.
      destruct (refused params); eauto. }
    eexists. apply step_task. exact Hadv.
  - destruct (existsb waiting ts) eqn:Ew.
    + left. apply existsb_exists in Ew as (tk & Hin & Hw).
      destruct tk as [| o u v l | | | |]; try discriminate.
      assert (count (holding l) ts = 0%nat) as Hnone.
      { apply count_zero_Forall, List.Forall_forall. intros x Hx.
        assert (runnable x = false) as Hx'.
        { destruct (runnable x) eqn:E; [|reflexivity].
          assert (existsb runnable ts = true)
            by (apply existsb_exists; eauto). congruence. }
        apply holding_false. destruct x; simpl in *; congruence. }
      specialize (HL l). simpl in HL. rewrite Hnone in HL.
      apply in_split in Hin as (before & after & ->).
      eexists. apply step_task. simpl.
      destruct (bool_decide (l ∈ locked app)); [discriminate | reflexivity].
    + right. apply List.Forall_forall. intros x Hx.
      destruct x; simpl; try reflexivity; exfalso.
      all: try (assert (existsb runnable ts = true)
                  by (apply existsb_exists; eexists; split; [exact Hx | reflexivity]);
                congruence).
      assert (existsb waiting ts = true)
        by (apply existsb_exists; eexists; split; [exact Hx | reflexivity]).
      congruence.
Qed.

Lemma leave_table uuid l res app : table (snd (leave uuid l res app)) = table app.
Proof.
  unfold leave, finally_leave, locked_rows_leave, release; simpl.
  destruct (locked_rows app !! uuid) as [[l' c]|]; reflexivity.
Qed.

Lemma enter_table uuid app : table (snd (locked_rows_enter uuid app)) = table app.
Proof.
  unfold locked_rows_enter.
  destruct (default (created app, 0) (locked_rows app !! uuid)); reflexivity.
Qed.

Lemma count_ext p q l :
  Forall (fun x => p x = q x) l -> count p l = count q l.
Proof.
  induction 1 as [|x l Hx _ IH]; [reflexivity|].
  rewrite !count_cons, Hx, IH. reflexivity.
Qed.

Lemma in_critical_true u tk l :
  task_key tk = Some u -> held_lock tk = Some l -> in_critical u tk = true.
Proof.
  intros Hk Hh. unfold in_critical. rewrite (on_key_true _ _ Hk), Hh.
  apply bool_decide_eq_true_2. eauto.
Qed.

(** Which balance a task outside [async with] on [u] is measured against
    does not matter. *)
Lemma stranger_outside u b b' tk :
  in_critical u tk = false -> stranger u b tk = stranger u b' tk.
Proof.
  destruct tk as [o t|o u' v l|o u' v l|o u' l params|o u' l|out]; try reflexivity.
  intros H. simpl. destruct (String.eqb_spec u' u) as [->|Hne]; [|reflexivity].
  exfalso. rewrite (in_critical_true u _ l) in H by reflexivity. discriminate.
Qed.

Lemma stranger_rebase u b b' before tk after :
  in_critical u tk = true ->
  (count (in_critical u) (before ++ tk :: after) <= 1)%nat ->
  count (stranger u b') before = count (stranger u b) before /\
  count (stranger u b') after = count (stranger u b) after.
Proof.
  intros Hin Hone. rewrite count_middle, Hin in Hone. cbv iota in Hone.
  split; apply count_ext;
    (apply (Forall_impl (fun x => in_critical u x = false));
     [apply count_zero_Forall; lia | intros x Hx; apply stranger_outside; exact Hx]).
Qed.

Lemma get_user_data_eq u c :
  get_user_data_by_uuid u c =
    (match fetchone (users c) u with
     | None => inl (Exn UserNotFound "uuid not found")
     | Some row =>
         inr {| ud_uuid := row_uuid row; ud_name := row_name row;
                ud_balance := row_balance row; ud_hold := row_hold row;
                ud_status := py_bool (row_status row) |}
     end,
     execute (Select u) c (users c)).
Proof.
  unfold get_user_data_by_uuid. destruct (fetchone (users c) u); reflexivity.
Qed.

(** A step of a handler keeps the account of the credits. *)
Lemma step_credits u total s s' :
  total <= INT64_MAX ->
  registry_ok s -> locks_ok s -> credits_ok u total s -> step s s' ->
  credits_ok u total s'.
Proof.
  intros Htotal HR HL (row & Hrow & Hact & Hsum & Hstr) Hstep.
  pose proof (one_in_critical _ u HR HL) as Hone.
  destruct Hstep as [app app' before tk tk' after Hadv]. simpl in *.
  rewrite count_middle in Hsum, Hstr.
  destruct tk as [o t|o u' v l|o u' v l|o u' l params|o u' l|out]; simpl in Hadv.
  - (* the request is parsed and the registry entered *)
    injection Hadv as Harr. unfold arrive in Harr.
    unfold unwritten, stranger, names in Hsum, Hstr.
    destruct (parse_amount t) as [e|[uj v]].
    + exists row. destruct (except_ _ e); injection Harr as <- <-;
        simpl; rewrite !count_middle; simpl; auto.
    + destruct uj;
        try (exists row; injection Harr as <- <-; simpl; rewrite !count_middle; simpl; auto; fail).
      pose proof (enter_table s app) as Ht.
      destruct (locked_rows_enter s app) as [l app1]. injection Harr as <- <-.
      simpl in Ht. exists row. simpl. rewrite Ht, !count_middle. simpl. auto.
  - (* the lock is taken *)
    destruct (bool_decide (l ∈ locked app)); [discriminate|].
    injection Hadv as <- <-. exists row. simpl. rewrite !count_middle. simpl. auto.
  - (* the row is read *)
    injection Hadv as Hsel. unfold selected in Hsel. rewrite with_conn_eq in Hsel.
    rewrite get_user_data_eq in Hsel. simpl in Hsel.
    set (app1 := on_conn _ app) in Hsel.
    assert (table app1 = table app) as Ht by reflexivity.
    simpl in Hsum, Hstr.
    destruct (String.eqb_spec u' u) as [->|Hne].
    + unfold table in Hrow. rewrite Hrow in Hsel. simpl in Hsel.
      unfold prepare in Hsel. simpl in Hsel. rewrite Hact in Hsel. simpl in Hsel.
      destruct (is_add o && (v =? 1)) eqn:Eo; simpl in Hstr; [|exfalso; lia].
      apply andb_true_iff in Eo as [Ho Hv]. destruct o; [|discriminate].
      apply Z.eqb_eq in Hv. subst v. injection Hsel as <- <-.
      exists row. simpl. rewrite Ht, !count_middle. simpl.
      rewrite String.eqb_refl. simpl.
      rewrite bool_decide_eq_true_2 by reflexivity. simpl.
      unfold table. auto.
    + exists row.
      assert (table app' = table app /\
              unwritten u tk' = false /\ stranger u (row_balance row) tk' = false)
        as (Ht' & Hu & Hs).
      { destruct (fetchone (users (app_conn app)) u') as [r|]; simpl in Hsel.
        - destruct (prepare o _ v) as [e|params].
          + pose proof (leave_table u' l (inl e) app1) as Hlt.
            destruct (leave_is_done u' l (inl e) app1) as [out Hout].
            rewrite Hsel in Hlt, Hout. simpl in *. subst tk'.
            repeat split; congruence.
          + injection Hsel as <- <-. simpl.
            destruct (String.eqb_spec u' u); [contradiction|]. auto.
        - pose proof (leave_table u' l (inl (Exn UserNotFound "uuid not found")) app1) as Hlt.
          destruct (leave_is_done u' l (inl (Exn UserNotFound "uuid not found")) app1)
            as [out Hout].
          rewrite Hsel in Hlt, Hout. simpl in *. subst tk'.
          repeat split; congruence. }
      simpl. rewrite Ht', !count_middle, Hu, Hs. auto.
  - (* the update is executed, or refused *)
    simpl in Hsum, Hstr.
    destruct (String.eqb_spec u' u) as [->|Hne].
    + destruct (is_add o && bool_decide (params = [(Cbalance, row_balance row + 1)])) eqn:Eo;
        simpl in Hstr; [|exfalso; lia].
      apply andb_true_iff in Eo as [Ho Hp]. apply bool_decide_eq_true_1 in Hp.
      subst params. rewrite Ho in Hsum. simpl in Hsum.
      assert (fits64 (row_balance row + 1) = true) as Hfits.
      { apply fits64_spec. pose proof (row_balance_range row). lia. }
      rewrite refused_one, Hfits in Hadv. injection Hadv as <- <-.
      exists (set_column row (Cbalance, row_balance row + 1)).
      destruct (set_balance_cells row (row_balance row + 1)) as (Hb' & _ & Hs').
      rewrite clamp64_fits in Hb' by exact Hfits.
      destruct (stranger_rebase u (row_balance row) (row_balance row + 1) before
                  (AwaitUpdate o u l [(Cbalance, row_balance row + 1)]) after)
        as [Hb Ha]; [eapply in_critical_true; reflexivity | exact Hone |].
      rewrite Hb', Hs'.
      unfold table in *. cbn [fst snd on_conn app_conn users execute].
      rewrite fetchone_update, Hrow.
      rewrite !count_middle. cbn [unwritten stranger]. rewrite Hb, Ha.
      repeat split; try assumption; lia.
    + destruct (refused params) as [e|].
      * injection Hadv as Hleave.
        pose proof (leave_table u' l (inl e) app) as Hlt.
        destruct (leave_is_done u' l (inl e) app) as [out Hout].
        rewrite Hleave in Hlt, Hout. simpl in *. subst tk'.
        exists row. simpl. rewrite Hlt, !count_middle. simpl. auto.
      * injection Hadv as <- <-. exists row. unfold table in *. simpl.
        rewrite fetchone_update_ne by congruence.
        rewrite !count_middle. simpl. auto.
  - (* the commit returns and the handler leaves *)
    injection Hadv as Hleave.
    set (app1 := on_conn _ app) in Hleave.
    pose proof (leave_table u' l (inr tt) app1) as Hlt.
    destruct (leave_is_done u' l (inr tt) app1) as [out Hout].
    rewrite Hleave in Hlt, Hout. simpl in *. subst tk'.
    exists row. simpl. rewrite Hlt. change (table app1) with (table app).
    rewrite !count_middle. simpl. auto.
  - discriminate.
Qed.

Lemma names_credit_request u : names (credit_request u) = Some (u, 1).
Proof.
  unfold names, credit_request. rewrite parse_amount_request by lia. reflexivity.
Qed.

Lemma count_credits p n u :
  count p (credits n u) = if p (Received Add (credit_request u)) then n else 0%nat.
Proof.
  unfold credits. induction n as [|n IH]; simpl.
  - destruct (p _); reflexivity.
  - rewrite count_cons, IH. destruct (p _); reflexivity.
Qed.

Lemma foreign_unwritten u tk : foreign u tk -> unwritten u tk = false.
Proof.
  intros (o & t & -> & _ & Hn). simpl.
  destruct (names t) as [[u' v]|]; [|reflexivity].
  destruct (String.eqb_spec u' u) as [->|]; [|reflexivity].
  exfalso. apply (Hn v). reflexivity.
Qed.

Lemma foreign_stranger u b tk : foreign u tk -> stranger u b tk = false.
Proof.
  intros (o & t & -> & _ & Hn). simpl.
  destruct (names t) as [[u' v]|]; [|reflexivity].
  destruct (String.eqb_spec u' u) as [->|]; [|reflexivity].
  exfalso. apply (Hn v). reflexivity.
Qed.

Lemma count_foreign p u others :
  (forall tk, foreign u tk -> p tk = false) ->
  Forall (foreign u) others -> count p others = 0%nat.
Proof.
  intros Hp Hf. apply count_zero_Forall. eapply Forall_impl; [exact Hf|]. exact Hp.
Qed.

(** The service when the requests have just been received. *)
Lemma start_quiescent t n u others :
  Forall (foreign u) others -> quiescent (idle_app t, credits n u ++ others).
Proof.
  intros Hf. repeat split; simpl. apply Forall_app. split.
  - unfold credits. apply List.Forall_forall. intros x Hx.
    apply repeat_spec in Hx. subst. reflexivity.
  - eapply Forall_impl; [exact Hf|]. intros tk (o & r & -> & _). reflexivity.
Qed.

Lemma start_credits_ok t u row n others :
  fetchone t u = Some row -> py_bool (row_status row) = true ->
  Forall (foreign u) others ->
  credits_ok u (row_balance row + Z.of_nat n) (idle_app t, credits n u ++ others).
Proof.
  intros Hrow Hact Hf. exists row.
  split; [exact Hrow|]. split; [exact Hact|]. cbn [fst snd].
  rewrite !count_app, !count_credits.
  rewrite (count_foreign _ u others (foreign_unwritten u) Hf).
  rewrite (count_foreign _ u others (foreign_stranger u _) Hf).
  unfold unwritten, stranger.
  rewrite names_credit_request, String.eqb_refl.
  simpl. split; [lia | reflexivity].
Qed.

Lemma start_weight n u others :
  Forall (foreign u) others ->
  total_weight (credits n u ++ others) = (5 * (n + length others))%nat.
Proof.
  intros Hf. unfold total_weight. rewrite List.map_app, list_sum_app.
  assert (list_sum (List.map weight (credits n u)) = (5 * n)%nat) as ->.
  { unfold credits. induction n as [|n IH]; [reflexivity|]. simpl in *. lia. }
  assert (list_sum (List.map weight others) = (5 * length others)%nat) as ->.
  { induction Hf as [|tk others (o & r & -> & _) _ IH]; [reflexivity|]. simpl in *. lia. }
  lia.
Qed.

Lemma nsteps_credits u total n s s' :
  total <= INT64_MAX ->
  registry_ok s -> locks_ok s -> credits_ok u total s -> nsteps step n s s' ->
  credits_ok u total s'.
Proof.
  intros Htotal HR HL Hc Hn.
  induction Hn as [s|n s1 s2 s3 Hstep _ IH]; [assumption|].
  destruct (step_preserves _ _ HR HL Hstep).
  apply IH; try assumption. apply (step_credits u total s1 s2); assumption.
Qed.

(** C3, amended. The account of [u] is active with balance [B], and
    [B + N] fits in 64 bits; [N] credits of 1 on [u] have been received,
    with any requests that name another uuid or are turned down by the
    parsing, and no round of settlement runs. Whatever the order in which
    the event loop resumes the handlers: an execution has at most
    [5 * (N + |others|)] steps; at most one handler is inside [async with]
    on [u] at any time; as long as a handler has not returned, a step is
    possible; and when all have returned the balance of the account is
    [B + N]. *)
Theorem concurrent_credits t u row N others n s :
  fetchone t u = Some row ->
  py_bool (row_status row) = true ->
  row_balance row + Z.of_nat N <= INT64_MAX ->
  Forall (foreign u) others ->
  nsteps step n (idle_app t, credits N u ++ others) s ->
  (n <= 5 * (N + length others))%nat /\
  (count (in_critical u) (snd s) <= 1)%nat /\
  ((exists s', step s s') \/ Forall (fun tk => is_done tk = true) (snd s)) /\
  (Forall (fun tk => is_done tk = true) (snd s) ->
   exists row',
     fetchone (table (fst s)) u = Some row' /\
     row_balance row' = row_balance row + Z.of_nat N).
Proof.
  intros Hrow Hact Hfits Hf Hn.
  destruct (quiescent_ok _ (start_quiescent t N u others Hf)) as [HR0 HL0].
  destruct (nsteps_preserves _ _ _ HR0 HL0 Hn) as [HR HL].
  pose proof (nsteps_credits _ _ _ _ _ Hfits HR0 HL0
                (start_credits_ok t u row N others Hrow Hact Hf) Hn) as Hc.
  split; [|split; [|split]].
  - apply nsteps_weight in Hn. simpl in Hn.
    rewrite (start_weight N u others Hf) in Hn. lia.
  - apply one_in_critical; assumption.
  - apply progress; assumption.
  - intros Hdone. destruct Hc as (row' & Hrow' & _ & Hsum & _).
    exists row'. split; [exact Hrow'|].
    assert (count (unwritten u) (snd s) = 0%nat) as Hz.
    { apply count_zero_Forall. eapply Forall_impl; [exact Hdone|].
      intros tk Hd. destruct tk; simpl in *; congruence. }
    rewrite Hz in Hsum. lia.
Qed.

(** ** The handlers alone and the handlers interleaved *)

Lemma schedule_nsteps order s s' :
  schedule order s = Some s' -> nsteps step (length order) s s'.
Proof.
  revert s. induction order as [|i order IH]; intros [app ts]; simpl.
  - intros [= <-]. constructor.
  - destruct (ts !! i) as [tk|] eqn:Ei; [|discriminate].
    destruct (advance tk app) as [[tk' app']|] eqn:Ea; [|discriminate].
    intros H. apply IH in H. eapply nsteps_l; [|exact H].
    rewrite <- (take_drop_middle ts i tk Ei) at 1.
    rewrite (insert_take_drop ts i tk') by (eapply lookup_lt_Some; exact Ei).
    apply step_task. exact Ea.
Qed.

Lemma except_order e :
  except_ [JSONDecodeError; KeyError; AssertionError] e
  = except_ [KeyError; JSONDecodeError; AssertionError] e.
Proof. unfold except_. destruct e as [[] msg]; reflexivity. Qed.

(** The locked bodies, cut at their [await]s. *)
Lemma locked_body_eq o uuid value c :
  locked_body o uuid value c =
    match get_user_data_by_uuid uuid c with
    | (inl e, c1) => (inl e, c1)
    | (inr user_data, c1) =>
        match prepare o user_data value with
        | inl e => (inl e, c1)
        | inr params => update_user_data uuid params c1
        end
    end.
Proof.
  destruct o; simpl; unfold add_locked, subtract_locked, sbind, prepare, sraise;
    destruct (get_user_data_by_uuid uuid c) as [[e|ud] c1]; try reflexivity;
    destruct (ud_status ud); simpl; try reflexivity.
  destruct (subtraction_is_possible _ _ _); reflexivity.
Qed.

Lemma leave_eq uuid l res app :
  leave uuid l res app =
    (Done (fst (finally_leave uuid (on_exit res) (release l app))),
     snd (finally_leave uuid (on_exit res) (release l app))).
Proof. unfold leave. destruct (finally_leave _ _ _); reflexivity. Qed.

Lemma run_locked_eq body uuid value app :
  run_locked body uuid value app =
    let l := fst (locked_rows_enter uuid app) in
    let app1 := snd (locked_rows_enter uuid app) in
    if bool_decide (l ∈ locked app1) then (Suspended, app1)
    else
      finally_leave uuid (on_exit (fst (body uuid value (app_conn (acquire l app1)))))
        (release l (on_conn (fun _ => snd (body uuid value (app_conn (acquire l app1))))
                      (acquire l app1))).
Proof.
  unfold run_locked. destruct (locked_rows_enter uuid app) as [l app1]. simpl.
  destruct (bool_decide (l ∈ locked app1)); [reflexivity|].
  rewrite with_conn_eq. reflexivity.
Qed.

Lemma step_alone app tk tk' app' :
  advance tk app = Some (tk', app') -> step (app, [tk]) (app', [tk']).
Proof. intros H. apply (step_task app app' [] tk tk' []). exact H. Qed.

(** From the lock to the return. *)
Lemma locked_steps o uuid value l app :
  exists n,
    nsteps step n (app, [AwaitSelect o uuid value l])
      (snd (finally_leave uuid (on_exit (fst (locked_body o uuid value (app_conn app))))
              (release l (on_conn (fun _ => snd (locked_body o uuid value (app_conn app)))
                            app))),
       [Done (fst (finally_leave uuid
                     (on_exit (fst (locked_body o uuid value (app_conn app))))
                     (release l (on_conn (fun _ => snd (locked_body o uuid value
                                                          (app_conn app))) app))))]).
Proof.
  pose proof (eq_refl (selected o uuid value l app)) as Hsel.
  unfold selected at 2 in Hsel. rewrite with_conn_eq in Hsel.
  rewrite locked_body_eq.
  destruct (get_user_data_by_uuid uuid (app_conn app)) as [[e|ud] c1];
    cbn [fst snd] in Hsel |- *.
  - exists 1%nat. eapply nsteps_l; [|constructor].
    apply step_alone. cbn [advance]. rewrite Hsel, leave_eq. reflexivity.
  - destruct (prepare o ud value) as [e|params]; cbn [fst snd].
    + exists 1%nat. eapply nsteps_l; [|constructor].
      apply step_alone. cbn [advance]. rewrite Hsel, leave_eq. reflexivity.
    + unfold update_user_data. destruct (refused params) as [e|] eqn:Er; cbn [fst snd].
      * exists 2%nat.
        eapply nsteps_l; [apply step_alone; cbn [advance]; rewrite Hsel; reflexivity|].
        eapply nsteps_l; [|constructor].
        apply step_alone. cbn [advance]. rewrite Er, leave_eq. reflexivity.
      * exists 3%nat.
        eapply nsteps_l; [apply step_alone; cbn [advance]; rewrite Hsel; reflexivity|].
        eapply nsteps_l; [apply step_alone; cbn [advance]; rewrite Er; reflexivity|].
        eapply nsteps_l; [|constructor].
        apply step_alone. cbn [advance]. rewrite leave_eq. reflexivity.
Qed.

(** A handler that runs with no other handler in between does what the
    handler of the source does in one go: the interleaved service refines
    [handle_add] and [handle_subtract]. *)
Lemma handler_alone o t app :
  fst (handler o t app) <> Suspended ->
  exists n,
    nsteps step n (app, [Received o t])
      (snd (handler o t app), [Done (fst (handler o t app))]).
Proof.
  intros Hrun.
  assert (handler o t app =
          match parse_amount t with
          | inl e =>
              if except_ [KeyError; JSONDecodeError; AssertionError] e
              then (Returned (make_bad_request_response e), app)
              else (Uncaught e, app)
          | inr (JStr uuid, value) => run_locked (locked_body o) uuid value app
          | inr _ => (NonTextUuid, app)
          end) as Hh.
  { destruct o; simpl; unfold handle_add, handle_subtract;
      destruct (parse_amount t) as [e|[[] v]]; try reflexivity.
    rewrite except_order. reflexivity. }
  rewrite Hh in *. clear Hh.
  pose proof (eq_refl (arrive o t app)) as Harr. unfold arrive at 2 in Harr.
  destruct (parse_amount t) as [e|[uj value]].
  - exists 1%nat. eapply nsteps_l; [|constructor]. apply step_alone.
    cbn [advance]. rewrite Harr. destruct (except_ _ e); reflexivity.
  - destruct uj; try (exists 1%nat; eapply nsteps_l; [|constructor];
                      apply step_alone; cbn [advance]; rewrite Harr; reflexivity).
    rename s into uuid. rewrite run_locked_eq in *. cbv zeta in *.
    destruct (locked_rows_enter uuid app) as [l app1]. cbn [fst snd] in *.
    destruct (bool_decide (l ∈ locked app1)) eqn:El; [contradiction Hrun; reflexivity|].
    destruct (locked_steps o uuid value l (acquire l app1)) as [n Hn].
    exists (S (S n)).
    eapply nsteps_l; [apply step_alone; cbn [advance]; rewrite Harr; reflexivity|].
    eapply nsteps_l; [apply step_alone; simpl; rewrite El; reflexivity|].
    exact Hn.
Qed.

Lemma nsteps_run n s s' : nsteps step n s s' -> rtc run s s'.
Proof.
  induction 1 as [s|n s1 s2 s3 Hstep _ IH]; [constructor|].
  eapply rtc_l; [apply run_step; exact Hstep | exact IH].
Qed.

Lemma two_credits_quiescent : quiescent two_credits.
Proof. repeat split. repeat constructor. Qed.

Lemma registry_invariant_witness :
  match locked_rows (fst two_credits_midway) !! "a1" with
  | None => in_flight "a1" (snd two_credits_midway) = 0%nat
  | Some (l, c) =>
      c = Z.of_nat (in_flight "a1" (snd two_credits_midway)) /\ 0 < c /\
      Forall (fun tk => task_key tk = Some "a1" -> task_lock tk = Some l)
        (snd two_credits_midway)
  end /\
  (count (in_critical "a1") (snd two_credits_midway) <= 1)%nat /\
  (forall o t v l app',
     advance (Received o t) (fst two_credits_midway)
       = Some (AwaitLock o "a1" v l, app') ->
     locked_rows app' !! "a1"
       = Some (l, Z.of_nat (in_flight "a1" (snd two_credits_midway)) + 1) /\
     (in_flight "a1" (snd two_credits_midway) = 0%nat ->
      l = created (fst two_credits_midway))) /\
  (forall before tk after out app',
     snd two_credits_midway = before ++ tk :: after ->
     task_key tk = Some "a1" ->
     advance tk (fst two_credits_midway) = Some (Done out, app') ->
     exists l c,
       locked_rows (fst two_credits_midway) !! "a1" = Some (l, c) /\
       locked_rows app' !! "a1" = if c =? 1 then None else Some (l, c - 1)).
Proof.
  apply (registry_invariant two_credits two_credits_midway "a1").
  - exact two_credits_quiescent.
  - apply (nsteps_run 3). apply (schedule_nsteps [0; 1; 0]%nat).
    vm_compute. reflexivity.
Defined.

(** C3 fails at this input: one credit of 1 on an active account whose
    balance is [2^63 - 1]. The handler runs to its end in four steps; the
    driver refuses the new balance, the handler ends with the uncaught
    [OverflowError], and the balance is what it was, not [B + 1]. *)
Lemma credit_at_the_bound :
  nsteps step 4 credit_at_bound credit_at_bound_done /\
  snd credit_at_bound_done = [Done (Uncaught overflow_error)] /\
  table (fst credit_at_bound_done) = [account INT64_MAX 0] /\
  row_balance (account INT64_MAX 0) = 9223372036854775807.
Proof.
  split; [|repeat split; vm_compute; reflexivity].
  apply (schedule_nsteps [0; 0; 0; 0]%nat). vm_compute. reflexivity.
Qed.

Lemma concurrent_credits_witness :
  (10 <= 5 * (2 + length (@nil task)))%nat /\
  (count (in_critical "a1") (snd two_credits_done) <= 1)%nat /\
  ((exists s', step two_credits_done s') \/
   Forall (fun tk => is_done tk = true) (snd two_credits_done)) /\
  (Forall (fun tk => is_done tk = true) (snd two_credits_done) ->
   exists row',
     fetchone (table (fst two_credits_done)) "a1" = Some row' /\
     row_balance row' = row_balance (account 100 0) + Z.of_nat 2).
Proof.
  apply (concurrent_credits [account 100 0] "a1" (account 100 0) 2 [] 10
           two_credits_done eq_refl eq_refl).
  - vm_compute. discriminate.
  - apply List.Forall_nil.
  - apply (schedule_nsteps [0; 1; 0; 0; 0; 0; 1; 1; 1; 1]%nat).
    vm_compute. reflexivity.
Defined.

(** ** Further scenarios *)

(** X2. An unknown uuid is answered 404 by [handle_status], [handle_add] and
    [handle_subtract], and an account that is not active is answered 403
    by [handle_add] and [handle_subtract]; in each case the handler leaves
    the table as it was. *)
Theorem unknown_or_inactive app id amount :
  0 <= amount ->
  lock_free id app ->
  match fetchone (table app) id with
  | None =>
      fst (handle_status (status_request id) app) = Returned not_found_response /\
      table (snd (handle_status (status_request id) app)) = table app /\
      fst (handle_add (amount_request id (JInt amount)) app) = Returned not_found_response /\
      table (snd (handle_add (amount_request id (JInt amount)) app)) = table app /\
      fst (handle_subtract (amount_request id (JInt amount)) app)
        = Returned not_found_response /\
      table (snd (handle_subtract (amount_request id (JInt amount)) app)) = table app
  | Some row =>
      py_bool (row_status row) = false ->
      fst (handle_add (amount_request id (JInt amount)) app)
        = Returned (not_possible_response "status is inactive") /\
      table (snd (handle_add (amount_request id (JInt amount)) app)) = table app /\
      fst (handle_subtract (amount_request id (JInt amount)) app)
        = Returned (not_possible_response "status is inactive") /\
      table (snd (handle_subtract (amount_request id (JInt amount)) app)) = table app
  end.
Proof.
  intros Hnn Hfree.
  rewrite handle_add_request, handle_subtract_request by assumption.
  rewrite add_locked_cases, subtract_locked_cases.
  unfold handle_status, status_request, table. simpl.
  unfold with_conn, get_user_data_by_uuid.
  destruct (fetchone (users (app_conn app)) id) as [row|]; simpl.
  - intros ->. repeat split; reflexivity.
  - repeat split; reflexivity.
Qed.

Lemma unknown_or_inactive_witness :
  fst (handle_status (status_request "zz") (idle_app [account 100 0]))
    = Returned not_found_response /\
  table (snd (handle_status (status_request "zz") (idle_app [account 100 0])))
    = [account 100 0] /\
  fst (handle_add (amount_request "zz" (JInt 5)) (idle_app [account 100 0]))
    = Returned not_found_response /\
  table (snd (handle_add (amount_request "zz" (JInt 5)) (idle_app [account 100 0])))
    = [account 100 0] /\
  fst (handle_subtract (amount_request "zz" (JInt 5)) (idle_app [account 100 0]))
    = Returned not_found_response /\
  table (snd (handle_subtract (amount_request "zz" (JInt 5)) (idle_app [account 100 0])))
    = [account 100 0].
Proof.
  apply (unknown_or_inactive (idle_app [account 100 0]) "zz" 5).
  - lia.
  - apply idle_lock_free.
Defined.

(** X3. A credit of 50 and then a reserve of 30 on [{balance:100, hold:0}]
    are both answered 200 and leave [{balance:150, hold:30}]. *)
Theorem credit_then_reserve :
  fst (handle_add (amount_request "a1" (JInt 50)) (idle_app [account 100 0]))
    = Returned ok_response /\
  fst (handle_subtract (amount_request "a1" (JInt 30))
         (snd (handle_add (amount_request "a1" (JInt 50)) (idle_app [account 100 0]))))
    = Returned ok_response /\
  table (snd (handle_subtract (amount_request "a1" (JInt 30))
                (snd (handle_add (amount_request "a1" (JInt 50))
                        (idle_app [account 100 0])))))
    = [account 150 30].
Proof.
  rewrite handle_add_request by (try lia; apply idle_lock_free).
  rewrite handle_subtract_request
    by (try lia; unfold lock_free, lock_of; simpl; apply not_elem_of_empty).
  repeat split; reflexivity.
Qed.

(** X1. The settlement round does not take the lock of any uuid. A round that
    runs between the [SELECT] and the [UPDATE] of a credit is overwritten:
    from [{balance:100, hold:30}] the credit of 1 writes the balance 101
    over the settled balance 70, where the credit and the round in either
    order, one after the other, leave the balance 71. *)
Theorem settlement_race :
  rtc run held_credit held_credit_raced /\
  snd held_credit_read = [AwaitUpdate Add "a1" 0 [(Cbalance, 101)]] /\
  snd held_credit_raced = [Done (Returned ok_response)] /\
  table (fst held_credit_raced) = [account 101 0] /\
  (table ∘ fst ∘ settle_round <$> schedule [0; 0; 0; 0; 0]%nat held_credit)
    = Some [account 71 0] /\
  (table ∘ fst <$> schedule [0; 0; 0; 0; 0]%nat (settle_round held_credit))
    = Some [account 71 0].
Proof.
  split; [|repeat split; vm_compute; reflexivity].
  apply rtc_trans with held_credit_read.
  - apply (nsteps_run 3), (schedule_nsteps [0; 0; 0]%nat). vm_compute. reflexivity.
  - apply rtc_l with (settle_round held_credit_read).
    + apply (run_settle (fst held_credit_read) (snd held_credit_read)).
    + apply (nsteps_run 2), (schedule_nsteps [0; 0]%nat). vm_compute. reflexivity.
Qed.

Lemma bad_value_rejected_witness :
  handle_add (amount_request "a1" (JStr "5")) (idle_app [account 100 0])
  = (Returned bad_request_response, idle_app [account 100 0]).
Proof.
  apply (bad_value_rejected Add
           [("addition", JDict [("uuid", JStr "a1"); ("value", JStr "5")])]
           [("uuid", JStr "a1"); ("value", JStr "5")] (JStr "a1")
           (idle_app [account 100 0]) eq_refl eq_refl I).
Defined.

(** * Further properties of the store operations *)

Lemma find_first {A} (p : A -> bool) (l : list A) x :
  List.find p l = Some x ->
  exists before after,
    l = before ++ x :: after /\ p x = true /\ Forall (fun y => p y = false) before.
Proof.
  induction l as [|y l IH]; simpl; [discriminate|].
  destruct (p y) eqn:E.
  - intros [= ->]. exists [], l. repeat split; [exact E | constructor].
  - intros H. destruct (IH H) as (before & after & -> & Hx & Hb).
    exists (y :: before), after. repeat split; [exact Hx | constructor; assumption].
Qed.

Lemma find_none_Forall {A} (p : A -> bool) (l : list A) :
  List.find p l = None <-> Forall (fun y => p y = false) l.
Proof.
  induction l as [|y l IH]; simpl; [split; [constructor | reflexivity]|].
  destruct (p y) eqn:E; split.
  - discriminate.
  - intros H. apply Forall_cons in H as [H _]. congruence.
  - intros H. constructor; [exact E | apply IH, H].
  - intros H. apply Forall_cons in H as [_ H]. apply IH, H.
Qed.

(** X5. [get_user_data_by_uuid] executes one [SELECT] and leaves the table
    as it is. It raises [UserNotFound('uuid not found')] exactly when no
    row has the uuid; otherwise it returns the columns of the first row, in
    storage order, that has the uuid, with the status as a boolean. *)
Theorem get_user_data_first_row u c :
  users (snd (get_user_data_by_uuid u c)) = users c /\
  journal (snd (get_user_data_by_uuid u c)) = journal c ++ [Select u] /\
  match fst (get_user_data_by_uuid u c) with
  | inl e =>
      e = Exn UserNotFound "uuid not found" /\
      Forall (fun r => row_uuid r <> u) (users c)
  | inr ud =>
      exists before row after,
        users c = before ++ row :: after /\
        Forall (fun r => row_uuid r <> u) before /\
        row_uuid row = u /\
        ud = {| ud_uuid := u; ud_name := row_name row;
                ud_balance := row_balance row; ud_hold := row_hold row;
                ud_status := negb (row_status row =? 0) |}
  end.
Proof.
  rewrite get_user_data_eq. simpl. split; [reflexivity|]. split; [reflexivity|].
  unfold fetchone. destruct (List.find (has_uuid u) (users c)) as [row|] eqn:E.
  - apply find_first in E as (before & after & Hc & Hrow & Hb).
    unfold has_uuid in Hrow. apply String.eqb_eq in Hrow.
    exists before, row, after. repeat split; try assumption.
    + eapply Forall_impl; [exact Hb|]. intros r Hr. unfold has_uuid in Hr.
      apply String.eqb_neq in Hr. exact Hr.
    + rewrite Hrow. reflexivity.
  - split; [reflexivity|]. apply find_none_Forall in E.
    eapply Forall_impl; [exact E|]. intros r Hr. unfold has_uuid in Hr.
    apply String.eqb_neq in Hr. exact Hr.
Qed.

Lemma set_column_value r k v col :
  column_value col (set_column r (k, v))
  = if decide (k = col) then clamp64 v else column_value col r.
Proof.
  destruct k, col; unfold column_value, row_balance, row_hold, row_status; simpl;
    rewrite ?store_val; reflexivity.
Qed.

Lemma fold_set_column_value params r col :
  NoDup (List.map fst params) ->
  forallb (fun kv => fits64 (snd kv)) params = true ->
  column_value col (fold_left set_column params r)
  = default (column_value col r) (param_get params col).
Proof.
  revert r. induction params as [|[k v] params IH]; intros r Hnd Hfits; [reflexivity|].
  simpl in *. apply NoDup_cons in Hnd as [Hk Hnd].
  apply andb_true_iff in Hfits as [Hv Hfits]. rewrite IH by assumption.
  destruct (decide (k = col)) as [->|Hne].
  - assert (param_get params col = None) as ->.
    { clear -Hk. induction params as [|[k' v'] params IH]; [reflexivity|].
      simpl in *. destruct (decide (k' = col)) as [->|]; [|apply IH].
      - exfalso. apply Hk. left.
      - intros H. apply Hk. right. exact H. }
    simpl. rewrite set_column_value, clamp64_fits by exact Hv.
    destruct (decide (col = col)); congruence.
  - destruct (param_get params col); [reflexivity|]. simpl.
    rewrite set_column_value. destruct (decide (k = col)); congruence.
Qed.

Lemma fold_set_column_keeps params r :
  row_uuid (fold_left set_column params r) = row_uuid r /\
  row_name (fold_left set_column params r) = row_name r.
Proof.
  revert r. induction params as [|[k v] params IH]; intros r; [split; reflexivity|].
  simpl. destruct (IH (set_column r (k, v))) as [-> ->]. destruct k; split; reflexivity.
Qed.

(** X6. [update_user_data] on a dictionary (its keys are distinct). With
    no key, [conn.execute] raises on the statement with an empty [SET];
    with a value that does not fit in 64 bits it raises [OverflowError];
    in both cases nothing is executed or committed. Otherwise it executes
    one [UPDATE] and its commit and returns: every row keeps its uuid and
    its name, and the table its length and order; a row of another uuid
    is unchanged; in a row of the uuid every column that the dictionary
    names has the value given and every other column its old value; when
    no row has the uuid the table is unchanged. *)
Theorem update_user_data_columns u params c :
  NoDup (List.map fst params) ->
  match params with
  | [] => exists e, update_user_data u params c = (inl e, c) /\
                    exn_class_of e = StoreError
  | _ :: _ =>
      if forallb (fun kv => fits64 (snd kv)) params
      then
        fst (update_user_data u params c) = inr tt /\
        journal (snd (update_user_data u params c))
          = journal c ++ [Update u params; Commit] /\
        Forall2 (fun r r' =>
                   row_uuid r' = row_uuid r /\ row_name r' = row_name r /\
                   (row_uuid r <> u -> r' = r) /\
                   (row_uuid r = u ->
                    forall col, column_value col r'
                                = default (column_value col r) (param_get params col)))
                (users c) (users (snd (update_user_data u params c))) /\
        (fetchone (users c) u = None ->
         users (snd (update_user_data u params c)) = users c)
      else update_user_data u params c = (inl overflow_error, c)
  end.
Proof.
  intros Hnd. destruct params as [|kv params]; [eexists; split; reflexivity|].
  unfold update_user_data, refused.
  destruct (forallb (fun kv => fits64 (snd kv)) (kv :: params)) eqn:Hfits;
    [|reflexivity].
  cbn [fst snd execute users journal].
  split; [reflexivity|]. split; [rewrite <- app_assoc; reflexivity|]. split.
  - induction (users c) as [|r t IH]; simpl; constructor; [|exact IH].
    unfold update_row, has_uuid.
    destruct (String.eqb_spec (row_uuid r) u) as [E|E].
    + destruct (fold_set_column_keeps (kv :: params) r) as [-> ->].
      repeat split; [congruence|]. intros _ col.
      apply fold_set_column_value; assumption.
    + repeat split; congruence.
  - unfold fetchone. intros Hnone. apply find_none_Forall in Hnone.
    induction Hnone as [|r t Hr _ IH]; [reflexivity|].
    cbn [List.map]. unfold update_row at 1. rewrite Hr, IH. reflexivity.
Qed.

Lemma update_user_data_columns_witness :
  users (snd (update_user_data "a1" [(Chold, 7); (Cstatus, 0)]
                {| users := [account 100 0]; journal := [] |}))
  = [{| row_uuid := "a1"; row_name := "Ann"; balance_cell := store 100;
        hold_cell := store 7; status_cell := store 0 |}]
  /\ fst (update_user_data "a1" [(Chold, 7); (Cstatus, 0)]
            {| users := [account 100 0]; journal := [] |}) = inr tt.
Proof.
  pose proof (update_user_data_columns "a1" [(Chold, 7); (Cstatus, 0)]
                {| users := [account 100 0]; journal := [] |}) as H.
  cbv beta iota in H.
  change (forallb (fun kv => fits64 (snd kv)) [(Chold, 7); (Cstatus, 0)])
    with true in H.
  cbv iota in H. destruct H as (H1 & _ & _ & _).
  - repeat constructor; simpl; intros H; inversion H; subst;
      match goal with H : _ ∈ _ |- _ => inversion H end.
  - split; [reflexivity | exact H1].
Defined.

(** * Further properties of the handlers run without interleaving *)

Lemma handle_status_keeps t app :
  table (snd (handle_status t app)) = table app /\
  locked (snd (handle_status t app)) = locked app.
Proof.
  unfold handle_status, table.
  destruct (parse_status t) as [e|[]]; [destruct (except_ _ e)|..];
    try (split; reflexivity).
  rewrite with_conn_eq, get_user_data_eq. simpl.
  destruct (fetchone (users (app_conn app)) s); split; reflexivity.
Qed.

Lemma handle_status_request u app :
  fst (handle_status (status_request u) app) =
    match fetchone (table app) u with
    | None => Returned not_found_response
    | Some row =>
        Returned (make_response 200 true
                    (JDict [("balance", JInt (row_balance row));
                            ("hold", JInt (row_hold row));
                            ("status", JBool (negb (row_status row =? 0)))])
                    (JDict []))
    end.
Proof.
  unfold handle_status, status_request, table. simpl.
  rewrite with_conn_eq, get_user_data_eq. simpl.
  destruct (fetchone (users (app_conn app)) u); reflexivity.
Qed.

(** X7. [handle_status] takes no lock and writes nothing: whatever the
    body and the state, it does not wait, the table, the registry and the
    locks are as before, and the connection has executed one [SELECT] at
    most. On a body that names a uuid it answers 404 when no row has the
    uuid and otherwise 200 with the balance, the hold and the status, as a
    boolean, of the first such row. *)
Theorem handle_status_reads_only t app :
  fst (handle_status t app) <> Suspended /\
  read_at_most (app_conn app) (app_conn (snd (handle_status t app))) /\
  locked_rows (snd (handle_status t app)) = locked_rows app /\
  locked (snd (handle_status t app)) = locked app /\
  created (snd (handle_status t app)) = created app /\
  forall u, t = status_request u ->
    fst (handle_status t app) =
      match fetchone (table app) u with
      | None => Returned not_found_response
      | Some row =>
          Returned (make_response 200 true
                      (JDict [("balance", JInt (row_balance row));
                              ("hold", JInt (row_hold row));
                              ("status", JBool (negb (row_status row =? 0)))])
                      (JDict []))
      end.
Proof.
  unfold handle_status, read_at_most.
  split; [|split; [|split; [|split; [|split]]]];
    try (destruct (parse_status t) as [e|[]];
         [destruct (except_ _ e)|..]; simpl; try rewrite with_conn_eq;
         try rewrite get_user_data_eq; simpl;
         try destruct (fetchone (users (app_conn app)) s);
         simpl; try discriminate; try reflexivity; auto; fail).
  - destruct (parse_status t) as [e|[]];
      [destruct (except_ _ e)|..]; simpl; auto.
    rewrite with_conn_eq, get_user_data_eq. simpl.
    destruct (fetchone (users (app_conn app)) s); simpl; eauto.
  - intros u ->. simpl. rewrite with_conn_eq, get_user_data_eq. unfold table. simpl.
    destruct (fetchone (users (app_conn app)) u); reflexivity.
Qed.



Lemma handler_cases o t app :
  handler o t app =
    match parse_amount t with
    | inl e =>
        if except_ [KeyError; JSONDecodeError; AssertionError] e
        then (Returned (make_bad_request_response e), app)
        else (Uncaught e, app)
    | inr (JStr uuid, value) => run_locked (locked_body o) uuid value app
    | inr _ => (NonTextUuid, app)
    end.
Proof.
  destruct o; simpl; unfold handle_add, handle_subtract;
    destruct (parse_amount t) as [e|[[] v]]; try reflexivity.
  rewrite except_order. reflexivity.
Qed.

Lemma finally_leave_entered uuid out l app c1 :
  finally_leave uuid out
    (release l (on_conn (fun _ => c1) (acquire l (snd (locked_rows_enter uuid app)))))
  = (out, snd (finally_leave uuid out
                 (release l (on_conn (fun _ => c1)
                               (acquire l (snd (locked_rows_enter uuid app))))))) /\
  app_conn (snd (finally_leave uuid out
                   (release l (on_conn (fun _ => c1)
                                 (acquire l (snd (locked_rows_enter uuid app))))))) = c1.
Proof.
  unfold finally_leave, locked_rows_leave, locked_rows_enter.
  destruct (default (created app, 0) (locked_rows app !! uuid)) as [l0 c0]. simpl.
  rewrite lookup_insert_eq. split; reflexivity.
Qed.



(** X9. A request that is answered 400 has not reached the store or the
    registry: the application is as it was. *)
Theorem bad_request_touches_nothing o t app r :
  fst (handler o t app) = Returned r ->
  reported_status r = Some (JInt 400) ->
  snd (handler o t app) = app.
Proof.
  rewrite handler_cases.
  destruct (parse_amount t) as [e|[uj value]].
  - destruct (except_ _ e); reflexivity.
  - destruct uj; try reflexivity. rename s into uuid.
    rewrite run_locked_eq. cbv zeta.
    destruct (bool_decide _); [discriminate|].
    match goal with |- context [finally_leave uuid ?out (release ?l (on_conn (fun _ => ?c) _))] =>
      destruct (finally_leave_entered uuid out l app c) as [Hfl _]
    end.
    rewrite Hfl. cbn [fst]. intros Hout Hcode. exfalso.
    unfold on_exit in Hout.
    destruct (fst (locked_body o uuid value _)) as [e|[]].
    + destruct (except_ [UserNotFound] e); [injection Hout as <-; discriminate|].
      destruct (except_ [OperationNotPossible] e); [injection Hout as <-|]; discriminate.
    + injection Hout as <-. discriminate.
Qed.

Lemma bad_request_touches_nothing_witness :
  snd (handle_add (amount_request "a1" (JInt (-5))) (idle_app [account 100 0]))
  = idle_app [account 100 0].
Proof.
  apply (bad_request_touches_nothing Add (amount_request "a1" (JInt (-5)))
           (idle_app [account 100 0]) bad_request_response); reflexivity.
Defined.

(** ** The envelope of the responses *)

Lemma make_response_envelope code addition :
  envelope (make_response code (code =? 200) (JDict addition) (JDict [])).
Proof. exists code, addition. reflexivity. Qed.

Lemma on_exit_envelope res r : on_exit res = Returned r -> envelope r.
Proof.
  unfold on_exit. destruct res as [e|[]].
  - destruct (except_ [UserNotFound] e).
    + intros [= <-]. apply (make_response_envelope 404).
    + destruct (except_ [OperationNotPossible] e); [|discriminate].
      intros [= <-]. apply (make_response_envelope 403).
  - intros [= <-]. apply (make_response_envelope 200).
Qed.

Lemma run_locked_envelope body uuid value app r :
  fst (run_locked body uuid value app) = Returned r -> envelope r.
Proof.
  unfold run_locked.
  destruct (locked_rows_enter uuid app) as [l app1].
  destruct (bool_decide (l ∈ locked app1)); [discriminate|].
  destruct (with_conn (body uuid value) (acquire l app1)) as [res app2].
  unfold finally_leave.
  destruct (locked_rows_leave uuid (release l app2)); [|discriminate].
  simpl. apply on_exit_envelope.
Qed.

(** X10. Whatever the route, the request and the state, the body of a
    response that the handler returns is an object with the keys [status],
    [result], [addition] and [description], in this order: [status] is an
    integer, [result] is true exactly when [status] is 200, [addition] is
    an object and [description] is the empty object. *)
Theorem responses_have_envelope path h t app r :
  In (path, h) routes ->
  fst (h t app) = Returned r ->
  envelope r.
Proof.
  intros Hroute. simpl in Hroute.
  destruct Hroute as [[= _ <-]|[[= _ <-]|[[= _ <-]|[[= _ <-]|[]]]]].
  - intros [= <-]. apply (make_response_envelope 200).
  - unfold handle_status.
    destruct (parse_status t) as [e|u].
    + destruct (except_ _ e); [|discriminate].
      intros [= <-]. apply (make_response_envelope 400).
    + destruct u; try discriminate.
      destruct (with_conn (get_user_data_by_uuid s) app) as [[e|ud] app1].
      * destruct (except_ _ e); [|discriminate].
        intros [= <-]. apply (make_response_envelope 404).
      * intros [= <-]. apply (make_response_envelope 200).
  - unfold handle_add.
    destruct (parse_amount t) as [e|[u value]].
    + destruct (except_ _ e); [|discriminate].
      intros [= <-]. apply (make_response_envelope 400).
    + destruct u; try discriminate. apply run_locked_envelope.
  - unfold handle_subtract.
    destruct (parse_amount t) as [e|[u value]].
    + destruct (except_ _ e); [|discriminate].
      intros [= <-]. apply (make_response_envelope 400).
    + destruct u; try discriminate. apply run_locked_envelope.
Qed.

Lemma responses_have_envelope_witness :
  envelope (not_possible_response "balance too low").
Proof.
  apply (responses_have_envelope "/api/subtract" handle_subtract
           (amount_request "a1" (JInt 20)) (idle_app [account 100 90])).
  - simpl. tauto.
  - vm_compute. reflexivity.
Defined.

(** ** Operations one after the other *)

Lemma parse_amount_nonneg t uj value : parse_amount t = inr (uj, value) -> 0 <= value.
Proof.
  unfold parse_amount, ebind.
  destruct (json_loads t) as [e|j]; [discriminate|].
  destruct (getitem j "addition") as [e|a]; [discriminate|].
  destruct (getitem a "uuid") as [e|u]; [discriminate|].
  destruct (getitem a "value") as [e|v]; [discriminate|].
  unfold assert_amount. destruct (as_int v) as [z|]; [|discriminate].
  destruct (Z.leb_spec 0 z); [|discriminate]. intros [= _ <-]. assumption.
Qed.

(** With no lock locked, an operation on a text uuid runs its locked body
    on the connection and leaves no lock locked. *)
Lemma run_locked_unlocked body uuid value app :
  locked app = ∅ ->
  app_conn (snd (run_locked body uuid value app)) = snd (body uuid value (app_conn app)) /\
  fst (run_locked body uuid value app) = on_exit (fst (body uuid value (app_conn app))) /\
  locked (snd (run_locked body uuid value app)) = ∅.
Proof.
  intros Hl. rewrite run_locked_free.
  - simpl. repeat split. exact Hl.
  - unfold lock_free. rewrite Hl. apply not_elem_of_empty.
Qed.

Lemma serve_unlocked c app : locked app = ∅ -> locked (serve c app) = ∅.
Proof.
  intros Hl. destruct c as [t|t|t|t|]; simpl; try exact Hl.
  - destruct (handle_status_keeps t app) as [_ H]. congruence.
  - change handle_add with (handler Add). rewrite handler_cases.
    destruct (parse_amount t) as [e|[[] v]]; try exact Hl.
    + destruct (except_ _ e); exact Hl.
    + apply run_locked_unlocked, Hl.
  - change handle_subtract with (handler Subtract). rewrite handler_cases.
    destruct (parse_amount t) as [e|[[] v]]; try exact Hl.
    + destruct (except_ _ e); exact Hl.
    + apply run_locked_unlocked, Hl.
Qed.

Lemma unique_first t u row r :
  unique_uuids t -> fetchone t u = Some row -> In r t -> row_uuid r = u -> r = row.
Proof.
  unfold unique_uuids, fetchone. intros Hnd Hf Hin Hr.
  apply find_first in Hf as (before & after & -> & Hrow & Hb).
  unfold has_uuid in Hrow. apply String.eqb_eq in Hrow.
  rewrite List.map_app in Hnd. simpl in Hnd.
  apply NoDup_app in Hnd as (_ & Hdis & Hnd2). apply NoDup_cons in Hnd2 as [Hnot _].
  apply in_app_or in Hin as [Hin|[Hin|Hin]].
  - exfalso. rewrite List.Forall_forall in Hb. specialize (Hb _ Hin).
    unfold has_uuid in Hb. apply String.eqb_neq in Hb. contradiction.
  - congruence.
  - exfalso. apply Hnot. rewrite Hrow, <- Hr.
    apply list_elem_of_In, in_map, Hin.
Qed.

Lemma map_update_row_uuids u params t :
  List.map row_uuid (List.map (update_row u params) t) = List.map row_uuid t.
Proof.
  induction t as [|r t IH]; [reflexivity|]. simpl. rewrite IH. f_equal.
  unfold update_row. destruct (has_uuid u r); [|reflexivity].
  apply fold_set_column_keeps.
Qed.

Lemma locked_body_covered o uuid value c :
  0 <= value -> unique_uuids (users c) -> covered (users c) ->
  unique_uuids (users (snd (locked_body o uuid value c))) /\
  covered (users (snd (locked_body o uuid value c))).
Proof.
  intros Hv Hnd Hcov.
  destruct o; simpl; rewrite ?add_locked_cases, ?subtract_locked_cases;
    destruct (fetchone (users c) uuid) as [row|] eqn:Hrow; try (split; assumption);
    destruct (py_bool (row_status row)); try (split; assumption).
  - rewrite update_one_eq.
    destruct (fits64 (row_balance row + value)) eqn:Hfits; [|split; assumption].
    simpl. split; [unfold unique_uuids; rewrite map_update_row_uuids; exact Hnd|].
    unfold covered in *. rewrite List.Forall_forall in *. intros r' Hin.
    apply in_map_iff in Hin as (r & <- & Hin). specialize (Hcov r Hin).
    unfold update_row, has_uuid.
    destruct (String.eqb_spec (row_uuid r) uuid) as [E|E]; [|exact Hcov].
    rewrite (unique_first _ _ _ _ Hnd Hrow Hin E) in *. cbn [fold_left].
    destruct (set_balance_cells row (row_balance row + value)) as (Hb & Hh & _).
    rewrite Hb, Hh, clamp64_fits by exact Hfits. lia.
  - destruct (Z.leb_spec (row_hold row + value) (row_balance row)) as [Hle|Hgt];
      [|split; assumption].
    rewrite update_one_eq.
    destruct (fits64 (row_hold row + value)) eqn:Hfits; [|split; assumption].
    simpl. split; [unfold unique_uuids; rewrite map_update_row_uuids; exact Hnd|].
    unfold covered in *. rewrite List.Forall_forall in *. intros r' Hin.
    apply in_map_iff in Hin as (r & <- & Hin). specialize (Hcov r Hin).
    unfold update_row, has_uuid.
    destruct (String.eqb_spec (row_uuid r) uuid) as [E|E]; [|exact Hcov].
    rewrite (unique_first _ _ _ _ Hnd Hrow Hin E) in *. cbn [fold_left].
    destruct (set_hold_cells row (row_hold row + value)) as (Hb & Hh & _).
    rewrite Hb, Hh, clamp64_fits by exact Hfits. lia.
Qed.

Lemma serve_covered c app :
  locked app = ∅ -> unique_uuids (table app) -> covered (table app) ->
  unique_uuids (table (serve c app)) /\ covered (table (serve c app)).
Proof.
  intros Hl Hnd Hcov. unfold table in *.
  assert (forall o t,
            unique_uuids (users (app_conn (snd (handler o t app)))) /\
            covered (users (app_conn (snd (handler o t app))))) as Hop.
  { intros o t. rewrite handler_cases.
    destruct (parse_amount t) as [e|[uj v]] eqn:Hp.
    - destruct (except_ _ e); split; assumption.
    - destruct uj; try (split; assumption).
      destruct (run_locked_unlocked (locked_body o) s v app Hl) as (-> & _ & _).
      apply locked_body_covered; try assumption.
      eapply parse_amount_nonneg, Hp. }
  destruct c as [t|t|t|t|]; simpl.
  - split; assumption.
  - destruct (handle_status_keeps t app) as [Hu _]. unfold table in Hu.
    rewrite Hu. split; assumption.
  - apply (Hop Add).
  - apply (Hop Subtract).
  - split.
    + unfold unique_uuids in *. rewrite List.map_map. simpl.
      rewrite <- (List.map_map (fun r => r) row_uuid), List.map_id. exact Hnd.
    + unfold covered in *. rewrite List.Forall_forall in *. intros r' Hin.
      apply in_map_iff in Hin as (r & <- & Hin). specialize (Hcov r Hin).
      destruct (settle_row_cells r) as (Hb & Hh & _). rewrite Hb, Hh.
      pose proof (row_balance_range r). unfold clamp64, INT64_MIN, INT64_MAX in *.
      simpl in Hcov. lia.
Qed.

(** X11. Served one after the other, requests and rounds of settlement
    keep every hold covered: from a table with distinct uuids in which
    [0 <= hold <= balance] in every row, and with no lock locked, any
    sequence of calls, whatever their bodies, leaves a table in which
    [0 <= hold <= balance] in every row; so no balance is negative. *)
Theorem session_keeps_holds_covered calls app :
  locked app = ∅ ->
  unique_uuids (table app) ->
  covered (table app) ->
  covered (table (session calls app)) /\
  Forall (fun r => 0 <= row_balance r) (table (session calls app)).
Proof.
  intros Hl Hnd Hcov.
  assert (covered (table (session calls app))) as H.
  { unfold session. revert app Hl Hnd Hcov.
    induction calls as [|c calls IH]; intros app Hl Hnd Hcov; [exact Hcov|].
    simpl. destruct (serve_covered c app Hl Hnd Hcov).
    apply IH; try assumption. apply serve_unlocked, Hl. }
  split; [exact H|]. eapply Forall_impl; [exact H|]. intros r Hr. simpl in Hr. lia.
Qed.

Lemma session_keeps_holds_covered_witness :
  covered (table (session [Credit (amount_request "a1" (JInt 50));
                           Reserve (amount_request "a1" (JInt 120));
                           Tick;
                           Reserve (amount_request "a1" (JInt 31))]
                    (idle_app [account 100 0]))) /\
  Forall (fun r => 0 <= row_balance r)
    (table (session [Credit (amount_request "a1" (JInt 50));
                     Reserve (amount_request "a1" (JInt 120));
                     Tick;
                     Reserve (amount_request "a1" (JInt 31))]
              (idle_app [account 100 0]))).
Proof.
  apply session_keeps_holds_covered.
  - reflexivity.
  - repeat constructor. intros H. inversion H.
  - constructor; [|constructor]. change (0 <= 0 <= 100). lia.
Defined.

Lemma handler_request_unlocked o id amount app :
  0 <= amount -> locked app = ∅ ->
  fst (handler o (amount_request id (JInt amount)) app)
    = on_exit (fst (locked_body o id amount (app_conn app))) /\
  app_conn (snd (handler o (amount_request id (JInt amount)) app))
    = snd (locked_body o id amount (app_conn app)) /\
  locked (snd (handler o (amount_request id (JInt amount)) app)) = ∅.
Proof.
  intros Hnn Hl. rewrite handler_cases, parse_amount_request by assumption.
  destruct (run_locked_unlocked (locked_body o) id amount app Hl) as (H1 & H2 & H3).
  repeat split; assumption.
Qed.

Lemma update_row_twice u col v1 v2 r :
  update_row u [(col, v2)] (update_row u [(col, v1)] r) = update_row u [(col, v2)] r.
Proof.
  unfold update_row. destruct (has_uuid u r) eqn:E; [|rewrite E; reflexivity].
  simpl. rewrite has_uuid_set_column, E. destruct col; reflexivity.
Qed.

Lemma map_update_row_twice u col v1 v2 t :
  List.map (update_row u [(col, v2)]) (List.map (update_row u [(col, v1)]) t)
  = List.map (update_row u [(col, v2)]) t.
Proof.
  rewrite List.map_map. apply List.map_ext. intros r. apply update_row_twice.
Qed.

(** X12. Two credits on a uuid, one after the other, leave the table that
    the one credit of the sum leaves, and are both answered as it is, when
    the balance with both amounts fits in 64 bits. *)
Theorem credits_add_up app id a b :
  0 <= a -> 0 <= b -> locked app = ∅ ->
  (forall row, fetchone (table app) id = Some row ->
               row_balance row + (a + b) <= INT64_MAX) ->
  table (snd (handle_add (amount_request id (JInt b))
                (snd (handle_add (amount_request id (JInt a)) app))))
    = table (snd (handle_add (amount_request id (JInt (a + b))) app)) /\
  fst (handle_add (amount_request id (JInt a)) app)
    = fst (handle_add (amount_request id (JInt (a + b))) app) /\
  fst (handle_add (amount_request id (JInt b))
         (snd (handle_add (amount_request id (JInt a)) app)))
    = fst (handle_add (amount_request id (JInt (a + b))) app).
Proof.
  intros Ha Hb Hl Hfit. unfold table in *.
  destruct (handler_request_unlocked Add id a app Ha Hl) as (Ho1 & Hc1 & Hl1).
  destruct (handler_request_unlocked Add id b _ Hb Hl1) as (Ho2 & Hc2 & _).
  destruct (handler_request_unlocked Add id (a + b) app ltac:(lia) Hl) as (Ho3 & Hc3 & _).
  simpl handler in *. rewrite Ho1, Ho2, Ho3, Hc2, Hc1, Hc3. simpl locked_body.
  clear Ho1 Ho2 Ho3 Hc1 Hc2 Hc3 Hl1.
  rewrite !add_locked_cases.
  destruct (fetchone (users (app_conn app)) id) as [row|] eqn:Hrow.
  - destruct (py_bool (row_status row)) eqn:Hact; simpl.
    + specialize (Hfit row eq_refl). pose proof (row_balance_range row) as Hr.
      unfold INT64_MIN in Hr.
      assert (fits64 (row_balance row + a) = true) as F1
        by (apply fits64_spec; unfold INT64_MIN; lia).
      assert (fits64 (row_balance row + a + b) = true) as F2
        by (apply fits64_spec; unfold INT64_MIN; lia).
      assert (fits64 (row_balance row + (a + b)) = true) as F3
        by (apply fits64_spec; unfold INT64_MIN; lia).
      rewrite !update_one_eq, F1, F3. cbn [fst snd users execute].
      rewrite fetchone_update. rewrite Hrow.
      cbn [fmap option_fmap option_map fold_left].
      destruct (set_balance_cells row (row_balance row + a)) as (Eb & _ & Es).
      rewrite Es, Hact, Eb, clamp64_fits by exact F1.
      rewrite update_one_eq, F2. cbn [fst snd users execute].
      rewrite map_update_row_twice, Z.add_assoc. repeat split; reflexivity.
    + rewrite Hrow, Hact. repeat split; reflexivity.
  - simpl. rewrite Hrow. repeat split; reflexivity.
Qed.

Lemma credits_add_up_witness :
  table (snd (handle_add (amount_request "a1" (JInt 7))
                (snd (handle_add (amount_request "a1" (JInt 5))
                        (idle_app [account 100 0])))))
  = [account 112 0].
Proof.
  destruct (credits_add_up (idle_app [account 100 0]) "a1" 5 7) as (H & _ & _);
    [lia | lia | reflexivity | |].
  - intros row [= <-]. vm_compute. discriminate.
  - rewrite H. vm_compute. reflexivity.
Defined.

(** X13. Two reserves on an active account, one after the other, are both
    answered 200 exactly when the one reserve of the sum is, and then they
    leave the table that it leaves. *)
Theorem reserves_add_up app id a b row :
  0 <= a -> 0 <= b -> locked app = ∅ ->
  fetchone (table app) id = Some row ->
  py_bool (row_status row) = true ->
  (fst (handle_subtract (amount_request id (JInt a)) app) = Returned ok_response /\
   fst (handle_subtract (amount_request id (JInt b))
          (snd (handle_subtract (amount_request id (JInt a)) app)))
     = Returned ok_response
   <-> fst (handle_subtract (amount_request id (JInt (a + b))) app)
       = Returned ok_response) /\
  (fst (handle_subtract (amount_request id (JInt (a + b))) app) = Returned ok_response ->
   table (snd (handle_subtract (amount_request id (JInt b))
                 (snd (handle_subtract (amount_request id (JInt a)) app))))
   = table (snd (handle_subtract (amount_request id (JInt (a + b))) app))).
Proof.
  intros Ha Hb Hl Hrow Hact. unfold table in *.
  destruct (handler_request_unlocked Subtract id a app Ha Hl) as (Ho1 & Hc1 & Hl1).
  destruct (handler_request_unlocked Subtract id b _ Hb Hl1) as (Ho2 & Hc2 & _).
  destruct (handler_request_unlocked Subtract id (a + b) app ltac:(lia) Hl)
    as (Ho3 & Hc3 & _).
  simpl handler in *. rewrite Ho1, Ho2, Ho3, Hc2, Hc1, Hc3. simpl locked_body.
  clear Ho1 Ho2 Ho3 Hc1 Hc2 Hc3 Hl1.
  rewrite !subtract_locked_cases, Hrow, Hact.
  pose proof (row_balance_range row) as Hrb. pose proof (row_hold_range row) as Hrh.
  unfold INT64_MIN, INT64_MAX in Hrb, Hrh.
  destruct (set_hold_cells row (row_hold row + a)) as (Eb & Eh & Es).
  destruct (Z.leb_spec (row_hold row + (a + b)) (row_balance row)) as [Hs|Hs].
  - destruct (Z.leb_spec (row_hold row + a) (row_balance row)) as [H1|H1]; [|lia].
    assert (fits64 (row_hold row + a) = true) as F1
      by (apply fits64_spec; unfold INT64_MIN, INT64_MAX; lia).
    assert (fits64 (row_hold row + a + b) = true) as F2
      by (apply fits64_spec; unfold INT64_MIN, INT64_MAX; lia).
    assert (fits64 (row_hold row + (a + b)) = true) as F3
      by (apply fits64_spec; unfold INT64_MIN, INT64_MAX; lia).
    rewrite !update_one_eq, F1, F3. cbn [fst snd users execute].
    rewrite fetchone_update. rewrite Hrow.
    cbn [fmap option_fmap option_map fold_left].
    rewrite Es, Hact, Eb, Eh, clamp64_fits by exact F1.
    destruct (Z.leb_spec (row_hold row + a + b) (row_balance row)) as [H2|H2]; [|lia].
    rewrite update_one_eq, F2. cbn [fst snd users execute].
    rewrite map_update_row_twice, Z.add_assoc.
    split; [split; intros; repeat split; reflexivity | reflexivity].
  - split; [|discriminate]. split; [|discriminate]. intros [H1 H2]. exfalso.
    destruct (Z.leb_spec (row_hold row + a) (row_balance row)) as [H1'|H1'];
      [|discriminate].
    rewrite update_one_eq in H1, H2.
    destruct (fits64 (row_hold row + a)) eqn:F1; [|discriminate].
    cbn [fst snd users execute] in H2.
    rewrite fetchone_update in H2. rewrite Hrow in H2.
    cbn [fmap option_fmap option_map fold_left] in H2.
    rewrite Es, Hact, Eb, Eh, clamp64_fits in H2 by exact F1.
    destruct (Z.leb_spec (row_hold row + a + b) (row_balance row)); [lia | discriminate].
Qed.

Lemma reserves_add_up_witness :
  table (snd (handle_subtract (amount_request "a1" (JInt 30))
                (snd (handle_subtract (amount_request "a1" (JInt 20))
                        (idle_app [account 100 0])))))
  = [account 100 50].
Proof.
  destruct (reserves_add_up (idle_app [account 100 0]) "a1" 20 30 (account 100 0))
    as (_ & H); [lia | lia | reflexivity | reflexivity | reflexivity |].
  rewrite H; vm_compute; reflexivity.
Defined.

(** X14. After a credit that is answered 200, [handle_status] on the uuid
    reports the balance that the credit wrote and the hold as it was; after
    a reserve that is answered 200 it reports the hold that the reserve
    wrote and the balance as it was. *)
Theorem status_after_operation o app id amount row :
  0 <= amount -> locked app = ∅ ->
  fetchone (table app) id = Some row ->
  fst (handler o (amount_request id (JInt amount)) app) = Returned ok_response ->
  fst (handle_status (status_request id)
         (snd (handler o (amount_request id (JInt amount)) app)))
  = Returned (make_response 200 true
                (JDict [("balance",
                         JInt (match o with
                               | Add => row_balance row + amount
                               | Subtract => row_balance row
                               end));
                        ("hold",
                         JInt (match o with
                               | Add => row_hold row
                               | Subtract => row_hold row + amount
                               end));
                        ("status", JBool true)])
                (JDict [])).
Proof.
  intros Hnn Hl Hrow Hok.
  rewrite handle_status_request.
  destruct (handler_request_unlocked o id amount app Hnn Hl) as (Ho & Hc & _).
  rewrite Ho in Hok. apply on_exit_ok in Hok.
  unfold table in *. rewrite Hc.
  destruct o; simpl in *; rewrite ?add_locked_cases, ?subtract_locked_cases in *;
    rewrite Hrow in *; destruct (py_bool (row_status row)) eqn:Hact; try discriminate.
  - rewrite update_one_eq in *.
    destruct (fits64 (row_balance row + amount)) eqn:F; [|discriminate].
    cbn [fst snd users execute]. rewrite fetchone_update. rewrite Hrow.
    cbn [fmap option_fmap option_map fold_left].
    destruct (set_balance_cells row (row_balance row + amount)) as (Eb & Eh & Es).
    rewrite Eb, Eh, Es, clamp64_fits by exact F.
    unfold py_bool in Hact. rewrite Hact. reflexivity.
  - destruct (row_hold row + amount <=? row_balance row); [|discriminate].
    rewrite update_one_eq in *.
    destruct (fits64 (row_hold row + amount)) eqn:F; [|discriminate].
    cbn [fst snd users execute]. rewrite fetchone_update. rewrite Hrow.
    cbn [fmap option_fmap option_map fold_left].
    destruct (set_hold_cells row (row_hold row + amount)) as (Eb & Eh & Es).
    rewrite Eb, Eh, Es, clamp64_fits by exact F.
    unfold py_bool in Hact. rewrite Hact. reflexivity.
Qed.

Lemma status_after_operation_witness :
  fst (handle_status (status_request "a1")
         (snd (handle_subtract (amount_request "a1" (JInt 30))
                 (idle_app [account 150 0]))))
  = Returned (make_response 200 true
                (JDict [("balance", JInt 150); ("hold", JInt 30);
                        ("status", JBool true)])
                (JDict [])).
Proof.
  apply (status_after_operation Subtract (idle_app [account 150 0]) "a1" 30
           (account 150 0)); try reflexivity. lia.
Defined.

(** * Further properties of the settlement loop *)

Lemma settle_row_twice r : settle_row (settle_row r) = settle_row r.
Proof.
  destruct (settle_row_cells r) as (Hb & Hh & Hs).
  destruct (settle_row_cells (settle_row r)) as (Hb' & Hh' & Hs').
  apply user_row_eq; try reflexivity; try congruence.
  rewrite Hb', Hb, Hh. unfold clamp64, INT64_MIN, INT64_MAX. lia.
Qed.

Lemma users_settled_S n c :
  users (settled (S n) c) = List.map settle_row (users (settled n c)).
Proof. reflexivity. Qed.

Lemma journal_settled_S n c :
  journal (settled (S n) c) = journal (settled n c) ++ [UpdateAll; Commit].
Proof.
  change (settled (S n) c) with (snd (settle StoreOk (settled n c))).
  simpl. rewrite <- app_assoc. reflexivity.
Qed.

Lemma users_settled_one n c :
  users (settled (S n) c) = List.map settle_row (users c).
Proof.
  induction n as [|n IH]; [reflexivity|].
  rewrite users_settled_S, IH, List.map_map.
  apply List.map_ext. intros r. apply settle_row_twice.
Qed.

(** X15. After its first round the settlement loop changes no row as long
    as no other statement runs: [n + 1] rounds in a row leave the table of
    one round, in which every hold is 0. The rounds keep [balance - hold]
    in every row in which it fits in 64 bits, and the [n] rounds execute
    [n] statements and [n] commits. *)
Theorem settlement_rounds n c :
  users (settled (S n) c) = List.map settle_row (users c) /\
  Forall (fun r => row_hold r = 0) (users (settled (S n) c)) /\
  Forall2 (fun r r' => (fits64 (row_balance r - row_hold r) = true ->
                        row_balance r' - row_hold r' = row_balance r - row_hold r) /\
                       row_uuid r' = row_uuid r)
          (users c) (users (settled n c)) /\
  journal (settled n c) = journal c ++ concat (repeat [UpdateAll; Commit] n).
Proof.
  split; [apply users_settled_one|]. split; [|split].
  - rewrite users_settled_one. apply List.Forall_forall. intros r' Hin.
    apply in_map_iff in Hin as (r & <- & _). apply settle_row_cells.
  - destruct n as [|n].
    + simpl. induction (users c); constructor; auto.
    + rewrite users_settled_one.
      induction (users c) as [|r t IH]; simpl; constructor; [|exact IH].
      split; [|reflexivity]. intros Hfits.
      destruct (settle_row_cells r) as (-> & -> & _).
      rewrite clamp64_fits by exact Hfits. lia.
  - induction n as [|n IH]; [simpl; rewrite app_nil_r; reflexivity|].
    rewrite journal_settled_S, IH, <- app_assoc. f_equal.
    replace (S n) with (n + 1)%nat by lia.
    rewrite repeat_app, concat_app. simpl. reflexivity.
Qed.

Lemma settled_shift n c : settled n (snd (settle StoreOk c)) = settled (S n) c.
Proof.
  induction n as [|n IH]; [reflexivity|].
  change (settled (S n) (snd (settle StoreOk c)))
    with (snd (settle StoreOk (settled n (snd (settle StoreOk c))))).
  rewrite IH. reflexivity.
Qed.

(** X16. Once [main] has started, it stays in its [gather] exactly as long
    as the store has served every round of the settlement loop, and then
    the connection is the one that the rounds leave; as soon as one round
    fails, [main] ends with the exception of the first round that failed.
    When [aiosqlite.connect], [runner.setup()] or [site.start()] raises,
    [main] ends with that exception, whatever the rounds would be. *)
Theorem main_runs_while_store_serves rounds c :
  ((exists c', main Started rounds c = Gathering c')
   <-> Forall (fun ev => ev = StoreOk) rounds) /\
  (Forall (fun ev => ev = StoreOk) rounds ->
   main Started rounds c = Gathering (settled (length rounds) c)) /\
  (forall e, main Started rounds c = Ended e ->
     exists n later,
       rounds = repeat StoreOk n ++ ExecuteFails e :: later \/
       rounds = repeat StoreOk n ++ CommitFails e :: later) /\
  (forall e, main (ConnectFails e) rounds c = Ended e /\
             main (SetupFails e) rounds c = Ended e /\
             main (StartFails e) rounds c = Ended e).
Proof.
  assert (forall rounds c,
            (Forall (fun ev => ev = StoreOk) rounds /\
             auto_update_hold rounds c = Sleeping (settled (length rounds) c)) \/
            (exists n e later c',
               (rounds = repeat StoreOk n ++ ExecuteFails e :: later \/
                rounds = repeat StoreOk n ++ CommitFails e :: later) /\
               auto_update_hold rounds c = Raised e c')) as Hcases.
  { clear. induction rounds as [|ev rounds IH]; intros c.
    - left. split; [constructor | reflexivity].
    - destruct ev as [|e|e].
      + destruct (IH (snd (settle StoreOk c))) as [[Hall Hs]|(n & e & later & c' & Hr & Hs)].
        * left. split; [constructor; [reflexivity | exact Hall]|].
          cbn [auto_update_hold length].
          change (settle StoreOk c)
            with (@inr exn unit tt, snd (settle StoreOk c)).
          cbv iota. rewrite Hs, settled_shift. reflexivity.
        * right. exists (S n), e, later, c'. split; [|exact Hs].
          destruct Hr as [-> | ->]; [left | right]; reflexivity.
      + right. exists 0%nat, e, rounds, c. split; [left; reflexivity | reflexivity].
      + right. exists 0%nat, e, rounds. eexists. split; [right; reflexivity | reflexivity].
  }
  split; [|split; [|split]]; [| | |repeat split].
  all: unfold main; destruct (Hcases rounds c) as [[Hall Hs]|(n & e & later & c' & Hr & Hs)];
    rewrite Hs.
  - split; [intros _; exact Hall | eauto].
  - split.
    + intros [c0 H]. discriminate.
    + intros Hall. exfalso. rewrite List.Forall_forall in Hall.
      destruct Hr as [-> | ->];
        match goal with |- _ =>
          specialize (Hall _ (in_elt _ _ _)); discriminate end.
  - reflexivity.
  - intros Hall. exfalso. rewrite List.Forall_forall in Hall.
    destruct Hr as [-> | ->];
      match goal with |- _ =>
        specialize (Hall _ (in_elt _ _ _)); discriminate end.
  - discriminate.
  - intros e0 [= <-]. exists n, later. exact Hr.
Qed.

(** * Further properties of the handlers, interleaved *)

Lemma fold_set_column_hold params r :
  0 <= row_hold r ->
  Forall (fun kv => fst kv = Chold -> 0 <= snd kv) params ->
  0 <= row_hold (fold_left set_column params r).
Proof.
  revert r. induction params as [|[k v] params IH]; intros r Hr Hp; [exact Hr|].
  apply Forall_cons in Hp as [Hk Hp]. simpl. apply IH; [|exact Hp].
  destruct k.
  - destruct (set_balance_cells r v) as (_ & -> & _). exact Hr.
  - destruct (set_hold_cells r v) as (_ & -> & _). specialize (Hk eq_refl).
    simpl in Hk. unfold clamp64, INT64_MIN, INT64_MAX. lia.
  - destruct (set_status_cells r v) as (_ & -> & _). exact Hr.
Qed.

Lemma fetchone_In t u row : fetchone t u = Some row -> In row t.
Proof.
  unfold fetchone. intros H. apply find_first in H as (b & a & -> & _).
  apply in_elt.
Qed.

Lemma advance_holds tk app tk' app' :
  Forall (fun r => 0 <= row_hold r) (table app) ->
  nonneg_task tk ->
  advance tk app = Some (tk', app') ->
  Forall (fun r => 0 <= row_hold r) (table app') /\ nonneg_task tk'.
Proof.
  intros Ht Htk Hadv.
  destruct tk as [o t|o u v l|o u v l|o u l params|o u l|out]; simpl in Hadv.
  - injection Hadv as Harr. unfold arrive in Harr.
    destruct (parse_amount t) as [e|[uj v]] eqn:Hp.
    + destruct (except_ _ e); injection Harr as <- <-; split; simpl; auto.
    + destruct uj; try (injection Harr as <- <-; split; simpl; auto; fail).
      pose proof (enter_table s app) as Hen.
      destruct (locked_rows_enter s app) as [l app1]. injection Harr as <- <-.
      simpl in Hen. rewrite Hen. split; [exact Ht|].
      simpl. eapply parse_amount_nonneg, Hp.
  - destruct (bool_decide _); [discriminate|]. injection Hadv as <- <-.
    split; assumption.
  - injection Hadv as Hsel. unfold selected in Hsel.
    rewrite with_conn_eq, get_user_data_eq in Hsel. simpl in Hsel.
    set (app1 := on_conn _ app) in Hsel.
    assert (table app1 = table app) as Ht1 by reflexivity.
    destruct (fetchone (users (app_conn app)) u) as [row|] eqn:Hrow; simpl in Hsel.
    + destruct (prepare o _ v) as [e|params] eqn:Hprep.
      * pose proof (leave_table u l (inl e) app1) as Hlt.
        destruct (leave_is_done u l (inl e) app1) as [out Hout].
        rewrite Hsel in Hlt, Hout. simpl in *. subst tk'.
        rewrite Hlt, Ht1. split; [exact Ht | exact I].
      * injection Hsel as <- <-. rewrite Ht1. split; [exact Ht|].
        simpl. unfold prepare in Hprep. simpl in Hprep.
        destruct (negb (py_bool (row_status row))); [discriminate|].
        destruct o.
        -- injection Hprep as <-. repeat constructor. simpl. discriminate.
        -- destruct (negb _); [discriminate|]. injection Hprep as <-.
           repeat constructor. simpl. intros _.
           apply fetchone_In in Hrow. unfold table in Ht.
           rewrite List.Forall_forall in Ht. specialize (Ht _ Hrow).
           simpl in Htk. lia.
    + pose proof (leave_table u l (inl (Exn UserNotFound "uuid not found")) app1) as Hlt.
      destruct (leave_is_done u l (inl (Exn UserNotFound "uuid not found")) app1)
        as [out Hout].
      rewrite Hsel in Hlt, Hout. simpl in *. subst tk'.
      rewrite Hlt, Ht1. split; [exact Ht | exact I].
  - destruct (refused params) as [e|].
    + injection Hadv as Hleave.
      pose proof (leave_table u l (inl e) app) as Hlt.
      destruct (leave_is_done u l (inl e) app) as [out Hout].
      rewrite Hleave in Hlt, Hout. simpl in *. subst tk'.
      rewrite Hlt. split; [exact Ht | exact I].
    + injection Hadv as <- <-. split; [|exact I]. unfold table in *. simpl.
      rewrite List.Forall_forall in *. intros r' Hin.
      apply in_map_iff in Hin as (r & <- & Hin). specialize (Ht r Hin).
      unfold update_row. destruct (has_uuid u r); [|exact Ht].
      apply fold_set_column_hold; [exact Ht | exact Htk].
  - injection Hadv as Hleave. set (app1 := on_conn _ app) in Hleave.
    pose proof (leave_table u l (inr tt) app1) as Hlt.
    destruct (leave_is_done u l (inr tt) app1) as [out Hout].
    rewrite Hleave in Hlt, Hout. simpl in *. subst tk'.
    rewrite Hlt. split; [exact Ht | exact I].
  - discriminate.
Qed.

Lemma run_holds s s' :
  Forall (fun r => 0 <= row_hold r) (table (fst s)) -> Forall nonneg_task (snd s) ->
  run s s' ->
  Forall (fun r => 0 <= row_hold r) (table (fst s')) /\ Forall nonneg_task (snd s').
Proof.
  intros Ht Hts Hrun.
  destruct Hrun as [s1 s2 Hstep|app ts o t|app ts]; simpl in *.
  - destruct Hstep as [app app' before tk tk' after Hadv]. simpl in *.
    apply Forall_app in Hts as [Hb Hts]. apply Forall_cons in Hts as [Htk Ha].
    destruct (advance_holds _ _ _ _ Ht Htk Hadv) as [Ht' Htk'].
    split; [exact Ht'|]. apply Forall_app. split; [exact Hb|].
    apply Forall_cons. split; assumption.
  - split; [exact Ht|]. apply Forall_app. split; [exact Hts|].
    repeat constructor.
  - split; [|exact Hts]. unfold table. simpl.
    apply List.Forall_forall. intros r' Hin.
    apply in_map_iff in Hin as (r & <- & _).
    destruct (settle_row_cells r) as (_ & -> & _). lia.
Qed.

(** X17. No hold is ever negative: from a table in which no hold is
    negative and with no request in flight, whatever requests arrive,
    however the event loop interleaves their handlers, and whenever the
    rounds of settlement run, no row has a negative hold. *)
Theorem hold_never_negative s0 s :
  quiescent s0 ->
  Forall (fun r => 0 <= row_hold r) (table (fst s0)) ->
  rtc run s0 s ->
  Forall (fun r => 0 <= row_hold r) (table (fst s)).
Proof.
  intros (_ & _ & Hidle) Ht Hrun.
  assert (Forall nonneg_task (snd s0)) as Hts.
  { eapply Forall_impl; [exact Hidle|]. intros tk Hk. destruct tk; simpl in *; auto;
      discriminate. }
  clear Hidle.
  induction Hrun as [s|s1 s2 s3 Hrun _ IH]; [exact Ht|].
  destruct (run_holds _ _ Ht Hts Hrun). apply IH; assumption.
Qed.

Lemma held_credit_raced_reachable : rtc run held_credit held_credit_raced.
Proof.
  apply rtc_trans with held_credit_read.
  - apply (nsteps_run 3), (schedule_nsteps [0; 0; 0]%nat). vm_compute. reflexivity.
  - apply rtc_l with (settle_round held_credit_read).
    + apply (run_settle (fst held_credit_read) (snd held_credit_read)).
    + apply (nsteps_run 2), (schedule_nsteps [0; 0]%nat). vm_compute. reflexivity.
Qed.

Lemma hold_never_negative_witness :
  Forall (fun r => 0 <= row_hold r) (table (fst held_credit_raced)).
Proof.
  apply (hold_never_negative held_credit held_credit_raced).
  - repeat split. repeat constructor.
  - constructor; [|constructor]. change (0 <= 30). lia.
  - exact held_credit_raced_reachable.
Defined.

Lemma weight_le tk : (weight tk <= 5)%nat.
Proof. destruct tk; simpl; lia. Qed.

Lemma total_weight_le ts : (total_weight ts <= 5 * length ts)%nat.
Proof.
  unfold total_weight. induction ts as [|tk ts IH]; simpl; [lia|].
  pose proof (weight_le tk). lia.
Qed.

Lemma nsteps_length n s s' : nsteps step n s s' -> length (snd s') = length (snd s).
Proof.
  induction 1 as [s|n s1 s2 s3 Hstep _ IH]; [reflexivity|].
  rewrite IH. destruct Hstep. simpl. rewrite !length_app. reflexivity.
Qed.

(** X18. Every request that was received is handled to its end: from a
    state with no request in flight, whatever the requests are and in
    whatever order the event loop resumes their handlers, an execution has
    five steps per request at most, and as long as a handler has not
    returned a step is possible; no handler waits for ever. *)
Theorem handlers_run_to_completion s0 n s :
  quiescent s0 ->
  nsteps step n s0 s ->
  (n <= 5 * length (snd s0))%nat /\
  length (snd s) = length (snd s0) /\
  ((exists s', step s s') \/ Forall (fun tk => is_done tk = true) (snd s)).
Proof.
  intros Hq Hn. destruct (quiescent_ok _ Hq) as [HR HL].
  destruct (nsteps_preserves _ _ _ HR HL Hn) as [_ HL'].
  split; [|split].
  - pose proof (nsteps_weight _ _ _ Hn). pose proof (total_weight_le (snd s0)). lia.
  - eapply nsteps_length, Hn.
  - apply progress, HL'.
Qed.

Lemma handlers_run_to_completion_witness :
  (10 <= 5 * length (snd two_credits))%nat /\
  length (snd two_credits_done) = length (snd two_credits) /\
  ((exists s', step two_credits_done s') \/
   Forall (fun tk => is_done tk = true) (snd two_credits_done)).
Proof.
  apply (handlers_run_to_completion two_credits 10 two_credits_done).
  - exact two_credits_quiescent.
  - apply (schedule_nsteps [0; 1; 0; 0; 0; 0; 1; 1; 1; 1]%nat).
    vm_compute. reflexivity.
Defined.

(** X19. The registry keeps nothing of the requests that have been
    handled: in a state that the service reaches in which no handler is in
    flight, [locked_rows] is empty and no lock is locked. *)
Theorem registry_empty_when_idle s0 s :
  quiescent s0 ->
  rtc run s0 s ->
  Forall (fun tk => task_key tk = None) (snd s) ->
  locked_rows (fst s) = ∅ /\ locked (fst s) = ∅.
Proof.
  intros Hq Hrun Hidle. destruct (reachable_ok _ _ Hq Hrun) as [HR HL]. split.
  - apply map_eq. intros u. rewrite lookup_empty. specialize (HR u).
    destruct (locked_rows (fst s) !! u) as [[l c]|]; [|reflexivity].
    destruct HR as (Hc & Hpos & _). exfalso.
    assert (in_flight u (snd s) = 0%nat) as Hz.
    { apply count_zero_Forall. eapply Forall_impl; [exact Hidle|].
      intros tk Hk. apply on_key_false. congruence. }
    lia.
  - apply set_eq. intros l. split; [|intros H; exfalso; revert H; apply not_elem_of_empty].
    intros Hin. exfalso. specialize (HL l).
    rewrite bool_decide_eq_true_2 in HL by exact Hin.
    assert (count (holding l) (snd s) = 0%nat) as Hz.
    { apply count_zero_Forall. eapply Forall_impl; [exact Hidle|].
      intros tk Hk. apply holding_false.
      rewrite (idle_task_holds_nothing _ Hk). discriminate. }
    lia.
Qed.

Lemma registry_empty_when_idle_witness :
  locked_rows (fst two_credits_done) = ∅ /\ locked (fst two_credits_done) = ∅.
Proof.
  apply (registry_empty_when_idle two_credits two_credits_done).
  - exact two_credits_quiescent.
  - apply (nsteps_run 10), (schedule_nsteps [0; 1; 0; 0; 0; 0; 1; 1; 1; 1]%nat).
    vm_compute. reflexivity.
  - vm_compute. repeat constructor.
Defined.

(** ** Handlers on different uuids *)

Lemma enter_entries_ok uuid app :
  entries_ok app -> entries_ok (snd (locked_rows_enter uuid app)).
Proof.
  intros [HF HI]. unfold locked_rows_enter.
  destruct (locked_rows app !! uuid) as [[l0 c0]|] eqn:E; simpl; split; simpl.
  - intros u l c. rewrite lookup_insert. case_decide as Hu.
    + intros [= <- <-]. specialize (HF _ _ _ E). lia.
    + intros H. specialize (HF _ _ _ H). lia.
  - intros u u' l c c'. rewrite !lookup_insert.
    case_decide as Hu; case_decide as Hu'; subst; try congruence.
    + intros [= <- <-] H. symmetry. eapply HI; eassumption.
    + intros H [= <- <-]. eapply HI; eassumption.
    + apply HI.
  - intros u l c. rewrite lookup_insert. case_decide as Hu.
    + intros [= <- <-]. lia.
    + intros H. specialize (HF _ _ _ H). lia.
  - intros u u' l c c'. rewrite !lookup_insert.
    case_decide as Hu; case_decide as Hu'; subst; try congruence.
    + intros [= <- <-] H. specialize (HF _ _ _ H). lia.
    + intros H [= <- <-]. specialize (HF _ _ _ H). lia.
    + apply HI.
Qed.

Lemma leave_entries_ok uuid l res app :
  entries_ok app -> entries_ok (snd (leave uuid l res app)).
Proof.
  intros [HF HI]. unfold leave, finally_leave, locked_rows_leave, release. simpl.
  destruct (locked_rows app !! uuid) as [[l0 c0]|] eqn:E; simpl; [|split; assumption].
  destruct (c0 =? 1); split; simpl.
  - intros u l1 c. rewrite lookup_delete. case_decide; [discriminate|]. apply HF.
  - intros u u' l1 c c'. rewrite !lookup_delete.
    case_decide; [discriminate|]. case_decide; [discriminate|]. apply HI.
  - intros u l1 c. rewrite lookup_insert. case_decide as Hu.
    + intros [= <- <-]. eapply HF, E.
    + apply HF.
  - intros u u' l1 c c'. rewrite !lookup_insert.
    case_decide as Hu; case_decide as Hu'; subst; try congruence.
    + intros [= <- <-] H. symmetry. eapply HI; eassumption.
    + intros H [= <- <-]. eapply HI; eassumption.
    + apply HI.
Qed.

Lemma entries_ok_same app app' :
  locked_rows app' = locked_rows app -> created app' = created app ->
  entries_ok app -> entries_ok app'.
Proof. unfold entries_ok. intros -> ->. exact (fun H => H). Qed.

Lemma advance_entries_ok tk app tk' app' :
  entries_ok app -> advance tk app = Some (tk', app') -> entries_ok app'.
Proof.
  intros He Hadv.
  destruct tk as [o t|o u v l|o u v l|o u l params|o u l|out]; simpl in Hadv.
  - injection Hadv as Harr. unfold arrive in Harr.
    destruct (parse_amount t) as [e|[uj v]].
    + destruct (except_ _ e); injection Harr as _ <-; exact He.
    + destruct uj; try (injection Harr as _ <-; exact He).
      pose proof (enter_entries_ok s app He) as H.
      destruct (locked_rows_enter s app). injection Harr as _ <-. exact H.
  - destruct (bool_decide _); [discriminate|]. injection Hadv as _ <-. exact He.
  - injection Hadv as Hsel. unfold selected in Hsel. rewrite with_conn_eq in Hsel.
    simpl in Hsel.
    set (app1 := on_conn _ app) in Hsel.
    assert (entries_ok app1) as He1 by exact He.
    destruct (fst (get_user_data_by_uuid u (app_conn app))) as [e|ud].
    + pose proof (leave_entries_ok u l (inl e) app1 He1) as H.
      rewrite Hsel in H. exact H.
    + destruct (prepare o ud v) as [e|params].
      * pose proof (leave_entries_ok u l (inl e) app1 He1) as H.
        rewrite Hsel in H. exact H.
      * injection Hsel as _ <-. exact He1.
  - destruct (refused params) as [e|]; [|injection Hadv as _ <-; exact He].
    injection Hadv as Hleave.
    pose proof (leave_entries_ok u l (inl e) app He) as H.
    rewrite Hleave in H. exact H.
  - injection Hadv as Hleave. set (app1 := on_conn _ app) in Hleave.
    pose proof (leave_entries_ok u l (inr tt) app1 He) as H.
    rewrite Hleave in H. exact H.
  - discriminate.
Qed.

Lemma reachable_entries_ok s0 s :
  quiescent s0 -> rtc run s0 s -> entries_ok (fst s).
Proof.
  intros (Hrows & _ & _) Hrun.
  assert (entries_ok (fst s0)) as He.
  { split; intros *; rewrite Hrows, lookup_empty; discriminate. }
  clear Hrows. induction Hrun as [s|s1 s2 s3 Hrun _ IH]; [exact He|].
  apply IH. destruct Hrun as [? ? Hstep|app ts o t|app ts]; try exact He.
  destruct Hstep as [app app' before tk tk' after Hadv]. simpl in *.
  eapply advance_entries_ok; eassumption.
Qed.

Lemma count_pos_exists p ts :
  (0 < count p ts)%nat -> exists tk, In tk ts /\ p tk = true.
Proof.
  induction ts as [|tk ts IH]; [unfold count; simpl; lia|].
  rewrite count_cons. destruct (p tk) eqn:E.
  - intros _. exists tk. split; [left; reflexivity | exact E].
  - intros H. destruct IH as (x & Hin & Hx); [lia|].
    exists x. split; [right; exact Hin | exact Hx].
Qed.

Lemma count_zero_In p ts tk : count p ts = 0%nat -> In tk ts -> p tk = false.
Proof.
  intros H Hin. apply count_zero_Forall in H.
  rewrite List.Forall_forall in H. apply H, Hin.
Qed.

(** Under the invariants a task in flight on [u] took the lock of the
    entry of [u]. *)
Lemma task_lock_of_entry s tk u l :
  registry_ok s -> In tk (snd s) -> task_key tk = Some u -> task_lock tk = Some l ->
  exists c, locked_rows (fst s) !! u = Some (l, c).
Proof.
  intros HR Hin Hk Hl. specialize (HR u). unfold in_flight in HR.
  destruct (locked_rows (fst s) !! u) as [[l0 c0]|].
  - destruct HR as (_ & _ & Hother).
    pose proof (count_zero_In _ _ _ Hother Hin) as Hf.
    apply on_key_other_false_inv in Hf; [|exact Hk].
    exists c0. congruence.
  - exfalso. pose proof (count_zero_In _ _ _ HR Hin) as Hf.
    rewrite on_key_true in Hf by exact Hk. discriminate.
Qed.

(** X20. Handlers on different uuids do not wait for each other: in every
    state that the service reaches, a handler that waits for the lock of
    its uuid can take it as soon as no handler is inside [async with] on
    that same uuid, whatever the handlers on other uuids are doing. *)
Theorem other_uuids_do_not_block s0 s o u v l :
  quiescent s0 ->
  rtc run s0 s ->
  In (AwaitLock o u v l) (snd s) ->
  count (in_critical u) (snd s) = 0%nat ->
  advance (AwaitLock o u v l) (fst s)
    = Some (AwaitSelect o u v l, acquire l (fst s)).
Proof.
  intros Hq Hrun Hin Hfree.
  destruct (reachable_ok _ _ Hq Hrun) as [HR HL].
  destruct (reachable_entries_ok _ _ Hq Hrun) as [_ HI].
  simpl. destruct (bool_decide (l ∈ locked (fst s))) eqn:E; [|reflexivity].
  exfalso. specialize (HL l). rewrite E in HL.
  destruct (count_pos_exists (holding l) (snd s)) as (tk & Htk & Hh); [lia|].
  apply bool_decide_eq_true_1 in Hh.
  assert (exists u', task_key tk = Some u' /\ task_lock tk = Some l)
    as (u' & Hk' & Hl').
  { destruct tk; simpl in *; try discriminate; eauto. }
  destruct (task_lock_of_entry s tk u' l HR Htk Hk' Hl') as [c' Hc'].
  destruct (task_lock_of_entry s (AwaitLock o u v l) u l HR Hin eq_refl eq_refl)
    as [c Hc].
  assert (u = u') as <- by (eapply HI; eassumption).
  pose proof (count_zero_In _ _ _ Hfree Htk) as Hcrit.
  rewrite (in_critical_true u tk l Hk' Hh) in Hcrit. discriminate.
Qed.

Lemma other_uuids_do_not_block_witness :
  advance (AwaitLock Add "b2" 1 1) (fst two_uuids_midway)
  = Some (AwaitSelect Add "b2" 1 1, acquire 1 (fst two_uuids_midway)).
Proof.
  apply (other_uuids_do_not_block two_uuids two_uuids_midway).
  - repeat split. repeat constructor.
  - apply (nsteps_run 3), (schedule_nsteps [0; 1; 0]%nat). vm_compute. reflexivity.
  - vm_compute. right. left. reflexivity.
  - vm_compute. reflexivity.
Defined.

Lemma locked_body_effect o id value c :
  fst (locked_body o id value c) = snd (effect o value (fetchone (users c) id)) /\
  users (snd (locked_body o id value c))
    = write id (fst (effect o value (fetchone (users c) id))) (users c).
Proof.
  destruct o; simpl; rewrite ?add_locked_cases, ?subtract_locked_cases;
    unfold effect, attempt; destruct (fetchone (users c) id) as [row|];
    try (split; reflexivity);
    destruct (py_bool (row_status row)); try (split; reflexivity).
  - rewrite update_one_eq. cbn [snd].
    destruct (fits64 (row_balance row + value)); split; reflexivity.
  - destruct (row_hold row + value <=? row_balance row); [|split; reflexivity].
    rewrite update_one_eq. cbn [snd].
    destruct (fits64 (row_hold row + value)); split; reflexivity.
Qed.

Lemma fetchone_write_ne u u' kv t :
  u' <> u -> fetchone (write u kv t) u' = fetchone t u'.
Proof.
  intros Hne. destruct kv as [kv|]; [|reflexivity]. simpl.
  apply fetchone_update_ne, Hne.
Qed.

Lemma update_row_commute u1 u2 kv1 kv2 r :
  u1 <> u2 ->
  update_row u1 [kv1] (update_row u2 [kv2] r) = update_row u2 [kv2] (update_row u1 [kv1] r).
Proof.
  intros Hne. unfold update_row at 2 4.
  destruct (has_uuid u2 r) eqn:E2; destruct (has_uuid u1 r) eqn:E1;
    unfold update_row; rewrite ?has_uuid_fold_set, ?E1, ?E2; try reflexivity.
  unfold has_uuid in *. apply String.eqb_eq in E1, E2. congruence.
Qed.

Lemma write_commute u1 u2 kv1 kv2 t :
  u1 <> u2 -> write u1 kv1 (write u2 kv2 t) = write u2 kv2 (write u1 kv1 t).
Proof.
  intros Hne. destruct kv1 as [kv1|], kv2 as [kv2|]; try reflexivity. simpl.
  rewrite !List.map_map. apply List.map_ext. intros r.
  apply update_row_commute, Hne.
Qed.

(** X21. Operations on different uuids commute: a credit or reserve on one
    uuid and a credit or reserve on another, served one after the other in
    either order, are answered the same and leave the same table. *)
Theorem different_uuids_commute o1 o2 id1 id2 a1 a2 app :
  id1 <> id2 -> 0 <= a1 -> 0 <= a2 -> locked app = ∅ ->
  table (snd (handler o2 (amount_request id2 (JInt a2))
                (snd (handler o1 (amount_request id1 (JInt a1)) app))))
  = table (snd (handler o1 (amount_request id1 (JInt a1))
                  (snd (handler o2 (amount_request id2 (JInt a2)) app)))) /\
  fst (handler o1 (amount_request id1 (JInt a1))
         (snd (handler o2 (amount_request id2 (JInt a2)) app)))
  = fst (handler o1 (amount_request id1 (JInt a1)) app) /\
  fst (handler o2 (amount_request id2 (JInt a2))
         (snd (handler o1 (amount_request id1 (JInt a1)) app)))
  = fst (handler o2 (amount_request id2 (JInt a2)) app).
Proof.
  intros Hne H1 H2 Hl. unfold table.
  destruct (handler_request_unlocked o1 id1 a1 app H1 Hl) as (Ho1 & Hc1 & Hl1).
  destruct (handler_request_unlocked o2 id2 a2 app H2 Hl) as (Ho2 & Hc2 & Hl2).
  destruct (handler_request_unlocked o2 id2 a2 _ H2 Hl1) as (Ho21 & Hc21 & _).
  destruct (handler_request_unlocked o1 id1 a1 _ H1 Hl2) as (Ho12 & Hc12 & _).
  rewrite Ho1, Ho2, Ho21, Ho12, Hc21, Hc12, Hc1, Hc2.
  destruct (locked_body_effect o1 id1 a1 (app_conn app)) as [E1 T1].
  destruct (locked_body_effect o2 id2 a2 (app_conn app)) as [E2 T2].
  destruct (locked_body_effect o2 id2 a2 (snd (locked_body o1 id1 a1 (app_conn app))))
    as [E21 T21].
  destruct (locked_body_effect o1 id1 a1 (snd (locked_body o2 id2 a2 (app_conn app))))
    as [E12 T12].
  rewrite T1, fetchone_write_ne in E21, T21 by congruence.
  rewrite T2, fetchone_write_ne in E12, T12 by congruence.
  rewrite E21, E12, E1, E2, T21, T12.
  split; [apply write_commute; congruence | split; reflexivity].
Qed.

Lemma different_uuids_commute_witness :
  table (snd (handle_subtract (amount_request "b2" (JInt 5))
                (snd (handle_add (amount_request "a1" (JInt 3))
                        (idle_app [account 100 0])))))
  = table (snd (handle_add (amount_request "a1" (JInt 3))
                  (snd (handle_subtract (amount_request "b2" (JInt 5))
                          (idle_app [account 100 0]))))).
Proof.
  destruct (different_uuids_commute Add Subtract "a1" "b2" 3 5 (idle_app [account 100 0]))
    as (H & _ & _); [discriminate | lia | lia | reflexivity |].
  exact H.
Defined.

(** X22. A credit and a round of settlement, served one after the other,
    commute on a table with distinct uuids, when the row of the uuid has
    no negative hold and its balance, less the hold and with the amount,
    stays within 64 bits: the credit is answered the same before and after
    the round, and the two orders leave the same table. *)
Theorem credit_commutes_with_settlement id a app :
  0 <= a -> locked app = ∅ -> unique_uuids (table app) ->
  (forall row, fetchone (table app) id = Some row ->
     0 <= row_hold row /\
     INT64_MIN <= row_balance row - row_hold row /\
     row_balance row + a <= INT64_MAX) ->
  table (session [Credit (amount_request id (JInt a)); Tick] app)
  = table (session [Tick; Credit (amount_request id (JInt a))] app) /\
  fst (handle_add (amount_request id (JInt a)) (serve Tick app))
  = fst (handle_add (amount_request id (JInt a)) app).
Proof.
  intros Ha Hl Hnd Hfit.
  change (session [Credit (amount_request id (JInt a)); Tick] app)
    with (serve Tick (snd (handle_add (amount_request id (JInt a)) app))).
  change (session [Tick; Credit (amount_request id (JInt a))] app)
    with (snd (handle_add (amount_request id (JInt a)) (serve Tick app))).
  assert (forall x, table (serve Tick x) = List.map settle_row (table x)) as Htick
    by reflexivity.
  rewrite Htick. unfold table in *.
  destruct (handler_request_unlocked Add id a app Ha Hl) as (Ho1 & Hc1 & _).
  destruct (handler_request_unlocked Add id a (serve Tick app) Ha
              (serve_unlocked Tick app Hl)) as (Ho2 & Hc2 & _).
  change (handler Add) with handle_add in *.
  rewrite Ho1, Ho2, Hc2, Hc1. clear Ho1 Ho2 Hc1 Hc2.
  change (locked_body Add) with add_locked.
  rewrite !add_locked_cases.
  change (users (app_conn (serve Tick app)))
    with (List.map settle_row (users (app_conn app))).
  assert (fetchone (List.map settle_row (users (app_conn app))) id
          = settle_row <$> fetchone (users (app_conn app)) id) as Hf.
  { unfold fetchone. clear. induction (users (app_conn app)) as [|r t IH]; [reflexivity|].
    simpl. change (has_uuid id (settle_row r)) with (has_uuid id r).
    destruct (has_uuid id r); [reflexivity | apply IH]. }
  rewrite Hf.
  destruct (fetchone (users (app_conn app)) id) as [row|] eqn:Hrow;
    [|split; reflexivity].
  cbn [fmap option_fmap option_map].
  change (row_status (settle_row row)) with (row_status row).
  destruct (py_bool (row_status row)); [|split; reflexivity].
  destruct (Hfit row eq_refl) as (Hh & Hlow & Hhigh).
  pose proof (row_balance_range row) as Hrb. pose proof (row_hold_range row) as Hrh.
  destruct (settle_row_cells row) as (Sb & Sh & Ss).
  unfold INT64_MIN, INT64_MAX in *.
  assert (clamp64 (row_balance row - row_hold row) = row_balance row - row_hold row) as Ec
    by (unfold clamp64, INT64_MIN, INT64_MAX; lia).
  assert (fits64 (row_balance row + a) = true) as F1
    by (apply fits64_spec; unfold INT64_MIN, INT64_MAX; lia).
  assert (fits64 (row_balance (settle_row row) + a) = true) as F2
    by (rewrite Sb, Ec; apply fits64_spec; unfold INT64_MIN, INT64_MAX; lia).
  rewrite !update_one_eq, F1, F2.
  split; [|reflexivity].
  cbn [execute users snd].
  rewrite !List.map_map. apply List.map_ext_in. intros r Hin.
  unfold update_row. change (has_uuid id (settle_row r)) with (has_uuid id r).
  destruct (has_uuid id r) eqn:E; [|reflexivity].
  unfold has_uuid in E. apply String.eqb_eq in E.
  rewrite (unique_first _ _ _ _ Hnd Hrow Hin E).
  cbn [fold_left].
  destruct (set_balance_cells row (row_balance row + a)) as (B1 & H1 & S1).
  destruct (set_balance_cells (settle_row row) (row_balance (settle_row row) + a))
    as (B2 & H2 & S2).
  destruct (settle_row_cells (set_column row (Cbalance, row_balance row + a)))
    as (B3 & H3 & S3).
  apply user_row_eq; try reflexivity.
  rewrite B3, B1, H1, B2, Sb, Ec.
  unfold clamp64, INT64_MIN, INT64_MAX. lia.
Qed.

Lemma credit_commutes_with_settlement_witness :
  table (session [Credit (amount_request "a1" (JInt 1)); Tick] (idle_app [account 100 30]))
  = table (session [Tick; Credit (amount_request "a1" (JInt 1))] (idle_app [account 100 30])).
Proof.
  destruct (credit_commutes_with_settlement "a1" 1 (idle_app [account 100 30]))
    as [H _]; [lia | reflexivity | repeat constructor; intros H; inversion H | |].
  - intros row [= <-]. vm_compute. repeat split; discriminate.
  - exact H.
Defined.

Lemma fold_set_column_identity params r :
  Forall (fun kv => fst kv <> Cstatus) params ->
  identity (fold_left set_column params r) = identity r.
Proof.
  revert r. induction params as [|[k v] params IH]; intros r Hp; [reflexivity|].
  apply Forall_cons in Hp as [Hk Hp]. simpl. rewrite IH by exact Hp.
  destruct k; simpl in *; [reflexivity | reflexivity | contradiction].
Qed.

Lemma advance_identity tk app tk' app' :
  writes_amounts tk ->
  advance tk app = Some (tk', app') ->
  List.map identity (table app') = List.map identity (table app) /\ writes_amounts tk'.
Proof.
  intros Htk Hadv.
  destruct tk as [o t|o u v l|o u v l|o u l params|o u l|out]; simpl in Hadv.
  - injection Hadv as Harr. unfold arrive in Harr.
    destruct (parse_amount t) as [e|[uj v]].
    + destruct (except_ _ e); injection Harr as <- <-; split; simpl; auto.
    + destruct uj; try (injection Harr as <- <-; split; simpl; auto; fail).
      pose proof (enter_table s app) as Hen.
      destruct (locked_rows_enter s app) as [l app1]. injection Harr as <- <-.
      simpl in Hen. rewrite Hen. split; [reflexivity | exact I].
  - destruct (bool_decide _); [discriminate|]. injection Hadv as <- <-.
    split; [reflexivity | exact I].
  - injection Hadv as Hsel. unfold selected in Hsel.
    rewrite with_conn_eq, get_user_data_eq in Hsel. simpl in Hsel.
    set (app1 := on_conn _ app) in Hsel.
    assert (table app1 = table app) as Ht1 by reflexivity.
    assert (forall e, leave u l (inl e) app1 = (tk', app') ->
              List.map identity (table app') = List.map identity (table app) /\
              writes_amounts tk') as Hleave.
    { intros e H. pose proof (leave_table u l (inl e) app1) as Hlt.
      destruct (leave_is_done u l (inl e) app1) as [out Hout].
      rewrite H in Hlt, Hout. simpl in *. subst tk'.
      rewrite Hlt, Ht1. split; [reflexivity | exact I]. }
    destruct (fetchone (users (app_conn app)) u) as [row|]; simpl in Hsel;
      [|eapply Hleave, Hsel].
    destruct (prepare o _ v) as [e|params] eqn:Hprep; [eapply Hleave, Hsel|].
    injection Hsel as <- <-. rewrite Ht1. split; [reflexivity|].
    simpl. unfold prepare in Hprep. simpl in Hprep.
    destruct (negb (py_bool (row_status row))); [discriminate|].
    destruct o.
    + injection Hprep as <-. repeat constructor. simpl. discriminate.
    + destruct (negb _); [discriminate|]. injection Hprep as <-.
      repeat constructor. simpl. discriminate.
  - destruct (refused params) as [e|].
    + injection Hadv as Hleave.
      pose proof (leave_table u l (inl e) app) as Hlt.
      destruct (leave_is_done u l (inl e) app) as [out Hout].
      rewrite Hleave in Hlt, Hout. simpl in *. subst tk'.
      rewrite Hlt. split; [reflexivity | exact I].
    + injection Hadv as <- <-. split; [|exact I]. unfold table. simpl.
      rewrite List.map_map. apply List.map_ext. intros r.
      unfold update_row. destruct (has_uuid u r); [|reflexivity].
      apply fold_set_column_identity, Htk.
  - injection Hadv as Hleave. set (app1 := on_conn _ app) in Hleave.
    pose proof (leave_table u l (inr tt) app1) as Hlt.
    destruct (leave_is_done u l (inr tt) app1) as [out Hout].
    rewrite Hleave in Hlt, Hout. simpl in *. subst tk'.
    rewrite Hlt. split; [reflexivity | exact I].
  - discriminate.
Qed.

(** X23. The service never creates, deletes, reorders, renames, activates
    or deactivates an account: from a state with no request in flight,
    whatever requests arrive, however their handlers are interleaved and
    whenever settlement runs, the rows of the table have the uuids, names
    and statuses they had, in the same order. *)
Theorem accounts_keep_identity s0 s :
  quiescent s0 ->
  rtc run s0 s ->
  List.map identity (table (fst s)) = List.map identity (table (fst s0)).
Proof.
  intros (_ & _ & Hidle) Hrun.
  assert (Forall writes_amounts (snd s0)) as Hts.
  { eapply Forall_impl; [exact Hidle|]. intros tk Hk.
    destruct tk; simpl in *; auto; discriminate. }
  clear Hidle.
  induction Hrun as [s|s1 s2 s3 Hrun _ IH]; [reflexivity|].
  assert (List.map identity (table (fst s2)) = List.map identity (table (fst s1)) /\
          Forall writes_amounts (snd s2)) as [Hid Hts2].
  { destruct Hrun as [? ? Hstep|app ts o t|app ts]; simpl in *.
    - destruct Hstep as [app app' before tk tk' after Hadv]. simpl in *.
      apply Forall_app in Hts as [Hb Hts]. apply Forall_cons in Hts as [Htk Ha].
      destruct (advance_identity _ _ _ _ Htk Hadv) as [Hid Htk'].
      split; [exact Hid|]. apply Forall_app. split; [exact Hb|].
      apply Forall_cons. split; assumption.
    - split; [reflexivity|]. apply Forall_app. split; [exact Hts|].
      repeat constructor.
    - split; [|exact Hts]. unfold table. simpl. rewrite List.map_map. reflexivity. }
  rewrite <- Hid. apply IH, Hts2.
Qed.

Lemma accounts_keep_identity_witness :
  List.map identity (table (fst held_credit_raced)) = [("a1", "Ann", 1)].
Proof.
  apply (accounts_keep_identity held_credit held_credit_raced).
  - repeat split. repeat constructor.
  - exact held_credit_raced_reachable.
Defined.
